(** * convexSPPExplorator::getExplorationPath — a shallow embedding

    Source: ipa_room_exploration/common/src/convex_sensor_placement_explorator.cpp

    The planner discretises a room map into cells and candidate sensing
    poses, builds the binary visibility matrix V, runs the re-weighted
    convex relaxation loop against the external LP solver (QSopt), reduces
    the problem and solves it once more as an integer program.

    C++ [float] and [double] values are IEEE-754 binary32 / binary64 numbers,
    modelled with the executable specification [SpecFloat] of the standard
    library (round to nearest even, no NaN payload).  Integers are [Z] with
    the wrap-around of their width written out. *)

From Stdlib Require Import ZArith Bool Lia.
From Stdlib Require Import Floats.SpecFloat.
From Stdlib Require Strings.Ascii Strings.String DecimalString.
From stdpp Require Import base option list.

Local Open Scope Z_scope.
Import Ascii.AsciiSyntax String.StringSyntax.
Local Delimit Scope string_scope with string.

(** ** IEEE-754 arithmetic of the two C++ floating types *)

(** [double]: binary64. *)
Module D.
Definition prec : Z := 53.
Definition emax : Z := 1024.
Definition add := SFadd prec emax.
Definition sub := SFsub prec emax.
Definition mul := SFmul prec emax.
Definition div := SFdiv prec emax.
Definition sqrt := SFsqrt prec emax.
(** conversion of an integer value (int, uint, size_t) to double *)
Definition of_Z (z : Z) : spec_float := binary_normalize prec emax z 0 false.
(** conversion of a finite value of another format, correctly rounded *)
Definition round (x : spec_float) : spec_float :=
  match x with
  | S754_finite s m e => binary_round prec emax s m e
  | _ => x
  end.
(** a decimal literal [n / 10^k], correctly rounded as the compiler does *)
Definition lit (n : Z) (pow10 : Z) : spec_float := div (of_Z n) (of_Z (10 ^ pow10)).
End D.

(** [float]: binary32. *)
Module F.
Definition prec : Z := 24.
Definition emax : Z := 128.
Definition add := SFadd prec emax.
Definition sub := SFsub prec emax.
Definition mul := SFmul prec emax.
Definition div := SFdiv prec emax.
Definition sqrt := SFsqrt prec emax.
Definition of_Z (z : Z) : spec_float := binary_normalize prec emax z 0 false.
Definition round (x : spec_float) : spec_float :=
  match x with
  | S754_finite s m e => binary_round prec emax s m e
  | _ => x
  end.
End F.

(** The two C++ types.  Which format a value has is fixed by the operation
    that produces it; every operation returns the canonical representation
    of its format, and two values are only ever compared in one format. *)
Abbreviation double := spec_float (only parsing).
Abbreviation float := spec_float (only parsing).

(** Comparisons are those of IEEE-754: every comparison with a NaN is false. *)
Definition fle (x y : spec_float) : bool := SFleb x y.
Definition flt (x y : spec_float) : bool := SFltb x y.
Definition fge (x y : spec_float) : bool := SFleb y x.
Definition fgt (x y : spec_float) : bool := SFltb y x.
Definition feq (x y : spec_float) : bool := SFeqb x y.

(** Truncation toward zero of a finite value (C++ floating-to-integer
    conversion before the range check of the target type). *)
Definition ftrunc (x : spec_float) : option Z :=
  match x with
  | S754_zero _ => Some 0
  | S754_finite s m e => Some (cond_Zopp s (Z.shiftl (Z.pos m) e))
  | _ => None
  end.

(** ** Machine integers *)

Definition wrap_int (z : Z) : Z := (z + 2 ^ 31) mod 2 ^ 32 - 2 ^ 31.
Definition wrap_uint (z : Z) : Z := z mod 2 ^ 32.
Definition wrap_size_t (z : Z) : Z := z mod 2 ^ 64.

Definition in_int (z : Z) : bool := (- 2 ^ 31 <=? z) && (z <? 2 ^ 31).
Definition in_size_t (z : Z) : bool := (0 <=? z) && (z <? 2 ^ 64).

(** ** Outcome of running a piece of the C++ code

    [Ret a]   the code ran to its end with result [a];
    [Diverge] the loop budget of the model ran out (the source loop may
              run forever, e.g. with [cell_size = 0] or [delta_theta = 0]);
    [Undef]   the run leaves the defined behaviour of the C++ code (a
              floating value converted to an integer type that cannot hold
              it, a matrix or vector read outside its bounds or before it
              was written) or is aborted by a range check of OpenCV. *)

Inductive exec (A : Type) : Type :=
  | Ret (a : A)
  | Diverge
  | Undef.
Arguments Ret {A} a.
Arguments Diverge {A}.
Arguments Undef {A}.

#[global] Instance exec_ret : MRet exec := fun A a => Ret a.
#[global] Instance exec_bind : MBind exec := fun A B f m =>
  match m with
  | Ret a => f a
  | Diverge => Diverge
  | Undef => Undef
  end.

Definition of_option {A} (o : option A) : exec A :=
  match o with Some a => Ret a | None => Undef end.

(** floating value to [int] / [size_t]: truncation, undefined out of range *)
Definition to_int (x : spec_float) : exec Z :=
  match ftrunc x with
  | Some z => if in_int z then Ret z else Undef
  | None => Undef
  end.

Definition to_size_t (x : spec_float) : exec Z :=
  match ftrunc x with
  | Some z => if in_size_t z then Ret z else Undef
  | None => Undef
  end.

(** ** Data model *)

(** cv::Point (int coordinates) *)
Record Point := mkPoint { pt_x : Z; pt_y : Z }.
(** cv::Point2d *)
Record Point2d := mkPoint2d { p2d_x : double; p2d_y : double }.
(** geometry_msgs::Point32 *)
Record Point32 := mkPoint32 { p32_x : float; p32_y : float; p32_z : float }.
(** geometry_msgs::Pose2D *)
Record Pose2D := mkPose2D { pose_x : double; pose_y : double; pose_theta : double }.
(** Eigen::Matrix<float, 2, 1> and Eigen::Matrix<float, 2, 2> *)
Record Vec2f := mkVec2f { v0 : float; v1 : float }.
Record Mat2f := mkMat2f { m00 : float; m01 : float; m10 : float; m11 : float }.

(** cv::Mat of type CV_8U.  A freshly constructed matrix is not
    initialised: an element is [None] until it is written. *)
Record Mat := mkMat {
  mat_rows : nat;
  mat_cols : nat;
  mat_data : list (list (option Z))
}.

Definition Mat_new (rows cols : nat) : Mat :=
  mkMat rows cols (replicate rows (replicate cols None)).

(** the element at [(r, c)], if there is one and it has been written *)
Definition mat_get (M : Mat) (r c : nat) : option Z :=
  row ← mat_data M !! r; mjoin (row !! c).

(** [M.at<uchar>(r, c) = v].  The loops of the source write inside the
    matrix; outside it this update changes nothing. *)
Definition mat_set (M : Mat) (r c : nat) (v : Z) : Mat :=
  mkMat (mat_rows M) (mat_cols M)
        (alter (fun row => <[c := Some v]> row) r (mat_data M)).

(** the data has [mat_rows] rows of [mat_cols] elements *)
Definition mat_wf (M : Mat) : Prop :=
  length (mat_data M) = mat_rows M /\
  Forall (fun row => length row = mat_cols M) (mat_data M).

(** [M.at<uchar>(row, col)] with [int] indices, for reading *)
Definition mat_at (M : Mat) (r c : Z) : exec Z :=
  if (0 <=? r) && (0 <=? c) then of_option (mat_get M (Z.to_nat r) (Z.to_nat c))
  else Undef.

(** [M.col(j)], [cv::hconcat(A, B, _)] and [M.colRange(a, b)]: OpenCV checks
    the ranges and sizes and aborts the call when they do not fit. *)
Definition Mat_col (M : Mat) (j : nat) : exec Mat :=
  if decide (j < mat_cols M)%nat
  then Ret (mkMat (mat_rows M) 1 (map (fun row => take 1 (drop j row)) (mat_data M)))
  else Undef.

Definition Mat_hconcat (A B : Mat) : exec Mat :=
  if decide (mat_rows A = mat_rows B)
  then Ret (mkMat (mat_rows A) (mat_cols A + mat_cols B)
                  (zip_with app (mat_data A) (mat_data B)))
  else Undef.

Definition Mat_colRange (M : Mat) (a b : nat) : exec Mat :=
  if decide (a <= b <= mat_cols M)%nat
  then Ret (mkMat (mat_rows M) (b - a)
                  (map (fun row => take (b - a) (drop a row)) (mat_data M)))
  else Undef.

(** ** The linear program handed to QSopt *)

Inductive QSsense := QS_G | QS_L | QS_E.

(** one [QSnew_col (problem, obj, lower, upper, NULL)] *)
Record QScol := mkQScol { col_obj : double; col_lower : double; col_upper : double }.

(** one [QSadd_row (problem, cnt, indices, coefficients, rhs, sense, NULL)] *)
Record QSrow := mkQSrow {
  row_indices : list Z;
  row_coefs : list double;
  row_rhs : double;
  row_sense : QSsense
}.

(** The minimisation problem "conv-SPP".  [qs_integer] lists the variables
    named in the [Integer] section that the source appends to the LP file
    before it reloads the problem: [k] stands for the name [xk]. *)
Record QSprob := mkQSprob {
  qs_cols : list QScol;
  qs_rows : list QSrow;
  qs_integer : list nat
}.

Definition d_zero : double := D.of_Z 0.
Definition d_one : double := D.of_Z 1.

Section Planner.

(** ** External collaborators

    [PI] is a macro of the header, which is not part of the sources; the
    functions of <cmath>, OpenCV and QSopt are taken as they are.
    [LineIterator room_map p q] is the sequence of the [count] pixel
    positions that [cv::LineIterator] visits from [p] to [q];
    [QSopt_solution problem i] is the value of variable [i] that
    [QSget_solution] reports after [QSopt_dual] ran on [problem]. *)
Variable PI : double.
Variable std_sin std_cos : double -> double.
Variable std_acos : float -> float.
Variable std_exp : double -> double.
Variable std_pow : double -> double -> double.
Variable pointPolygonTest : list Point -> Point -> double.
Variable LineIterator : Mat -> Point -> Point -> list Point.
Variable QSopt_solution : QSprob -> nat -> double.

(** ** I. Discretisation: cells and candidate sensing poses *)

(** first value of a grid loop: [size_t v = min + 0.5*cell_size] *)
Definition grid_start (min : float) (cell_size : Z) : exec Z :=
  to_size_t (D.add (D.round min) (D.mul (D.lit 5 1) (D.of_Z cell_size))).

(** the inner loop over [x] of one grid line [y] *)
Fixpoint cells_of_line (fuel : nat) (room_map : Mat) (cell_size : Z) (max_x : float)
    (y x : Z) (cell_centers : list Point) : exec (list Point) :=
  match fuel with
  | O => Diverge
  | S fuel' =>
      if fle (F.of_Z x) max_x then
        v ← mat_at room_map (wrap_int y) (wrap_int x);
        cells_of_line fuel' room_map cell_size max_x y (wrap_size_t (x + cell_size))
          (if v =? 255 then cell_centers ++ [mkPoint (wrap_int x) (wrap_int y)]
           else cell_centers)
      else Ret cell_centers
  end.

(** the outer loop over [y] *)
Fixpoint cells_of_lines (fuel : nat) (room_map : Mat) (cell_size : Z)
    (min_x max_x max_y : float) (y : Z) (cell_centers : list Point) : exec (list Point) :=
  match fuel with
  | O => Diverge
  | S fuel' =>
      if fle (F.of_Z y) max_y then
        x ← grid_start min_x cell_size;
        cell_centers' ← cells_of_line fuel' room_map cell_size max_x y x cell_centers;
        cells_of_lines fuel' room_map cell_size min_x max_x max_y
          (wrap_size_t (y + cell_size)) cell_centers'
      else Ret cell_centers
  end.

Definition get_cell_centers (fuel : nat) (room_map : Mat) (cell_size : Z)
    (room_min_max_coordinates : list Point32) : exec (list Point) :=
  p0 ← of_option (room_min_max_coordinates !! 0%nat);
  y ← grid_start (p32_y p0) cell_size;
  p1 ← of_option (room_min_max_coordinates !! 1%nat);
  cells_of_lines fuel room_map cell_size (p32_x p0) (p32_x p1) (p32_y p1) y [].

(** the loop over the headings of one cell centre *)
Fixpoint poses_of_center (fuel : nat) (delta_theta : double) (center : Point)
    (angle : double) (poses : list Pose2D) : exec (list Pose2D) :=
  match fuel with
  | O => Diverge
  | S fuel' =>
      if flt angle (D.mul (D.of_Z 2) PI) then
        poses_of_center fuel' delta_theta center (D.add angle delta_theta)
          (poses ++ [mkPose2D (D.of_Z (pt_x center)) (D.of_Z (pt_y center)) angle])
      else Ret poses
  end.

Fixpoint get_candidate_poses (fuel : nat) (delta_theta : double)
    (cell_centers : list Point) (poses : list Pose2D) : exec (list Pose2D) :=
  match cell_centers with
  | [] => Ret poses
  | center :: rest =>
      poses' ← poses_of_center fuel delta_theta center d_zero poses;
      get_candidate_poses fuel delta_theta rest poses'
  end.

(** ** II. The visibility matrix V *)

(** Eigen operations on fixed-size float matrices *)
Definition rotation (sin_theta cos_theta : float) : Mat2f :=
  mkMat2f cos_theta (SFopp sin_theta) sin_theta cos_theta.

Definition mat_vec (R : Mat2f) (v : Vec2f) : Vec2f :=
  mkVec2f (F.add (F.mul (m00 R) (v0 v)) (F.mul (m01 R) (v1 v)))
          (F.add (F.mul (m10 R) (v0 v)) (F.mul (m11 R) (v1 v))).

Definition vec_add (a b : Vec2f) : Vec2f :=
  mkVec2f (F.add (v0 a) (v0 b)) (F.add (v1 a) (v1 b)).

Definition vec_dot (a b : Vec2f) : float :=
  F.add (F.mul (v0 a) (v0 b)) (F.mul (v1 a) (v1 b)).

Definition vec_norm (a : Vec2f) : float := F.sqrt (vec_dot a a).

(** [pose_as_matrix]: the pose position in metres *)
Definition pose_as_matrix (map_resolution : float) (map_origin : Point2d)
    (pose : Pose2D) : Vec2f :=
  mkVec2f
    (F.round (D.add (D.mul (pose_x pose) (D.round map_resolution)) (p2d_x map_origin)))
    (F.round (D.add (D.mul (pose_y pose) (D.round map_resolution)) (p2d_y map_origin))).

(** one footprint corner, rotated, moved to the pose, converted to pixels
    and clamped to the map borders *)
Definition transform_fow_point (room_map : Mat) (map_resolution : float)
    (map_origin : Point2d) (R : Mat2f) (pose_m : Vec2f) (corner : Point32) : exec Point :=
  let fow_point := mkVec2f (p32_x corner) (p32_y corner) in
  let transformed_vector := vec_add pose_m (mat_vec R fow_point) in
  x ← to_int (D.div (D.sub (D.round (v0 transformed_vector)) (p2d_x map_origin))
                    (D.round map_resolution));
  y ← to_int (D.div (D.sub (D.round (v1 transformed_vector)) (p2d_y map_origin))
                    (D.round map_resolution));
  Ret (mkPoint (Z.min (Z.max x 0) (Z.of_nat (mat_cols room_map)))
               (Z.min (Z.max y 0) (Z.of_nat (mat_rows room_map)))).

(** [pose_to_neighbor << neighbor->x-pose->x, neighbor->y-pose->y] *)
Definition pose_to_neighbor (pose : Pose2D) (neighbor : Point) : Vec2f :=
  mkVec2f (F.round (D.sub (D.of_Z (pt_x neighbor)) (pose_x pose)))
          (F.round (D.sub (D.of_Z (pt_y neighbor)) (pose_y pose))).

(** the range gate: [distance >= smallest/map_resolution && distance <= largest/map_resolution] *)
Definition range_gate (distance smallest_robot_to_fow_distance
    largest_robot_to_fow_distance : double) (map_resolution : float) : bool :=
  fge distance (D.div smallest_robot_to_fow_distance (D.round map_resolution))
  && fle distance (D.div largest_robot_to_fow_distance (D.round map_resolution)).

(** [quotient = dot/abs] *)
Definition quotient_of (middlepoint_vector p2n : Vec2f) : float :=
  let dot := vec_dot middlepoint_vector p2n in
  let abs := F.mul (vec_norm middlepoint_vector) (vec_norm p2n) in
  F.div dot abs.

(** the two clamping branches that follow *)
Definition clamp_quotient (quotient : float) : float :=
  if fgt quotient (F.of_Z 1) then F.of_Z 1
  else if flt quotient (F.of_Z (-1)) then F.of_Z (-1)
  else quotient.

Definition angle_of (middlepoint_vector p2n : Vec2f) : float :=
  std_acos (clamp_quotient (quotient_of middlepoint_vector p2n)).

(** the angle gate: [angle <= max_fow_angle] *)
Definition angle_gate (angle : float) (max_fow_angle : double) : bool :=
  fle (D.round angle) max_fow_angle.

(** the walk along the line of sight: [hit_obstacle] *)
Fixpoint line_hits_obstacle (room_map : Mat) (border_line : list Point)
    (hit_obstacle : bool) : exec bool :=
  match border_line with
  | [] => Ret hit_obstacle
  | pos :: rest =>
      v ← mat_at room_map (pt_y pos) (pt_x pos);
      line_hits_obstacle room_map rest (if v =? 0 then true else hit_obstacle)
  end.

(** The branch of the per-cell test that writes the entry of V. *)
Inductive branch :=
  | OutOfRange      (* line 294: point not in the right range *)
  | AngleTooBig     (* line 291: point spans too big an angle *)
  | OutsideFow      (* line 288: point outside the field of view *)
  | HitObstacle     (* line 285: the line of sight crosses an obstacle *)
  | Observable.     (* line 281 *)

Definition written_value (b : branch) : Z :=
  match b with Observable => 1 | _ => 0 end.

Section VisibilityTest.
Variable room_map : Mat.
Variable map_resolution : float.
Variable max_fow_angle smallest_robot_to_fow_distance largest_robot_to_fow_distance : double.

Definition check_neighbor (transformed_fow_points : list Point)
    (middlepoint_vector : Vec2f) (pose : Pose2D) (neighbor : Point) : exec branch :=
  let p2n := pose_to_neighbor pose neighbor in
  let distance := D.round (vec_norm p2n) in
  if range_gate distance smallest_robot_to_fow_distance
       largest_robot_to_fow_distance map_resolution then
    if angle_gate (angle_of middlepoint_vector p2n) max_fow_angle then
      if fge (pointPolygonTest transformed_fow_points neighbor) d_zero then
        x ← to_int (pose_x pose);
        y ← to_int (pose_y pose);
        hit_obstacle ←
          line_hits_obstacle room_map (LineIterator room_map (mkPoint x y) neighbor) false;
        Ret (if (hit_obstacle : bool) then HitObstacle else Observable)
      else Ret OutsideFow
    else Ret AngleTooBig
  else Ret OutOfRange.

(** the loop over the cells for one pose (column [j]); [i] is
    [neighbor - cell_centers.begin()] *)
Fixpoint check_cells (transformed_fow_points : list Point) (middlepoint_vector : Vec2f)
    (pose : Pose2D) (j : nat) (neighbors : list Point) (i : nat) (V : Mat) : exec Mat :=
  match neighbors with
  | [] => Ret V
  | neighbor :: rest =>
      b ← check_neighbor transformed_fow_points middlepoint_vector pose neighbor;
      check_cells transformed_fow_points middlepoint_vector pose j rest (S i)
        (mat_set V i j (written_value b))
  end.

Variable map_origin : Point2d.
Variable footprint : list Point32.
Variable robot_to_fow_middlepoint_vector : Vec2f.

Definition pose_rotation (pose : Pose2D) : Mat2f :=
  rotation (F.round (std_sin (pose_theta pose))) (F.round (std_cos (pose_theta pose))).

Definition transformed_fow_points_of (pose : Pose2D) : exec (list Point) :=
  mapM (transform_fow_point room_map map_resolution map_origin (pose_rotation pose)
          (pose_as_matrix map_resolution map_origin pose)) footprint.

Definition transformed_middlepoint_of (pose : Pose2D) : Vec2f :=
  mat_vec (pose_rotation pose) robot_to_fow_middlepoint_vector.

(** the loop over the candidate poses; [j] is
    [pose - candidate_sensing_poses.begin()] *)
Fixpoint check_poses (cell_centers : list Point) (poses : list Pose2D) (j : nat)
    (V : Mat) : exec Mat :=
  match poses with
  | [] => Ret V
  | pose :: rest =>
      transformed_fow_points ← transformed_fow_points_of pose;
      V' ← check_cells transformed_fow_points (transformed_middlepoint_of pose)
             pose j cell_centers 0%nat V;
      check_poses cell_centers rest (S j) V'
  end.

Definition build_V (cell_centers : list Point) (candidate_sensing_poses : list Pose2D) : exec Mat :=
  check_poses cell_centers candidate_sensing_poses 0%nat
    (Mat_new (length cell_centers) (length candidate_sensing_poses)).

End VisibilityTest.

(** ** solveOptimizationProblem *)

(** the loop that adds one variable per entry of [C] *)
Definition objective_columns (n : nat) (W : option (list double)) : exec (list QScol) :=
  mapM (fun variable =>
          match W with
          | Some w => obj ← of_option (w !! variable); Ret (mkQScol obj d_zero d_one)
          | None => Ret (mkQScol d_one d_zero d_one)
          end) (seq 0 n).

(** [variable_indices] of one row: the columns where [V[row][col] == 1] *)
Fixpoint variable_indices_of (V : Mat) (row : nat) (cols : list nat) : exec (list Z) :=
  match cols with
  | [] => Ret []
  | col :: rest =>
      v ← of_option (mat_get V row col);
      indices ← variable_indices_of V row rest;
      Ret (if v =? 1 then wrap_int (Z.of_nat col) :: indices else indices)
  end.

(** For a row without a 1 the source passes the count 0 and the address
    [&variable_indices[0]] of an empty vector; here the lists are empty. *)
Definition covering_row (V : Mat) (row : nat) : exec QSrow :=
  variable_indices ← variable_indices_of V row (seq 0 (mat_cols V));
  Ret (mkQSrow variable_indices (replicate (length variable_indices) d_one) d_one QS_G).

(** The problem that is solved.  Without weights the source writes the
    problem to an LP file, appends an [Integer] section naming
    [x1 ... x(C.size())] and reloads it. *)
Definition build_problem (n : nat) (V : Mat) (W : option (list double)) : exec QSprob :=
  cols ← objective_columns n W;
  rows ← mapM (covering_row V) (seq 0 (mat_rows V));
  Ret (mkQSprob cols rows (match W with None => seq 1 n | Some _ => [] end)).

(** [C[variable] = result[variable]] for [variable < ncols] *)
Fixpoint store_solution {T} (convert : double -> exec T) (result : nat -> double)
    (variables : list nat) (C : list T) : exec (list T) :=
  match variables with
  | [] => Ret C
  | variable :: rest =>
      x ← convert (result variable);
      if decide (variable < length C)%nat
      then store_solution convert result rest (<[variable := x]> C)
      else Undef
  end.

(** [convert] is the conversion of a double to the element type [T] of [C];
    [ncols] is the number of columns of the problem built above. *)
Definition solveOptimizationProblem {T} (convert : double -> exec T)
    (C : list T) (V : Mat) (W : option (list double)) : exec (QSprob * list T) :=
  problem ← build_problem (length C) V W;
  let ncols := length (qs_cols problem) in
  C' ← store_solution convert (QSopt_solution problem) (seq 0 ncols) C;
  Ret (problem, C').

(** ** III.1 The re-weighting loop *)

Record LoopState := mkLoopState {
  C : list double;
  W : list double;
  sparsity_converged : bool;
  weight_epsilon : double;
  number_of_iterations : Z;
  sparsity_measures : list Z
}.

(** [int exponent = 1 + (number_of_iterations - 1)*0.1] *)
Definition exponent_of (number_of_iterations : Z) : exec Z :=
  to_int (D.add (D.of_Z 1)
                (D.mul (D.of_Z (wrap_uint (number_of_iterations - 1))) (D.lit 1 1))).

Definition euler_constant : double := std_exp d_one.

(** [std::pow(1/(euler_constant-1), exponent)] *)
Definition epsilon_of (exponent : Z) : double :=
  std_pow (D.div (D.of_Z 1) (D.sub euler_constant (D.of_Z 1))) (D.of_Z exponent).

(** the epsilon term of iteration [number_of_iterations] *)
Definition weight_epsilon_at (number_of_iterations : Z) : exec double :=
  exponent ← exponent_of number_of_iterations;
  Ret (epsilon_of exponent).

(** [W[weight] = weight_epsilon/(weight_epsilon + C[weight])] *)
Fixpoint update_weights (epsilon : double) (C : list double) (weights : list nat)
    (W : list double) : exec (list double) :=
  match weights with
  | [] => Ret W
  | weight :: rest =>
      c ← of_option (C !! weight);
      update_weights epsilon C rest (<[weight := D.div epsilon (D.add epsilon c)]> W)
  end.

(** the l^0_eps measure [|{i : c[i] <= 0.01}|], counted in a [uint] *)
Definition l0_eps_measure (C : list double) : Z :=
  foldl (fun sparsity_measure c =>
           if fle c (D.lit 1 2) then wrap_uint (sparsity_measure + 1)
           else sparsity_measure) 0 C.

(** the reverse walk over the last measures: at most [remaining] steps
    from [rbegin()], stopping at [rend()] *)
Fixpoint count_last_measures (rev_measures : list Z) (remaining : nat) (back : Z)
    (number_of_last_measure : Z) : Z :=
  match rev_measures, remaining with
  | measure :: rest, S remaining' =>
      count_last_measures rest remaining' back
        (if measure =? back then wrap_uint (number_of_last_measure + 1)
         else number_of_last_measure)
  | _, _ => number_of_last_measure
  end.

(** the terminal condition of one iteration: the new value of
    [sparsity_converged] *)
Definition terminal_condition (sparsity_measures : list Z) (sparsity_check_range : Z)
    (sparsity_converged : bool) : bool :=
  if Z.of_nat (length sparsity_measures) >=? sparsity_check_range then
    let number_of_last_measure :=
      count_last_measures (reverse sparsity_measures) (Z.to_nat sparsity_check_range)
        (default 0 (last sparsity_measures)) 0 in
    if number_of_last_measure =? sparsity_check_range then true else sparsity_converged
  else sparsity_converged.

(** the body of the do-while loop *)
Definition iteration (V : Mat) (sparsity_check_range : Z) (st : LoopState) : exec LoopState :=
  let number_of_iterations := wrap_uint (number_of_iterations st + 1) in
  '(_, C') ← solveOptimizationProblem Ret (C st) V (Some (W st));
  weight_epsilon ← weight_epsilon_at number_of_iterations;
  W' ← update_weights weight_epsilon C' (seq 0 (length (W st))) (W st);
  let sparsity_measures := sparsity_measures st ++ [l0_eps_measure C'] in
  Ret (mkLoopState C' W'
         (terminal_condition sparsity_measures sparsity_check_range (sparsity_converged st))
         weight_epsilon number_of_iterations sparsity_measures).

(** [do { ... } while(sparsity_converged == false && number_of_iterations <= 200)] *)
Fixpoint relaxation_loop (fuel : nat) (V : Mat) (sparsity_check_range : Z)
    (st : LoopState) : exec LoopState :=
  match fuel with
  | O => Diverge
  | S fuel' =>
      st' ← iteration V sparsity_check_range st;
      if negb (sparsity_converged st') && (number_of_iterations st' <=? 200)
      then relaxation_loop fuel' V sparsity_check_range st'
      else Ret st'
  end.

Definition initial_state (number_of_candidates : nat) : LoopState :=
  let W := replicate number_of_candidates d_one in
  mkLoopState (replicate (length W) d_zero) W false d_zero 0 [].

(** ** III.2 Reduction and the final problem *)

(** the loop over [C]; [idx] is [result - C.begin()] *)
Fixpoint reduce_columns (V : Mat) (results : list double) (idx : nat)
    (new_number_of_variables : Z) (V_reduced : Mat) : exec (Z * Mat) :=
  match results with
  | [] => Ret (new_number_of_variables, V_reduced)
  | result :: rest =>
      if feq result d_zero then
        column ← Mat_col V idx;
        V_reduced' ← Mat_hconcat V_reduced column;
        reduce_columns V rest (S idx) (wrap_uint (new_number_of_variables + 1)) V_reduced'
      else reduce_columns V rest (S idx) new_number_of_variables V_reduced
  end.

Definition reduce_problem (V : Mat) (C : list double) (number_of_cells : nat) : exec (Z * Mat) :=
  '(new_number_of_variables, V_reduced) ←
      reduce_columns V C 0%nat 0 (Mat_new number_of_cells 1);
  V_reduced' ← Mat_colRange V_reduced 1 (mat_cols V_reduced);
  Ret (new_number_of_variables, V_reduced').

(** ** getExplorationPath *)

(** What the function leaves behind: the caller's [path] and its locals.
    The sizes of the vectors and matrices are natural numbers: the source
    keeps them in [int] and [size_t], which hold them. *)
Record Result := mkResult {
  res_path : list Pose2D;
  res_cell_centers : list Point;
  res_candidate_sensing_poses : list Pose2D;
  res_V : Mat;
  res_loop : LoopState;
  res_V_reduced : Mat;
  res_final_problem : QSprob;
  res_C_reduced : list Z
}.

Definition getExplorationPath (fuel : nat) (room_map : Mat) (path : list Pose2D)
    (map_resolution : float) (starting_position : Point) (map_origin : Point2d)
    (cell_size : Z) (delta_theta : double) (room_min_max_coordinates : list Point32)
    (footprint : list Point32) (robot_to_fow_middlepoint_vector : Vec2f)
    (max_fow_angle smallest_robot_to_fow_distance largest_robot_to_fow_distance : double)
    (sparsity_check_range : Z) : exec Result :=
  cell_centers ← get_cell_centers fuel room_map cell_size room_min_max_coordinates;
  candidate_sensing_poses ← get_candidate_poses fuel delta_theta cell_centers [];
  let number_of_candidates := length candidate_sensing_poses in
  V ← build_V room_map map_resolution max_fow_angle smallest_robot_to_fow_distance
        largest_robot_to_fow_distance map_origin footprint
        robot_to_fow_middlepoint_vector cell_centers candidate_sensing_poses;
  st ← relaxation_loop fuel V sparsity_check_range (initial_state number_of_candidates);
  '(new_number_of_variables, V_reduced) ← reduce_problem V (C st) (length cell_centers);
  let C_reduced := replicate (Z.to_nat new_number_of_variables) 0 in
  '(problem, C_reduced') ← solveOptimizationProblem to_int C_reduced V_reduced None;
  Ret (mkResult path cell_centers candidate_sensing_poses V st V_reduced problem C_reduced').

End Planner.

(** ** The LP file with the integer section

    Without weights [solveOptimizationProblem] writes the problem to
    [lin_prog.lp], copies it to [int_lin_prog.lp] with an [Integer] section
    and reloads it.  A file is the list of its characters. *)

Abbreviation ascii := Ascii.ascii (only parsing).

#[global] Instance ascii_eq_dec : EqDecision ascii := Ascii.ascii_dec.

(** the characters of a string literal *)
Definition text (s : String.string) : list ascii := String.list_ascii_of_string s.
Arguments text s%_string.

(** the line feed that [std::endl] writes and [getline] stops at *)
Definition endl : ascii := Ascii.ascii_of_nat 10.

(** [while (getline(original_problem, line))]: the lines that the calls
    return, each without its line feed; at the end of the file a call
    succeeds only when it has read a character *)
Fixpoint getlines_from (line : list ascii) (content : list ascii) : list (list ascii) :=
  match content with
  | [] => match line with [] => [] | _ => [line] end
  | c :: rest =>
      if decide (c = endl) then line :: getlines_from [] rest
      else getlines_from (line ++ [c]) rest
  end.

Definition getlines (content : list ascii) : list (list ascii) := getlines_from [] content.

(** [new_problem << variable] for a [size_t]: its decimal digits *)
Definition decimal (variable : nat) : list ascii :=
  text (DecimalString.NilEmpty.string_of_uint (Nat.to_uint variable)).

(** the loop that copies every line but [End] *)
Definition copy_lines (lines : list (list ascii)) (new_problem : list ascii) : list ascii :=
  foldl (fun new_problem line =>
           if decide (line <> text "End") then new_problem ++ line ++ [endl]
           else new_problem)
        new_problem lines.

(** the loop that names the integer variables, five on a line *)
Fixpoint write_integer_names (variables : list nat) (new_problem : list ascii)
    : list ascii :=
  match variables with
  | [] => new_problem
  | variable :: rest =>
      let new_problem := new_problem ++ text " x" ++ decimal variable in
      write_integer_names rest
        (if (variable mod 5 =? 0)%nat then new_problem ++ [endl] else new_problem)
  end.

(** the content of [int_lin_prog.lp], from the content of [lin_prog.lp] and
    [C.size()] *)
Definition int_lin_prog (original_problem : list ascii) (n : nat) : list ascii :=
  let new_problem := copy_lines (getlines original_problem) [] in
  let new_problem := new_problem ++ text "Integer" ++ [endl] in
  let new_problem := write_integer_names (seq 1 n) new_problem in
  new_problem ++ [endl] ++ text "End".

(** ** The specification's wording, for comparison *)

(** the exponent of the specification, [1 + (k-1)*0.1], kept as a double *)
Definition spec_exponent (k : Z) : double :=
  D.add (D.of_Z 1) (D.mul (D.of_Z (k - 1)) (D.lit 1 1)).

(** the columns the specification keeps: those whose relaxed value is
    exactly 0.0, in increasing order *)
Definition spec_kept_columns (C : list double) : list nat :=
  filter (fun j => feq (default S754_nan (C !! j)) d_zero = true) (seq 0 (length C)).

(** ** Auxiliary notions of the statements *)

(** every element of the matrix has been written *)
Definition mat_written (M : Mat) : Prop :=
  forall r c, (r < mat_rows M)%nat -> (c < mat_cols M)%nat -> is_Some (mat_get M r c).

Definition mat_writtenb (M : Mat) : bool :=
  forallb (fun r => forallb (fun c => bool_decide (is_Some (mat_get M r c)))
                            (seq 0 (mat_cols M)))
          (seq 0 (mat_rows M)).

(** the headings of one pass of the angle loop, from [first] on: all below
    [2.0*PI], each the one before it plus [delta_theta], and not empty when
    [first] is below [2.0*PI] *)
Definition heading_chain (PI delta_theta first : double) (headings : list double) : Prop :=
  Forall (fun h => flt h (D.mul (D.of_Z 2) PI) = true) headings /\
  (forall h, headings !! 0%nat = Some h -> h = first) /\
  (forall k h h', headings !! k = Some h -> headings !! S k = Some h' ->
                  h' = D.add h delta_theta) /\
  (flt first (D.mul (D.of_Z 2) PI) = true -> headings <> []).

(** a value that is a zero or not a number *)
Definition zero_or_nan (x : spec_float) : Prop :=
  match x with
  | S754_zero _ | S754_nan => True
  | _ => False
  end.

(** the integer exponent of iteration [k] is [1 + (k-1)/10] *)
Definition exponent_checked (k : nat) : bool :=
  match exponent_of (Z.of_nat k) with
  | Ret exponent => exponent =? 1 + (Z.of_nat k - 1) / 10
  | _ => false
  end.

(** the entries of a row at the columns [js], in the order of [js] *)
Definition select_columns (js : list nat) (row : list (option Z)) : list (option Z) :=
  flat_map (fun j => take 1 (drop j row)) js.

(** the positions, counted from [idx], of the values equal to 0.0 *)
Fixpoint zero_positions (idx : nat) (results : list double) : list nat :=
  match results with
  | [] => []
  | result :: rest =>
      if feq result d_zero then idx :: zero_positions (S idx) rest
      else zero_positions (S idx) rest
  end.

(** a value below zero: a negative number or minus infinity *)
Definition negative (x : spec_float) : Prop :=
  match x with
  | S754_infinity true | S754_finite true _ _ => True
  | _ => False
  end.

(** a zero or a value below zero *)
Definition non_positive (x : spec_float) : Prop :=
  match x with
  | S754_zero _ | S754_infinity true | S754_finite true _ _ => True
  | _ => False
  end.

(** the free pixels among the grid points [(x0 + i*cell_size, y0 + j*cell_size)]
    with [i < kx] and [j < ky], line by line *)
Definition grid_cells (room_map : Mat) (cell_size x0 y0 : Z) (kx ky : nat) : list Point :=
  flat_map (fun j =>
    flat_map (fun i =>
      let x := x0 + Z.of_nat i * cell_size in
      let y := y0 + Z.of_nat j * cell_size in
      match mat_at room_map y x with
      | Ret 255 => [mkPoint x y]
      | _ => []
      end) (seq 0 kx)) (seq 0 ky).

(** ** Concrete collaborators and inputs

    Stand-ins for the external functions, defined at the arguments that the
    runs below pass to them, and three small rooms. *)

Module Scenario.

(** [#define PI 3.14159265359], as the sibling sources define it *)
Definition PI : double := D.lit 314159265359 11.

(** binary32 pi, the value of [acos(-1.0f)] *)
Definition float_pi : float := S754_finite false 13176795 (-22).

(** sin and cos at the headings 0 and [PI] ([sin PI] to five digits) *)
Definition sin (x : double) : double :=
  if feq x d_zero then d_zero
  else if feq x PI then D.lit (-20676) 17
  else S754_nan.

Definition cos (x : double) : double :=
  if feq x d_zero then d_one
  else if feq x PI then D.of_Z (-1)
  else S754_nan.

(** acos at 1, -1 and NaN *)
Definition acos (q : float) : float :=
  if feq q (F.of_Z 1) then S754_zero false
  else if feq q (F.of_Z (-1)) then float_pi
  else S754_nan.

(** exp at 1 *)
Definition exp (x : double) : double :=
  if feq x d_one then D.lit 2718281828459045 15 else S754_nan.

(** pow with exponent 1 *)
Definition pow (b x : double) : double :=
  if feq x d_one then b else S754_nan.

(** every cell of the rooms below lies on the border of the clamped footprint *)
Definition pointPolygonTest (polygon : list Point) (p : Point) : double := d_zero.

(** the pixels of a horizontal line from [p] to [q], both ends included *)
Definition LineIterator (room_map : Mat) (p q : Point) : list Point :=
  let n := Z.abs_nat (pt_x q - pt_x p) in
  map (fun k => mkPoint (pt_x p + Z.sgn (pt_x q - pt_x p) * Z.of_nat k) (pt_y p))
      (seq 0 (S n)).

(** A reference solver for small covering problems: the cheapest 0/1
    assignment that satisfies every row, the first one in enumeration order
    among equals; all zero when no assignment is feasible. *)
Fixpoint assignments (n : nat) : list (list bool) :=
  match n with
  | O => [[]]
  | S k => flat_map (fun a => [false :: a; true :: a]) (assignments k)
  end.

Definition feasible (problem : QSprob) (a : list bool) : bool :=
  forallb (fun row =>
             existsb (fun idx => nth (Z.to_nat idx) a false) (row_indices row))
          (qs_rows problem).

Definition cost (problem : QSprob) (a : list bool) : double :=
  foldl (fun acc '(col, chosen) => if (chosen : bool) then D.add acc (col_obj col) else acc)
        d_zero (zip (qs_cols problem) a).

Definition cheapest (problem : QSprob) : option (list bool) :=
  foldl (fun best a =>
           if feasible problem a then
             match best with
             | Some b => if flt (cost problem a) (cost problem b) then Some a else best
             | None => Some a
             end
           else best)
        None (assignments (length (qs_cols problem))).

Definition QSopt_solution (problem : QSprob) (i : nat) : double :=
  match cheapest problem with
  | Some a => if nth i a false then d_one else d_zero
  | None => d_zero
  end.

Definition run := getExplorationPath PI sin cos acos exp pow pointPolygonTest
                    LineIterator QSopt_solution.

Definition f_zero : float := S754_zero false.
Definition f_one : float := F.of_Z 1.

(** a big square footprint around the robot *)
Definition footprint : list Point32 :=
  [ mkPoint32 (F.of_Z (-3)) (F.of_Z (-3)) f_zero; mkPoint32 (F.of_Z 3) (F.of_Z (-3)) f_zero;
    mkPoint32 (F.of_Z 3) (F.of_Z 3) f_zero; mkPoint32 (F.of_Z (-3)) (F.of_Z 3) f_zero ].

Definition bounds (max_x : Z) : list Point32 :=
  [ mkPoint32 f_zero f_zero f_zero; mkPoint32 (F.of_Z max_x) f_zero f_zero ].

(** Room A: two free cells side by side, two headings per cell, a sensor
    that sees all around up to one cell. *)
Definition two_cells : Mat := mkMat 1 2 [[Some 255; Some 255]].

Definition run_two_cells (path : list Pose2D) : exec Result :=
  run 300 two_cells path f_one (mkPoint 0 0) (mkPoint2d d_zero d_zero) 1 PI
      (bounds 1) footprint (mkVec2f f_one f_zero)
      (D.lit 32 1) d_zero d_one 2.

(** Room A again, with a plateau length that 201 iterations cannot reach. *)
Definition run_two_cells_long (path : list Pose2D) : exec Result :=
  run 300 two_cells path f_one (mkPoint 0 0) (mkPoint2d d_zero d_zero) 1 PI
      (bounds 1) footprint (mkVec2f f_one f_zero)
      (D.lit 32 1) d_zero d_one 1000.

(** Room B: one free cell, a sensor that cannot see nearer than half a metre. *)
Definition one_cell : Mat := mkMat 1 1 [[Some 255]].

Definition run_one_cell (path : list Pose2D) : exec Result :=
  run 300 one_cell path f_one (mkPoint 0 0) (mkPoint2d d_zero d_zero) 1 PI
      (bounds 0) footprint (mkVec2f f_one f_zero)
      (D.lit 32 1) (D.lit 5 1) (D.of_Z 2) 2.

(** Room C: no free cell. *)
Definition no_cell : Mat := mkMat 1 2 [[Some 0; Some 0]].

Definition run_no_cell (path : list Pose2D) : exec Result :=
  run 300 no_cell path f_one (mkPoint 0 0) (mkPoint2d d_zero d_zero) 1 PI
      (bounds 1) footprint (mkVec2f f_one f_zero)
      (D.lit 32 1) d_zero d_one 2.

(** what the runs leave behind *)
Definition no_result : Result :=
  mkResult [] [] [] (Mat_new 0 0) (initial_state 0) (Mat_new 0 0) (mkQSprob [] [] []) [].

Definition result_of (e : exec Result) : Result :=
  match e with Ret r => r | _ => no_result end.

Definition two_cells_result : Result := Eval vm_compute in result_of (run_two_cells []).
Definition one_cell_result : Result := Eval vm_compute in result_of (run_one_cell []).
Definition no_cell_result : Result := Eval vm_compute in result_of (run_no_cell []).

Definition two_cells_V : Mat := Eval vm_compute in res_V two_cells_result.

(** the state of the loop in room A after its first iteration *)
Definition two_cells_state1 : LoopState :=
  Eval vm_compute in
    match iteration exp pow QSopt_solution two_cells_V 2 (initial_state 4) with
    | Ret st => st
    | _ => initial_state 4
    end.

End Scenario.

(** * Properties *)

(** ** Floating-point facts *)

Lemma feq_fle (x y : spec_float) : feq x y = true -> fle x y = true.
Proof.
  unfold feq, fle, SFeqb, SFleb.
  destruct (SFcompare x y) as [[]|]; congruence.
Qed.

Lemma sub_self_zero_or_nan prec emax (x : spec_float) :
  zero_or_nan (SFsub prec emax x x).
Proof.
  destruct x as [[]|[]| |s m e]; simpl; try exact I.
  rewrite Z.sub_diag. exact I.
Qed.

Lemma round_zero_or_nan_F (x : spec_float) : zero_or_nan x -> zero_or_nan (F.round x).
Proof. destruct x; simpl; tauto. Qed.

Lemma mul_zero_or_nan_r prec emax (x y : spec_float) :
  zero_or_nan y -> zero_or_nan (SFmul prec emax x y).
Proof. destruct x, y; simpl; tauto. Qed.

Lemma mul_zero_or_nan_l prec emax (x y : spec_float) :
  zero_or_nan x -> zero_or_nan (SFmul prec emax x y).
Proof. destruct x, y; simpl; tauto. Qed.

Lemma mul_zero_or_nan_both prec emax (x y : spec_float) :
  zero_or_nan x -> zero_or_nan y -> zero_or_nan (SFmul prec emax x y).
Proof. destruct x, y; simpl; tauto. Qed.

Lemma add_zero_or_nan prec emax (x y : spec_float) :
  zero_or_nan x -> zero_or_nan y -> zero_or_nan (SFadd prec emax x y).
Proof. destruct x as [[]| | |], y as [[]| | |]; simpl; tauto. Qed.

Lemma sqrt_zero_or_nan prec emax (x : spec_float) :
  zero_or_nan x -> zero_or_nan (SFsqrt prec emax x).
Proof. destruct x; simpl; tauto. Qed.

Lemma div_zero_or_nan prec emax (x y : spec_float) :
  zero_or_nan x -> zero_or_nan y -> SFdiv prec emax x y = S754_nan.
Proof. destruct x, y; simpl; tauto. Qed.

Lemma clamp_quotient_nan : clamp_quotient S754_nan = S754_nan.
Proof. reflexivity. Qed.

Lemma pose_to_neighbor_same_cell (center : Point) (theta : double) :
  let p2n := pose_to_neighbor
               (mkPose2D (D.of_Z (pt_x center)) (D.of_Z (pt_y center)) theta) center in
  zero_or_nan (v0 p2n) /\ zero_or_nan (v1 p2n).
Proof.
  simpl. split; apply round_zero_or_nan_F, sub_self_zero_or_nan.
Qed.

Lemma quotient_of_zero_vector (s0 s1 : bool) (p2n : Vec2f) :
  quotient_of (mkVec2f (S754_zero s0) (S754_zero s1)) p2n = S754_nan.
Proof.
  unfold quotient_of, vec_norm, vec_dot. cbn [v0 v1].
  apply div_zero_or_nan.
  - apply add_zero_or_nan; apply mul_zero_or_nan_l; exact I.
  - apply mul_zero_or_nan_l, sqrt_zero_or_nan, add_zero_or_nan;
      apply mul_zero_or_nan_l; exact I.
Qed.

(** C9, evaluated on the code: the source divides [dot] by [abs] without a
    special case.  For a candidate pose and the cell it stands on, whatever
    the heading and the rotated middle-point vector, and for a rotated
    middle-point vector that is zero, whatever the cell, the division is a
    division of a zero by a zero: the quotient is NaN, the two clamping
    branches let it through, and NaN is what [std::acos] receives. *)
Theorem zero_norm_division_yields_nan (middlepoint_vector : Vec2f) (center : Point)
    (theta : double) (s0 s1 : bool) (p2n : Vec2f) :
  let pose := mkPose2D (D.of_Z (pt_x center)) (D.of_Z (pt_y center)) theta in
  quotient_of middlepoint_vector (pose_to_neighbor pose center) = S754_nan /\
  clamp_quotient (quotient_of middlepoint_vector (pose_to_neighbor pose center)) = S754_nan /\
  quotient_of (mkVec2f (S754_zero s0) (S754_zero s1)) p2n = S754_nan /\
  clamp_quotient (quotient_of (mkVec2f (S754_zero s0) (S754_zero s1)) p2n) = S754_nan.
Proof.
  intros pose.
  destruct (pose_to_neighbor_same_cell center theta) as [H0 H1].
  fold pose in H0, H1.
  assert (Hq : quotient_of middlepoint_vector (pose_to_neighbor pose center) = S754_nan).
  { unfold quotient_of, vec_norm, vec_dot.
    apply div_zero_or_nan.
    - apply add_zero_or_nan; apply mul_zero_or_nan_r; assumption.
    - apply mul_zero_or_nan_r, sqrt_zero_or_nan, add_zero_or_nan;
        apply mul_zero_or_nan_both; assumption. }
  split; [exact Hq|]. split; [rewrite Hq; apply clamp_quotient_nan|].
  rewrite quotient_of_zero_vector. split; [reflexivity|apply clamp_quotient_nan].
Qed.

(** What follows in room B when the smallest radius is 0: the cell passes the
    range gate at distance 0, the angle is NaN, [angle <= max_fow_angle] is
    false, and the pose is recorded as not seeing the cell it stands on. *)
Lemma own_cell_takes_the_angle_branch :
  check_neighbor Scenario.acos Scenario.pointPolygonTest Scenario.LineIterator
    Scenario.one_cell Scenario.f_one (D.lit 32 1) d_zero (D.of_Z 2) []
    (mkVec2f Scenario.f_one Scenario.f_zero) (mkPose2D d_zero d_zero d_zero) (mkPoint 0 0)
  = Ret AngleTooBig.
Proof. vm_compute. reflexivity. Qed.

(** ** The gates of the visibility test *)

Section GateFacts.
Variable std_acos : float -> float.
Variable pointPolygonTest : list Point -> Point -> double.
Variable LineIterator : Mat -> Point -> Point -> list Point.
Variable room_map : Mat.
Variable map_resolution : float.
Variable max_fow_angle smallest_robot_to_fow_distance largest_robot_to_fow_distance : double.

Local Abbreviation check := (check_neighbor std_acos pointPolygonTest LineIterator room_map
  map_resolution max_fow_angle smallest_robot_to_fow_distance largest_robot_to_fow_distance).

Lemma check_neighbor_out_of_range fow mv pose neighbor :
  check fow mv pose neighbor = Ret OutOfRange ->
  range_gate (D.round (vec_norm (pose_to_neighbor pose neighbor)))
    smallest_robot_to_fow_distance largest_robot_to_fow_distance map_resolution = false.
Proof.
  unfold check_neighbor.
  destruct (range_gate _ _ _ _); [|reflexivity].
  destruct (angle_gate _ _); [|discriminate].
  destruct (fge _ _); [|discriminate].
  destruct (to_int (pose_x pose)); simpl; try discriminate.
  destruct (to_int (pose_y pose)); simpl; try discriminate.
  destruct (line_hits_obstacle _ _ _) as [[]| |]; simpl; discriminate.
Qed.

Lemma check_neighbor_angle_too_big fow mv pose neighbor :
  check fow mv pose neighbor = Ret AngleTooBig ->
  angle_gate (angle_of std_acos mv (pose_to_neighbor pose neighbor)) max_fow_angle = false.
Proof.
  unfold check_neighbor.
  destruct (range_gate _ _ _ _); [|discriminate].
  destruct (angle_gate _ _); [|reflexivity].
  destruct (fge _ _); [|discriminate].
  destruct (to_int (pose_x pose)); simpl; try discriminate.
  destruct (to_int (pose_y pose)); simpl; try discriminate.
  destruct (line_hits_obstacle _ _ _) as [[]| |]; simpl; discriminate.
Qed.

(** C8: both gates include their boundary, each on its own.  For a cell
    whose distance to the pose equals the largest radius in pixels,
    [largest_robot_to_fow_distance/map_resolution], the comparison
    [distance <= largest/map_resolution] is true; when the distance is not
    below the smallest radius either, the cell passes the range gate and the
    test does not take the out-of-range branch.  For a cell whose angle
    equals [max_fow_angle], at whatever distance, the comparison
    [angle <= max_fow_angle] is true and the test does not take the angle
    branch. *)
Theorem gates_include_their_boundary fow mv pose neighbor :
  let p2n := pose_to_neighbor pose neighbor in
  let distance := D.round (vec_norm p2n) in
  let angle := angle_of std_acos mv p2n in
  (feq distance (D.div largest_robot_to_fow_distance (D.round map_resolution)) = true ->
   fle distance (D.div largest_robot_to_fow_distance (D.round map_resolution)) = true /\
   (fge distance (D.div smallest_robot_to_fow_distance (D.round map_resolution)) = true ->
    range_gate distance smallest_robot_to_fow_distance
      largest_robot_to_fow_distance map_resolution = true /\
    check fow mv pose neighbor <> Ret OutOfRange)) /\
  (feq (D.round angle) max_fow_angle = true ->
   angle_gate angle max_fow_angle = true /\
   check fow mv pose neighbor <> Ret AngleTooBig).
Proof.
  intros p2n distance angle. split.
  - intros Hmax. split; [apply feq_fle, Hmax|].
    intros Hmin.
    assert (Hrange : range_gate distance smallest_robot_to_fow_distance
                       largest_robot_to_fow_distance map_resolution = true).
    { unfold range_gate. rewrite Hmin, (feq_fle _ _ Hmax). reflexivity. }
    split; [exact Hrange|].
    intros Hb. apply check_neighbor_out_of_range in Hb.
    fold p2n distance in Hb. congruence.
  - intros Hangle.
    assert (Hgate : angle_gate angle max_fow_angle = true).
    { unfold angle_gate. apply feq_fle, Hangle. }
    split; [exact Hgate|].
    intros Hb. apply check_neighbor_angle_too_big in Hb.
    fold p2n angle in Hb. congruence.
Qed.

End GateFacts.

(** The pose at cell (0,0) with heading [PI] and the neighbouring cell (1,0):
    the distance is exactly the largest radius 1.0, and the angle is exactly
    the half-angle when that is binary32 pi.  With the largest radius 2.0
    the cell is inside the range, not on its border, and the angle gate
    passes all the same. *)
Lemma gates_include_their_boundary_witness :
  let pose := mkPose2D d_zero d_zero Scenario.PI in
  let mv := mkVec2f (F.of_Z (-1)) Scenario.f_zero in
  let check := check_neighbor Scenario.acos Scenario.pointPolygonTest Scenario.LineIterator
                 Scenario.two_cells Scenario.f_one (D.round Scenario.float_pi) d_zero d_one
                 [] mv pose (mkPoint 1 0) in
  let check_inside :=
    check_neighbor Scenario.acos Scenario.pointPolygonTest Scenario.LineIterator
      Scenario.two_cells Scenario.f_one (D.round Scenario.float_pi) d_zero (D.of_Z 2)
      [] mv pose (mkPoint 1 0) in
  fle (D.round (vec_norm (pose_to_neighbor pose (mkPoint 1 0))))
      (D.div d_one (D.round Scenario.f_one)) = true /\
  (range_gate (D.round (vec_norm (pose_to_neighbor pose (mkPoint 1 0))))
     d_zero d_one Scenario.f_one = true /\
   check <> Ret OutOfRange) /\
  (angle_gate (angle_of Scenario.acos mv (pose_to_neighbor pose (mkPoint 1 0)))
     (D.round Scenario.float_pi) = true /\
   check <> Ret AngleTooBig) /\
  feq (D.round (vec_norm (pose_to_neighbor pose (mkPoint 1 0))))
      (D.div (D.of_Z 2) (D.round Scenario.f_one)) = false /\
  check_inside <> Ret AngleTooBig.
Proof.
  destruct (gates_include_their_boundary Scenario.acos Scenario.pointPolygonTest
              Scenario.LineIterator Scenario.two_cells Scenario.f_one
              (D.round Scenario.float_pi) d_zero d_one []
              (mkVec2f (F.of_Z (-1)) Scenario.f_zero)
              (mkPose2D d_zero d_zero Scenario.PI) (mkPoint 1 0))
    as (Hdistance & Hangle).
  destruct (gates_include_their_boundary Scenario.acos Scenario.pointPolygonTest
              Scenario.LineIterator Scenario.two_cells Scenario.f_one
              (D.round Scenario.float_pi) d_zero (D.of_Z 2) []
              (mkVec2f (F.of_Z (-1)) Scenario.f_zero)
              (mkPose2D d_zero d_zero Scenario.PI) (mkPoint 1 0))
    as (_ & Hinside).
  destruct Hdistance as (Hupper & Hrange); [vm_compute; reflexivity|].
  split; [exact Hupper|].
  split; [apply Hrange; vm_compute; reflexivity|].
  split; [apply Hangle; vm_compute; reflexivity|].
  split; [vm_compute; reflexivity|].
  apply Hinside. vm_compute. reflexivity.
Defined.

(** ** The outcome monad *)

Lemma bind_Ret_inv {A B} (m : exec A) (f : A -> exec B) (b : B) :
  m ≫= f = Ret b -> exists a, m = Ret a /\ f a = Ret b.
Proof. destruct m; simpl; intros H; try discriminate. eauto. Qed.

Ltac exec_inv H :=
  let a := fresh "a" in
  let Ha := fresh "H" a in
  apply bind_Ret_inv in H; destruct H as (a & Ha & H).

Tactic Notation "exec_split" hyp(H) "as" ident(a) ident(Ha) :=
  apply bind_Ret_inv in H; destruct H as (a & Ha & H).

(** ** Matrices *)

Lemma Mat_new_wf rows cols : mat_wf (Mat_new rows cols).
Proof.
  split; simpl.
  - apply length_replicate.
  - apply Forall_replicate, length_replicate.
Qed.

Lemma mat_set_wf M r c v : mat_wf M -> mat_wf (mat_set M r c v).
Proof.
  intros [Hrows Hcols]. split; simpl.
  - rewrite length_alter. exact Hrows.
  - apply Forall_lookup. intros i row Hrow.
    destruct (decide (r = i)) as [->|Hne].
    + rewrite list_lookup_alter_eq in Hrow.
      destruct (mat_data M !! i) as [row0|] eqn:Hrow0; simplify_eq/=.
      rewrite length_insert. eapply Forall_lookup_1 in Hcols; eauto.
    + rewrite list_lookup_alter_ne in Hrow by done.
      eapply Forall_lookup_1 in Hcols; eauto.
Qed.

Lemma mat_get_set_eq M r c v :
  mat_wf M -> (r < mat_rows M)%nat -> (c < mat_cols M)%nat ->
  mat_get (mat_set M r c v) r c = Some v.
Proof.
  intros [Hrows Hcols] Hr Hc. unfold mat_get, mat_set. simpl.
  rewrite list_lookup_alter_eq.
  destruct (lookup_lt_is_Some_2 (mat_data M) r) as [row Hrow]; [lia|].
  rewrite Hrow. simpl.
  rewrite list_lookup_insert_eq; [reflexivity|].
  eapply Forall_lookup_1 in Hcols; eauto. lia.
Qed.

Lemma mat_get_set_ne M r c v r' c' :
  (r <> r' \/ c <> c') -> mat_get (mat_set M r c v) r' c' = mat_get M r' c'.
Proof.
  intros Hne. unfold mat_get, mat_set. simpl.
  destruct (decide (r = r')) as [->|Hr].
  - rewrite list_lookup_alter_eq.
    destruct (mat_data M !! r') as [row|]; simpl; [|reflexivity].
    rewrite list_lookup_insert_ne by (destruct Hne; congruence). reflexivity.
  - rewrite list_lookup_alter_ne by done. reflexivity.
Qed.

Lemma written_value_binary b : written_value b = 0 \/ written_value b = 1.
Proof. destruct b; simpl; auto. Qed.

(** ** The visibility matrix after the building loops *)

Section BuildFacts.
Variable std_sin std_cos : double -> double.
Variable std_acos : float -> float.
Variable pointPolygonTest : list Point -> Point -> double.
Variable LineIterator : Mat -> Point -> Point -> list Point.
Variable room_map : Mat.
Variable map_resolution : float.
Variable max_fow_angle smallest_robot_to_fow_distance largest_robot_to_fow_distance : double.
Variable map_origin : Point2d.
Variable footprint : list Point32.
Variable robot_to_fow_middlepoint_vector : Vec2f.

Local Abbreviation check := (check_neighbor std_acos pointPolygonTest LineIterator room_map
  map_resolution max_fow_angle smallest_robot_to_fow_distance largest_robot_to_fow_distance).
Local Abbreviation cells_loop := (check_cells std_acos pointPolygonTest LineIterator room_map
  map_resolution max_fow_angle smallest_robot_to_fow_distance largest_robot_to_fow_distance).
Local Abbreviation poses_loop := (check_poses std_sin std_cos std_acos pointPolygonTest
  LineIterator room_map map_resolution max_fow_angle smallest_robot_to_fow_distance
  largest_robot_to_fow_distance map_origin footprint robot_to_fow_middlepoint_vector).
Local Abbreviation fow_of := (transformed_fow_points_of std_sin std_cos room_map
  map_resolution map_origin footprint).
Local Abbreviation middlepoint_of :=
  (transformed_middlepoint_of std_sin std_cos robot_to_fow_middlepoint_vector).

(** One pass over the cells writes column [j] in the rows [i ..] and
    nothing else. *)
Lemma check_cells_spec fow mv pose j neighbors :
  forall i V V',
    mat_wf V ->
    cells_loop fow mv pose j neighbors i V = Ret V' ->
    mat_wf V' /\ mat_rows V' = mat_rows V /\ mat_cols V' = mat_cols V /\
    (forall r c, (c <> j \/ r < i \/ i + length neighbors <= r)%nat ->
                 mat_get V' r c = mat_get V r c) /\
    (forall k neighbor, neighbors !! k = Some neighbor ->
       (i + k < mat_rows V)%nat -> (j < mat_cols V)%nat ->
       exists b, check fow mv pose neighbor = Ret b /\
                 mat_get V' (i + k) j = Some (written_value b)).
Proof.
  induction neighbors as [|neighbor rest IH]; intros i V V' Hwf Hrun; simpl in Hrun.
  - injection Hrun as <-.
    split; [exact Hwf|]. split; [reflexivity|]. split; [reflexivity|].
    split; [reflexivity|].
    intros k nb Hk. rewrite lookup_nil in Hk. discriminate.
  - exec_inv Hrun. rename a into b.
    apply IH in Hrun; [|by apply mat_set_wf].
    destruct Hrun as (Hwf' & Hr & Hc & Hother & Hwritten).
    simpl in Hr, Hc.
    split; [exact Hwf'|]. split; [exact Hr|]. split; [exact Hc|]. split.
    + intros r c Hrc. simpl in Hrc.
      rewrite Hother by lia.
      apply mat_get_set_ne. lia.
    + intros k nb Hk Hik Hj. destruct k as [|k]; simpl in Hk.
      * injection Hk as <-. exists b. split; [exact Ha|].
        rewrite Nat.add_0_r, Hother by lia.
        apply mat_get_set_eq; [assumption|lia|lia].
      * destruct (Hwritten k nb Hk) as (b' & Hb' & Hget); [simpl; lia|simpl; lia|].
        exists b'. split; [exact Hb'|].
        replace (i + S k)%nat with (S i + k)%nat by lia. exact Hget.
Qed.

Lemma check_cells_other fow mv pose j neighbors :
  forall i V V',
    cells_loop fow mv pose j neighbors i V = Ret V' ->
    forall r c, c <> j -> mat_get V' r c = mat_get V r c.
Proof.
  induction neighbors as [|neighbor rest IH]; intros i V V' Hrun r c Hc; simpl in Hrun.
  - injection Hrun as <-. reflexivity.
  - exec_inv Hrun. rewrite (IH _ _ _ Hrun) by exact Hc.
    apply mat_get_set_ne. right. congruence.
Qed.

Lemma check_poses_other cell_centers poses :
  forall j V V',
    poses_loop cell_centers poses j V = Ret V' ->
    forall r c, (c < j)%nat -> mat_get V' r c = mat_get V r c.
Proof.
  induction poses as [|pose rest IH]; intros j V V' Hrun r c Hc; simpl in Hrun.
  - injection Hrun as <-. reflexivity.
  - exec_inv Hrun. exec_inv Hrun.
    rewrite (IH _ _ _ Hrun) by lia.
    eapply check_cells_other; [eassumption|lia].
Qed.

(** The passes over all poses write every column [j ..]. *)
Lemma check_poses_spec cell_centers poses :
  forall j V V',
    mat_wf V ->
    poses_loop cell_centers poses j V = Ret V' ->
    mat_wf V' /\ mat_rows V' = mat_rows V /\ mat_cols V' = mat_cols V /\
    (forall k pose i neighbor,
       poses !! k = Some pose -> cell_centers !! i = Some neighbor ->
       (i < mat_rows V)%nat -> (j + k < mat_cols V)%nat ->
       exists fow b,
         fow_of pose = Ret fow /\
         check fow (middlepoint_of pose) pose neighbor = Ret b /\
         mat_get V' i (j + k) = Some (written_value b)).
Proof.
  induction poses as [|pose rest IH]; intros j V V' Hwf Hrun; simpl in Hrun.
  - injection Hrun as <-.
    split; [exact Hwf|]. split; [reflexivity|]. split; [reflexivity|].
    intros k p i nb Hk. rewrite lookup_nil in Hk. discriminate.
  - exec_inv Hrun. rename a into fow. exec_inv Hrun. rename a into V1.
    apply check_cells_spec in Ha0; [|exact Hwf].
    destruct Ha0 as (Hwf1 & Hr1 & Hc1 & Hother1 & Hwritten1).
    pose proof (check_poses_other _ _ _ _ _ Hrun) as Hkept.
    apply IH in Hrun; [|exact Hwf1].
    destruct Hrun as (Hwf' & Hr & Hc & Hwritten).
    split; [exact Hwf'|]. split; [congruence|]. split; [congruence|].
    intros k p i nb Hk Hi Hir Hjk. destruct k as [|k]; simpl in Hk.
    + injection Hk as <-.
      destruct (Hwritten1 i nb Hi) as (b & Hb & Hget); [simpl; lia|lia|].
      exists fow, b. split; [exact Ha|]. split; [exact Hb|].
      rewrite Nat.add_0_r, Hkept by lia. exact Hget.
    + destruct (Hwritten k p i nb Hk Hi) as (fow' & b & Hfow & Hb & Hget); [lia|lia|].
      exists fow', b. split; [exact Hfow|]. split; [exact Hb|].
      replace (j + S k)%nat with (S j + k)%nat by lia. exact Hget.
Qed.

(** The matrix that the building loops leave behind. *)
Lemma build_V_spec (cell_centers : list Point)
    (candidate_sensing_poses : list Pose2D) (V : Mat) :
  build_V std_sin std_cos std_acos pointPolygonTest LineIterator room_map map_resolution
    max_fow_angle smallest_robot_to_fow_distance largest_robot_to_fow_distance
    map_origin footprint robot_to_fow_middlepoint_vector
    cell_centers candidate_sensing_poses = Ret V ->
  mat_wf V /\
  mat_rows V = length cell_centers /\
  mat_cols V = length candidate_sensing_poses /\
  forall i j neighbor pose,
    cell_centers !! i = Some neighbor ->
    candidate_sensing_poses !! j = Some pose ->
    exists fow b,
      fow_of pose = Ret fow /\
      check fow (middlepoint_of pose) pose neighbor = Ret b /\
      mat_get V i j = Some (written_value b) /\
      (written_value b = 0 \/ written_value b = 1).
Proof.
  unfold build_V. intros Hrun.
  apply check_poses_spec in Hrun; [|apply Mat_new_wf].
  destruct Hrun as (Hwf & Hr & Hc & Hwritten). simpl in Hr, Hc.
  split; [exact Hwf|]. split; [exact Hr|]. split; [exact Hc|].
  intros i j neighbor pose Hi Hj.
  destruct (Hwritten j pose i neighbor Hj Hi) as (fow & b & Hfow & Hb & Hget).
  - simpl. eapply lookup_lt_Some, Hi.
  - simpl. eapply lookup_lt_Some, Hj.
  - exists fow, b. repeat split; try assumption. apply written_value_binary.
Qed.

Lemma build_V_written cell_centers candidate_sensing_poses V :
  build_V std_sin std_cos std_acos pointPolygonTest LineIterator room_map map_resolution
    max_fow_angle smallest_robot_to_fow_distance largest_robot_to_fow_distance
    map_origin footprint robot_to_fow_middlepoint_vector
    cell_centers candidate_sensing_poses = Ret V ->
  mat_written V.
Proof.
  intros H. apply build_V_spec in H as (_ & Hrows & Hcols & Hall).
  intros r c Hr Hc.
  destruct (lookup_lt_is_Some_2 cell_centers r) as [neighbor Hn]; [lia|].
  destruct (lookup_lt_is_Some_2 candidate_sensing_poses c) as [pose Hp]; [lia|].
  destruct (Hall r c neighbor pose Hn Hp) as (fow & b & _ & _ & Hget & _).
  rewrite Hget. eauto.
Qed.

(** C10: when the building loops have run, the matrix has one row per cell
    and one column per candidate pose, and every entry [V[i][j]] was written
    by the branch that the test of cell [i] from pose [j] took: its value is
    that branch's value, 0 or 1.  No entry is left unwritten. *)
Theorem build_V_writes_every_entry (cell_centers : list Point)
    (candidate_sensing_poses : list Pose2D) (V : Mat) :
  build_V std_sin std_cos std_acos pointPolygonTest LineIterator room_map map_resolution
    max_fow_angle smallest_robot_to_fow_distance largest_robot_to_fow_distance
    map_origin footprint robot_to_fow_middlepoint_vector
    cell_centers candidate_sensing_poses = Ret V ->
  mat_rows V = length cell_centers /\
  mat_cols V = length candidate_sensing_poses /\
  length (mat_data V) = length cell_centers /\
  Forall (fun row => length row = length candidate_sensing_poses) (mat_data V) /\
  forall i j neighbor pose,
    cell_centers !! i = Some neighbor ->
    candidate_sensing_poses !! j = Some pose ->
    exists fow b,
      fow_of pose = Ret fow /\
      check fow (middlepoint_of pose) pose neighbor = Ret b /\
      mat_get V i j = Some (written_value b) /\
      (written_value b = 0 \/ written_value b = 1).
Proof.
  intros H. apply build_V_spec in H as ([Hlen Hall] & Hrows & Hcols & Hentries).
  split; [exact Hrows|]. split; [exact Hcols|].
  split; [congruence|]. split; [rewrite <- Hcols; exact Hall|]. exact Hentries.
Qed.

End BuildFacts.

(** ** The terminal condition of the re-weighting loop *)

Lemma wrap_uint_small z : 0 <= z < 2 ^ 32 -> wrap_uint z = z.
Proof. intros H. unfold wrap_uint. apply Z.mod_small. exact H. Qed.

Lemma wrap_uint_small_add n k : (wrap_uint (n + 1) + k) mod 2 ^ 32 = (n + (1 + k)) mod 2 ^ 32.
Proof.
  unfold wrap_uint. rewrite Z.add_mod_idemp_l by lia. f_equal. lia.
Qed.

Lemma count_last_measures_spec back rev_measures :
  forall remaining acc,
    0 <= acc -> acc + Z.of_nat remaining < 2 ^ 32 ->
    let n := count_last_measures rev_measures remaining back acc in
    acc <= n <= acc + Z.of_nat remaining /\
    (n = acc + Z.of_nat remaining <->
     (remaining <= length rev_measures)%nat /\
     Forall (fun m => m = back) (take remaining rev_measures)).
Proof.
  induction rev_measures as [|m rest IH]; intros remaining acc Hacc Hbound; simpl.
  - destruct remaining; simpl.
    + split; [lia|]. split; [intros _; split; [lia|constructor]|lia].
    + split; [lia|]. split; [lia|]. intros [Hlen _]. lia.
  - destruct remaining as [|remaining]; simpl.
    + split; [lia|]. split; [intros _; split; [lia|constructor]|lia].
    + destruct (Z.eqb_spec m back) as [->|Hne].
      * rewrite wrap_uint_small by lia.
        destruct (IH remaining (acc + 1)) as [Hrange Hiff]; [lia|lia|].
        split; [lia|].
        rewrite Forall_cons. split.
        -- intros Heq. destruct Hiff as [Hi _].
           destruct Hi as [Hl Hf]; [lia|]. split; [lia|]. split; [reflexivity|exact Hf].
        -- intros [Hl [_ Hf]]. destruct Hiff as [_ Hi].
           rewrite Hi; [lia|]. split; [lia|exact Hf].
      * destruct (IH remaining acc) as [Hrange Hiff]; [lia|lia|].
        split; [lia|].
        rewrite Forall_cons. split; [lia|]. intros [_ [Heq _]]. congruence.
Qed.

(** The flag is raised exactly when there are at least
    [sparsity_check_range] measures and the last [sparsity_check_range] of
    them all equal the most recent one. *)
Lemma terminal_condition_iff (measures : list Z) (sparsity_check_range : Z) :
  0 <= sparsity_check_range < 2 ^ 32 ->
  terminal_condition measures sparsity_check_range false = true <->
  sparsity_check_range <= Z.of_nat (length measures) /\
  Forall (fun m => m = default 0 (last measures))
         (take (Z.to_nat sparsity_check_range) (reverse measures)).
Proof.
  intros Hrange. unfold terminal_condition.
  destruct (Z.geb_spec (Z.of_nat (length measures)) sparsity_check_range) as [Hge|Hlt].
  - destruct (count_last_measures_spec (default 0 (last measures)) (reverse measures)
                (Z.to_nat sparsity_check_range) 0) as [_ Hiff]; [lia|lia|].
    rewrite Z2Nat.id in Hiff by lia. simpl in Hiff.
    destruct (Z.eqb_spec
                (count_last_measures (reverse measures) (Z.to_nat sparsity_check_range)
                   (default 0 (last measures)) 0) sparsity_check_range) as [Heq|Hne].
    + split; [intros _|reflexivity]. split; [lia|]. apply Hiff. exact Heq.
    + split; [discriminate|]. intros [_ Hall]. exfalso. apply Hne, Hiff.
      split; [|exact Hall]. rewrite length_reverse. lia.
  - split; [discriminate|]. intros [Hle _]. lia.
Qed.

(** On a history that ends in [j] equal measures [v] after a different
    one, the flag is raised exactly when the plateau has reached the
    required length. *)
Lemma terminal_condition_plateau (pre : list Z) (v : Z) (j : nat) (sparsity_check_range : Z) :
  0 <= sparsity_check_range < 2 ^ 32 ->
  last pre <> Some v -> (0 < j)%nat ->
  terminal_condition (pre ++ replicate j v) sparsity_check_range false = true <->
  sparsity_check_range <= Z.of_nat j.
Proof.
  intros Hrange Hpre Hj.
  rewrite terminal_condition_iff by exact Hrange.
  assert (Hlast : last (pre ++ replicate j v) = Some v).
  { destruct j as [|j]; [lia|].
    replace (S j) with (j + 1)%nat by lia.
    rewrite replicate_add, app_assoc. simpl. apply last_snoc. }
  rewrite Hlast, reverse_app, reverse_replicate, length_app, length_replicate. simpl.
  split.
  - intros [Hlen Hall].
    destruct (Z.le_gt_cases sparsity_check_range (Z.of_nat j)) as [Hle|Hgt]; [exact Hle|].
    exfalso.
    destruct pre as [|p pre _] using rev_ind; [simpl in Hlen; lia|].
    rewrite last_snoc in Hpre. rewrite reverse_snoc in Hall.
    assert (Hlook : take (Z.to_nat sparsity_check_range) (replicate j v ++ p :: reverse pre)
                      !! j = Some p).
    { rewrite lookup_take_lt by lia.
      rewrite lookup_app_r by (rewrite length_replicate; lia).
      rewrite length_replicate, Nat.sub_diag. reflexivity. }
    eapply Forall_lookup_1 in Hall; [|exact Hlook]. simpl in Hall. congruence.
  - intros Hle. split; [lia|].
    rewrite take_app_le by (rewrite length_replicate; lia).
    rewrite take_replicate. apply Forall_replicate. reflexivity.
Qed.

(** ** The problem handed to the solver *)

Lemma mapM_exec_Ret {A B} (f : A -> exec B) (l : list A) :
  (forall a, a ∈ l -> exists b, f a = Ret b) ->
  exists bs, mapM f l = Ret bs /\ length bs = length l.
Proof.
  induction l as [|a l IH]; intros Hf; simpl.
  - exists []. split; reflexivity.
  - destruct (Hf a) as [b Hb]; [left|].
    destruct IH as (bs & Hbs & Hlen); [intros a' Ha'; apply Hf; right; exact Ha'|].
    exists (b :: bs). rewrite Hb. simpl. rewrite Hbs. simpl.
    split; [reflexivity|]. rewrite Hlen. reflexivity.
Qed.

Lemma objective_columns_unweighted n :
  objective_columns n None = Ret (replicate n (mkQScol d_one d_zero d_one)).
Proof.
  unfold objective_columns. generalize 0%nat.
  induction n as [|n IH]; intros start; simpl; [reflexivity|].
  rewrite IH. reflexivity.
Qed.

Lemma objective_columns_weighted n w :
  (n <= length w)%nat ->
  exists cols, objective_columns n (Some w) = Ret cols /\ length cols = n.
Proof.
  intros Hlen. unfold objective_columns.
  destruct (mapM_exec_Ret
              (fun variable => obj ← of_option (w !! variable); Ret (mkQScol obj d_zero d_one))
              (seq 0 n)) as (cols & Hcols & Hl).
  - intros variable Hin. apply elem_of_seq in Hin.
    destruct (lookup_lt_is_Some_2 w variable) as [obj Hobj]; [lia|].
    rewrite Hobj. simpl. eauto.
  - exists cols. split; [exact Hcols|]. rewrite Hl. apply length_seq.
Qed.

Lemma variable_indices_of_Ret V row cols :
  mat_written V -> (row < mat_rows V)%nat ->
  (forall col, col ∈ cols -> (col < mat_cols V)%nat) ->
  exists indices, variable_indices_of V row cols = Ret indices.
Proof.
  intros Hw Hrow. induction cols as [|col cols IH]; intros Hcols; simpl.
  - eauto.
  - destruct (Hw row col) as [v Hv]; [exact Hrow|apply Hcols; left|].
    destruct IH as [indices Hind]; [intros c Hc; apply Hcols; right; exact Hc|].
    rewrite Hv, Hind. simpl. eauto.
Qed.

Lemma covering_rows_Ret V :
  mat_written V ->
  exists rows, mapM (covering_row V) (seq 0 (mat_rows V)) = Ret rows.
Proof.
  intros Hw.
  destruct (mapM_exec_Ret (covering_row V) (seq 0 (mat_rows V))) as (rows & Hrows & _).
  - intros row Hin. apply elem_of_seq in Hin. unfold covering_row.
    destruct (variable_indices_of_Ret V row (seq 0 (mat_cols V))) as [ind Hind];
      [exact Hw|lia|intros col Hc; apply elem_of_seq in Hc; lia|].
    rewrite Hind. simpl. eauto.
  - eauto.
Qed.

Lemma build_problem_weighted_Ret n V w :
  mat_written V -> (n <= length w)%nat ->
  exists problem, build_problem n V (Some w) = Ret problem /\
                  length (qs_cols problem) = n /\ qs_integer problem = [].
Proof.
  intros Hw Hlen. unfold build_problem.
  destruct (objective_columns_weighted n w Hlen) as (cols & Hcols & Hl).
  destruct (covering_rows_Ret V Hw) as [rows Hrows].
  rewrite Hcols. simpl. rewrite Hrows. simpl.
  eexists. split; [reflexivity|]. simpl. split; [exact Hl|reflexivity].
Qed.


Lemma store_solution_Ret (result : nat -> double) (variables : list nat) :
  forall C0,
    (forall variable, variable ∈ variables -> (variable < length C0)%nat) ->
    exists C', store_solution Ret result variables C0 = Ret C' /\ length C' = length C0.
Proof.
  induction variables as [|variable rest IH]; intros C0 Hin; simpl.
  - eauto.
  - destruct (decide (variable < length C0)%nat) as [Hlt|Hge].
    + destruct (IH (<[variable := result variable]> C0)) as (C' & HC' & Hlen).
      * intros v Hv. rewrite length_insert. apply Hin. right. exact Hv.
      * exists C'. split; [exact HC'|]. rewrite Hlen. apply length_insert.
    + exfalso. apply Hge, Hin. left.
Qed.

Lemma store_solution_length {T} (convert : double -> exec T) (result : nat -> double)
    (variables : list nat) :
  forall C0 C', store_solution convert result variables C0 = Ret C' -> length C' = length C0.
Proof.
  induction variables as [|variable rest IH]; intros C0 C' H; simpl in H.
  - injection H as <-. reflexivity.
  - exec_inv H. destruct (decide (variable < length C0)%nat); [|discriminate].
    apply IH in H. rewrite H. apply length_insert.
Qed.

Lemma update_weights_Ret epsilon (C0 : list double) (weights : list nat) :
  forall W0,
    (forall weight, weight ∈ weights -> (weight < length C0)%nat) ->
    exists W', update_weights epsilon C0 weights W0 = Ret W' /\ length W' = length W0.
Proof.
  induction weights as [|weight rest IH]; intros W0 Hin; cbn [update_weights].
  - eauto.
  - destruct (lookup_lt_is_Some_2 C0 weight) as [c Hc]; [apply Hin; left|].
    rewrite Hc. cbn [of_option mbind exec_bind].
    destruct (IH (<[weight := D.div epsilon (D.add epsilon c)]> W0)) as (W' & HW' & Hlen).
    + intros w Hw. apply Hin. right. exact Hw.
    + exists W'. split; [exact HW'|]. rewrite Hlen. apply length_insert.
Qed.

Lemma update_weights_length epsilon (C0 : list double) (weights : list nat) :
  forall W0 W', update_weights epsilon C0 weights W0 = Ret W' -> length W' = length W0.
Proof.
  induction weights as [|weight rest IH]; intros W0 W' H; simpl in H.
  - injection H as <-. reflexivity.
  - exec_inv H. apply IH in H. rewrite H. apply length_insert.
Qed.

(** ** The epsilon term *)

(** The exponent is an [int]: the fractional part of [1 + (k-1)*0.1] is cut. *)
Lemma exponent_of_spec (k : Z) :
  1 <= k <= 201 -> exponent_of k = Ret (1 + (k - 1) / 10).
Proof.
  intros Hk.
  assert (Hall : forallb exponent_checked (seq 1 201) = true) by (vm_compute; reflexivity).
  rewrite forallb_forall in Hall.
  specialize (Hall (Z.to_nat k)).
  unfold exponent_checked in Hall. rewrite Z2Nat.id in Hall by lia.
  destruct (exponent_of k) as [exponent| |].
  - f_equal. apply Z.eqb_eq, Hall, in_seq. lia.
  - discriminate Hall. apply in_seq. lia.
  - discriminate Hall. apply in_seq. lia.
Qed.

(** ** One iteration and the whole loop *)

Section LoopFacts.
Variable std_exp : double -> double.
Variable std_pow : double -> double -> double.
Variable QSopt_solution : QSprob -> nat -> double.

Local Abbreviation step := (iteration std_exp std_pow QSopt_solution).
Local Abbreviation loop := (relaxation_loop std_exp std_pow QSopt_solution).
Local Abbreviation epsilon_at := (weight_epsilon_at std_exp std_pow).

Lemma weight_epsilon_at_spec (k : Z) :
  1 <= k <= 201 ->
  epsilon_at k = Ret (epsilon_of std_exp std_pow (1 + (k - 1) / 10)).
Proof.
  intros Hk. unfold weight_epsilon_at. rewrite exponent_of_spec by exact Hk. reflexivity.
Qed.

(** What one iteration leaves behind, whenever it returns. *)
Lemma iteration_inv V sparsity_check_range st st' :
  step V sparsity_check_range st = Ret st' ->
  number_of_iterations st' = wrap_uint (number_of_iterations st + 1) /\
  length (C st') = length (C st) /\
  length (W st') = length (W st) /\
  sparsity_measures st' = sparsity_measures st ++ [l0_eps_measure (C st')] /\
  sparsity_converged st' =
    terminal_condition (sparsity_measures st') sparsity_check_range (sparsity_converged st) /\
  epsilon_at (number_of_iterations st') = Ret (weight_epsilon st').
Proof.
  unfold iteration, solveOptimizationProblem. intros H.
  exec_split H as pc Hpc. destruct pc as [problem C'].
  exec_split Hpc as problem' Hproblem. exec_split Hpc as C'' HC''.
  injection Hpc as <- <-.
  exec_split H as epsilon Hepsilon. exec_split H as W' HW'.
  injection H as <-. simpl.
  apply store_solution_length in HC''. apply update_weights_length in HW'.
  repeat split; try assumption; reflexivity.
Qed.

(** One iteration returns when every entry of V has been written and the
    vectors C and W have one length. *)
Lemma iteration_Ret V sparsity_check_range st :
  mat_written V ->
  length (C st) = length (W st) ->
  0 <= number_of_iterations st <= 200 ->
  exists st', step V sparsity_check_range st = Ret st' /\
              number_of_iterations st' = number_of_iterations st + 1.
Proof.
  intros Hw Hlen Hn. unfold iteration, solveOptimizationProblem.
  destruct (build_problem_weighted_Ret (length (C st)) V (W st) Hw) as (problem & Hp & Hcols & _);
    [lia|].
  rewrite Hp. cbn [mbind exec_bind]. rewrite Hcols.
  destruct (store_solution_Ret (QSopt_solution problem) (seq 0 (length (C st))) (C st))
    as (C' & HC' & HlenC).
  { intros v Hv. apply elem_of_seq in Hv. lia. }
  rewrite HC'. cbn [mbind exec_bind].
  rewrite wrap_uint_small by lia.
  rewrite weight_epsilon_at_spec by lia. cbn [mbind exec_bind].
  destruct (update_weights_Ret
              (epsilon_of std_exp std_pow (1 + (number_of_iterations st + 1 - 1) / 10))
              C' (seq 0 (length (W st))) (W st)) as (W' & HW' & HlenW).
  { intros v Hv. apply elem_of_seq in Hv. lia. }
  rewrite HW'. cbn [mbind exec_bind].
  eexists. split; [reflexivity|]. reflexivity.
Qed.

(** The loop returns within 201 iterations: the test
    [number_of_iterations <= 200] is made after the increment, so the
    iteration numbered 201 still runs. *)
Lemma relaxation_loop_spec V sparsity_check_range :
  mat_written V ->
  forall fuel st,
    length (C st) = length (W st) ->
    0 <= number_of_iterations st <= 200 ->
    sparsity_converged st = false ->
    (201 - Z.to_nat (number_of_iterations st) <= fuel)%nat ->
    exists st',
      loop fuel V sparsity_check_range st = Ret st' /\
      number_of_iterations st < number_of_iterations st' <= 201 /\
      length (C st') = length (C st) /\
      length (W st') = length (W st) /\
      Z.of_nat (length (sparsity_measures st')) =
        Z.of_nat (length (sparsity_measures st))
        + (number_of_iterations st' - number_of_iterations st) /\
      sparsity_converged st' =
        terminal_condition (sparsity_measures st') sparsity_check_range false /\
      (sparsity_converged st' = true \/ number_of_iterations st' = 201).
Proof.
  intros Hw. induction fuel as [|fuel IH]; intros st Hlen Hn Hflag Hfuel; [lia|].
  cbn [relaxation_loop].
  destruct (iteration_Ret V sparsity_check_range st Hw Hlen Hn) as (st1 & Hst1 & Hn1).
  rewrite Hst1. cbn [mbind exec_bind].
  destruct (iteration_inv _ _ _ _ Hst1) as (_ & HlenC & HlenW & Hmeasures & Hconv & _).
  rewrite Hflag in Hconv.
  assert (Hlen_measures : Z.of_nat (length (sparsity_measures st1)) =
                          Z.of_nat (length (sparsity_measures st)) + 1).
  { rewrite Hmeasures, length_app. simpl. lia. }
  destruct (sparsity_converged st1) eqn:Hflag1; cbn [negb andb].
  - exists st1. repeat split; try lia; try congruence. left. exact Hflag1.
  - destruct (Z.leb_spec (number_of_iterations st1) 200) as [Hle|Hgt].
    + destruct (IH st1) as (st' & Hst' & Hn' & HC' & HW' & Hm' & Hconv' & Hend);
        [lia|lia|exact Hflag1|lia|].
      exists st'. repeat split; try lia; try congruence.
    + exists st1. repeat split; try lia; try congruence.
Qed.

End LoopFacts.

(** ** The reduction *)

Lemma mat_writtenb_spec M : mat_writtenb M = true -> mat_written M.
Proof.
  unfold mat_writtenb, mat_written. intros H r c Hr Hc.
  rewrite forallb_forall in H. specialize (H r). rewrite forallb_forall in H.
  eapply bool_decide_eq_true_1, H; apply in_seq; lia.
Qed.

Lemma filter_iff_in {A} (P Q : A -> Prop) `{!forall x, Decision (P x)}
    `{!forall x, Decision (Q x)} (l : list A) :
  (forall x, x ∈ l -> P x <-> Q x) -> filter P l = filter Q l.
Proof.
  induction l as [|a l IH]; intros Hiff; [reflexivity|].
  assert (Hl : filter P l = filter Q l).
  { apply IH. intros x Hx. apply Hiff. right. exact Hx. }
  destruct (decide (P a)) as [HP|HP].
  - rewrite !filter_cons_True; [rewrite Hl; reflexivity|apply Hiff; [left|exact HP]|exact HP].
  - rewrite !filter_cons_False; [exact Hl| |exact HP].
    intros HQ. apply HP, Hiff; [left|exact HQ].
Qed.

Lemma zero_positions_spec (results : list double) :
  forall idx, zero_positions idx results =
    filter (fun j => feq (default S754_nan (results !! (j - idx)%nat)) d_zero = true)
           (seq idx (length results)).
Proof.
  induction results as [|result rest IH]; intros idx; [reflexivity|].
  cbn [zero_positions length seq].
  assert (Hrest : zero_positions (S idx) rest =
                  filter (fun j => feq (default S754_nan ((result :: rest) !! (j - idx)%nat))
                                     d_zero = true)
                         (seq (S idx) (length rest))).
  { rewrite IH. apply filter_iff_in. intros j Hj. apply elem_of_seq in Hj.
    replace (j - idx)%nat with (S (j - S idx)) by lia. reflexivity. }
  destruct (feq result d_zero) eqn:E.
  - rewrite filter_cons_True by (rewrite Nat.sub_diag; exact E).
    rewrite Hrest. reflexivity.
  - rewrite filter_cons_False by (rewrite Nat.sub_diag; simpl; congruence).
    exact Hrest.
Qed.

Lemma zero_positions_kept (C0 : list double) :
  zero_positions 0 C0 = spec_kept_columns C0.
Proof.
  rewrite zero_positions_spec. unfold spec_kept_columns.
  apply list_filter_iff. intros j. rewrite Nat.sub_0_r. reflexivity.
Qed.

Lemma zero_positions_bounds (results : list double) :
  forall idx j, j ∈ zero_positions idx results -> (idx <= j < idx + length results)%nat.
Proof.
  intros idx j. rewrite zero_positions_spec. intros Hj.
  apply list_elem_of_filter in Hj as [_ Hj]. apply elem_of_seq in Hj. lia.
Qed.

Lemma zip_with_app_assoc {A B} (f g : B -> list A) (X : list (list A)) :
  forall L, zip_with app (zip_with app X (map f L)) (map g L) =
            zip_with app X (map (fun r => f r ++ g r) L).
Proof.
  induction X as [|x X IH]; intros [|l L]; simpl; try reflexivity.
  rewrite IH, app_assoc. reflexivity.
Qed.

Lemma zip_with_app_nil {A B} (X : list (list A)) (L : list B) :
  zip_with app X (map (fun _ => []) L) = take (length L) X.
Proof.
  revert L. induction X as [|x X IH]; intros [|l L]; simpl; try reflexivity.
  rewrite IH, app_nil_r. reflexivity.
Qed.

Lemma length_select_columns js row : (length (select_columns js row) <= length js)%nat.
Proof.
  induction js as [|j js IH]; simpl; [lia|].
  rewrite length_app, length_take. lia.
Qed.

Lemma select_columns_lookup js row k j :
  (forall j', j' ∈ js -> (j' < length row)%nat) ->
  js !! k = Some j ->
  select_columns js row !! k = row !! j.
Proof.
  revert k. induction js as [|j0 js IH]; intros k Hin Hk; [rewrite lookup_nil in Hk; discriminate|].
  assert (Hone : exists x, take 1 (drop j0 row) = [x] /\ row !! j0 = Some x).
  { destruct (lookup_lt_is_Some_2 row j0) as [x Hx]; [apply Hin; left|].
    exists x. split; [|exact Hx].
    rewrite (drop_S _ _ _ Hx). reflexivity. }
  destruct Hone as (x & Hone & Hx).
  simpl. rewrite Hone. destruct k as [|k]; simpl in *.
  - injection Hk as <-. symmetry. exact Hx.
  - apply IH; [|exact Hk]. intros j' Hj'. apply Hin. right. exact Hj'.
Qed.

Section ReduceFacts.
Variable V : Mat.
Hypothesis V_wf : mat_wf V.

(** The loop over [C] appends to [V_reduced] the columns of V at the
    positions of the zeros, in their order. *)
Lemma reduce_columns_spec (results : list double) :
  forall idx n V_reduced,
    (idx + length results <= mat_cols V)%nat ->
    mat_rows V_reduced = mat_rows V ->
    0 <= n < 2 ^ 32 ->
    length (mat_data V_reduced) = mat_rows V ->
    reduce_columns V results idx n V_reduced =
      Ret ((n + Z.of_nat (length (zero_positions idx results))) mod 2 ^ 32,
           mkMat (mat_rows V)
                 (mat_cols V_reduced + length (zero_positions idx results))
                 (zip_with app (mat_data V_reduced)
                    (map (select_columns (zero_positions idx results)) (mat_data V)))).
Proof.
  destruct V_wf as [HlenV _].
  induction results as [|result rest IH]; intros idx n V_reduced Hidx Hrows Hn Hdata;
    cbn [reduce_columns zero_positions].
  - cbn [length]. rewrite Z.add_0_r, Nat.add_0_r, Z.mod_small by lia.
    change (select_columns []) with (fun _ : list (option Z) => @nil (option Z)).
    rewrite zip_with_app_nil, take_ge by lia.
    rewrite <- Hrows. destruct V_reduced; reflexivity.
  - cbn [length] in Hidx. destruct (feq result d_zero).
    + unfold Mat_col, Mat_hconcat.
      rewrite decide_True by lia. cbn [mbind exec_bind mat_rows mat_cols mat_data].
      rewrite decide_True by exact Hrows. cbn [mbind exec_bind].
      rewrite IH; cbn [mat_rows mat_cols mat_data].
      * f_equal. f_equal.
        -- cbn [length]. rewrite wrap_uint_small_add. f_equal. lia.
        -- f_equal; [cbn [length]; lia|].
           apply zip_with_app_assoc.
      * lia.
      * exact Hrows.
      * apply Z.mod_pos_bound. lia.
      * rewrite length_zip_with_l_eq; [exact Hdata|].
        rewrite length_map. lia.
    + apply IH; try assumption. lia.
Qed.

Lemma zip_with_app_replicate {B} (x : option Z) (g : B -> list (option Z)) (L : list B) :
  zip_with app (replicate (length L) [x]) (map g L) = map (fun r => x :: g r) L.
Proof. induction L as [|l L IH]; simpl; [reflexivity|]. rewrite IH. reflexivity. Qed.

(** The reduced matrix: the rows of V, each cut down to the kept columns. *)
Lemma reduce_problem_spec (C0 : list double) :
  (length C0 <= mat_cols V)%nat ->
  reduce_problem V C0 (mat_rows V) =
    Ret (Z.of_nat (length (spec_kept_columns C0)) mod 2 ^ 32,
         mkMat (mat_rows V) (length (spec_kept_columns C0))
               (map (select_columns (spec_kept_columns C0)) (mat_data V))).
Proof.
  intros Hlen. unfold reduce_problem.
  rewrite reduce_columns_spec; cbn [Mat_new mat_rows mat_cols mat_data];
    [|lia|reflexivity|lia|apply length_replicate].
  cbn [mbind exec_bind]. unfold Mat_colRange. cbn [mat_rows mat_cols mat_data].
  rewrite decide_True by lia. cbn [mbind exec_bind].
  rewrite zero_positions_kept.
  destruct V_wf as [HlenV _].
  replace (replicate (mat_rows V) (replicate 1 None))
    with (replicate (length (mat_data V)) [@None Z]) by (rewrite HlenV; reflexivity).
  rewrite zip_with_app_replicate, map_map.
  f_equal. f_equal. f_equal; [lia|].
  apply map_ext. intros row. cbn [drop].
  replace (1 + length (spec_kept_columns C0) - 1)%nat
    with (length (spec_kept_columns C0)) by lia.
  apply take_ge, length_select_columns.
Qed.

Lemma reduced_entry (C0 : list double) (i k j : nat) :
  (length C0 <= mat_cols V)%nat ->
  spec_kept_columns C0 !! k = Some j ->
  mat_get (mkMat (mat_rows V) (length (spec_kept_columns C0))
                 (map (select_columns (spec_kept_columns C0)) (mat_data V))) i k =
  mat_get V i j.
Proof.
  intros Hlen Hk. unfold mat_get. cbn [mat_data].
  rewrite list_lookup_fmap.
  destruct (mat_data V !! i) as [row|] eqn:Hrow; [|reflexivity].
  cbn. f_equal. apply select_columns_lookup; [|exact Hk].
  intros j' Hj'. rewrite <- zero_positions_kept in Hj'.
  apply zero_positions_bounds in Hj'.
  destruct V_wf as [_ Hcols]. eapply Forall_lookup_1 in Hcols; [|exact Hrow]. lia.
Qed.

End ReduceFacts.




(** ** The whole function *)

Section PlannerFacts.
Variable PI : double.
Variable std_sin std_cos : double -> double.
Variable std_acos : float -> float.
Variable std_exp : double -> double.
Variable std_pow : double -> double -> double.
Variable pointPolygonTest : list Point -> Point -> double.
Variable LineIterator : Mat -> Point -> Point -> list Point.
Variable QSopt_solution : QSprob -> nat -> double.

Local Abbreviation plan := (getExplorationPath PI std_sin std_cos std_acos std_exp std_pow
  pointPolygonTest LineIterator QSopt_solution).
Local Abbreviation loop := (relaxation_loop std_exp std_pow QSopt_solution).
Local Abbreviation build := (build_V std_sin std_cos std_acos pointPolygonTest LineIterator).
Local Abbreviation solve_int := (solveOptimizationProblem QSopt_solution to_int).

Lemma relaxation_loop_length V sparsity_check_range :
  forall fuel st st',
    loop fuel V sparsity_check_range st = Ret st' -> length (C st') = length (C st).
Proof.
  induction fuel as [|fuel IH]; intros st st' H; cbn [relaxation_loop] in H; [discriminate|].
  exec_split H as st1 Hst1.
  apply iteration_inv in Hst1 as (_ & HlenC & _).
  destruct (negb (sparsity_converged st1) && (number_of_iterations st1 <=? 200)).
  - apply IH in H. congruence.
  - injection H as <-. exact HlenC.
Qed.

Section Run.
Variable fuel : nat.
Variable room_map : Mat.
Variable path : list Pose2D.
Variable map_resolution : float.
Variable starting_position : Point.
Variable map_origin : Point2d.
Variable cell_size : Z.
Variable delta_theta : double.
Variable room_min_max_coordinates : list Point32.
Variable footprint : list Point32.
Variable robot_to_fow_middlepoint_vector : Vec2f.
Variable max_fow_angle smallest_robot_to_fow_distance largest_robot_to_fow_distance : double.
Variable sparsity_check_range : Z.

Local Abbreviation run := (plan fuel room_map path map_resolution starting_position
  map_origin cell_size delta_theta room_min_max_coordinates footprint
  robot_to_fow_middlepoint_vector max_fow_angle smallest_robot_to_fow_distance
  largest_robot_to_fow_distance sparsity_check_range).

(** The stages of a run that returns. *)
Lemma getExplorationPath_inv (r : Result) :
  run = Ret r ->
  exists cell_centers poses V st n V_reduced problem C_reduced,
    get_cell_centers fuel room_map cell_size room_min_max_coordinates = Ret cell_centers /\
    get_candidate_poses PI fuel delta_theta cell_centers [] = Ret poses /\
    build room_map map_resolution max_fow_angle smallest_robot_to_fow_distance
      largest_robot_to_fow_distance map_origin footprint robot_to_fow_middlepoint_vector
      cell_centers poses = Ret V /\
    loop fuel V sparsity_check_range (initial_state (length poses)) = Ret st /\
    reduce_problem V (C st) (length cell_centers) = Ret (n, V_reduced) /\
    solve_int (replicate (Z.to_nat n) 0) V_reduced None = Ret (problem, C_reduced) /\
    r = mkResult path cell_centers poses V st V_reduced problem C_reduced.
Proof.
  unfold getExplorationPath. intros H.
  exec_split H as cell_centers Hcells. exec_split H as poses Hposes.
  exec_split H as V HV. exec_split H as st Hst.
  exec_split H as nV Hreduce. destruct nV as [n V_reduced].
  exec_split H as pC Hsolve. destruct pC as [problem C_reduced].
  injection H as <-.
  exists cell_centers, poses, V, st, n, V_reduced, problem, C_reduced.
  repeat split; assumption.
Qed.

(** C1, evaluated on the code: the function never assigns to [path].
    Whenever a run returns, the caller's vector is what it was before the
    call, whatever the final integer solution selects. *)
Theorem getExplorationPath_leaves_path_untouched (r : Result) :
  run = Ret r -> res_path r = path.
Proof.
  intros H. apply getExplorationPath_inv in H.
  destruct H as (cell_centers & poses & V & st & n & V_reduced & problem & C_reduced & H).
  destruct H as (_ & _ & _ & _ & _ & _ & ->). reflexivity.
Qed.


(** C5, as the code has it: a room without a free cell is no failure.  The
    function goes on with no cell and no candidate pose, builds an empty
    matrix, runs the re-weighting loop on the empty problem (at least once,
    at most 201 times), reduces and solves the empty problem, and returns
    with an empty selection and [path] as it was. *)
Theorem empty_region_is_planned_not_refused :
  get_cell_centers fuel room_map cell_size room_min_max_coordinates = Ret [] ->
  (201 <= fuel)%nat ->
  exists r,
    run = Ret r /\
    res_cell_centers r = [] /\
    res_candidate_sensing_poses r = [] /\
    res_V r = Mat_new 0 0 /\
    1 <= number_of_iterations (res_loop r) <= 201 /\
    C (res_loop r) = [] /\
    qs_cols (res_final_problem r) = [] /\
    qs_rows (res_final_problem r) = [] /\
    res_C_reduced r = [] /\
    res_path r = path.
Proof.
  intros Hcells Hfuel. unfold getExplorationPath.
  rewrite Hcells. cbn [mbind exec_bind get_candidate_poses length].
  unfold build_V. cbn [check_poses length mbind exec_bind].
  destruct (relaxation_loop_spec std_exp std_pow QSopt_solution (Mat_new 0 0)
              sparsity_check_range) with (fuel := fuel) (st := initial_state 0)
    as (st & Hst & Hn & HlenC & _); try reflexivity.
  - intros r c Hr. cbn in Hr. lia.
  - cbn. lia.
  - cbn. lia.
  - rewrite Hst. cbn [mbind exec_bind].
    assert (HC : C st = []) by (apply nil_length_inv; rewrite HlenC; reflexivity).
    rewrite HC. cbn.
    eexists. split; [reflexivity|]. cbn.
    repeat split; try reflexivity; try assumption; cbn in Hn; lia.
Qed.

End Run.
End PlannerFacts.

(** ** The claims on the re-weighting loop *)

Section LoopClaims.
Variable std_exp : double -> double.
Variable std_pow : double -> double -> double.
Variable QSopt_solution : QSprob -> nat -> double.

Local Abbreviation step := (iteration std_exp std_pow QSopt_solution).
Local Abbreviation loop := (relaxation_loop std_exp std_pow QSopt_solution).
Local Abbreviation epsilon_at := (weight_epsilon_at std_exp std_pow).

(** C2, evaluated on the code: with a plateau length that cannot be reached
    (here 1000) the loop is left by its counter alone, and it is left after
    201 iterations, not 200: the counter is incremented before the body and
    tested with [<= 200] after it. *)
Theorem relaxation_loop_runs_201_iterations (V : Mat) (number_of_candidates extra : nat) :
  mat_written V ->
  exists st,
    loop (201 + extra) V 1000 (initial_state number_of_candidates) = Ret st /\
    number_of_iterations st = 201 /\
    length (sparsity_measures st) = 201%nat /\
    sparsity_converged st = false.
Proof.
  intros Hw.
  destruct (relaxation_loop_spec std_exp std_pow QSopt_solution V 1000 Hw
              (201 + extra) (initial_state number_of_candidates))
    as (st & Hst & Hn & _ & _ & Hmeasures & Hconv & Hend).
  - unfold initial_state. cbn [C W]. rewrite !length_replicate. reflexivity.
  - cbn. lia.
  - reflexivity.
  - cbn. lia.
  - cbn in Hn, Hmeasures.
    assert (Hflag : sparsity_converged st = false).
    { rewrite Hconv. unfold terminal_condition.
      destruct (Z.geb_spec (Z.of_nat (length (sparsity_measures st))) 1000); [lia|reflexivity]. }
    exists st. split; [exact Hst|].
    destruct Hend as [Hend|Hend]; [congruence|].
    split; [exact Hend|]. split; [lia|exact Hflag].
Qed.

(** C3, as the code has it: the exponent is stored in an [int], so the
    epsilon term of iteration k (1 <= k <= 201) is [1/(e-1)] raised to the
    integer [1 + (k-1)/10] (integer division); it stays the same from one
    iteration to the next unless k is a multiple of 10. *)
Theorem weight_epsilon_has_an_integer_exponent (k : Z) :
  1 <= k <= 201 ->
  epsilon_at k =
    Ret (std_pow (D.div (D.of_Z 1) (D.sub (std_exp d_one) (D.of_Z 1)))
                 (D.of_Z (1 + (k - 1) / 10))) /\
  (k < 201 -> k mod 10 <> 0 -> epsilon_at (k + 1) = epsilon_at k).
Proof.
  intros Hk. split.
  - rewrite weight_epsilon_at_spec by exact Hk. reflexivity.
  - intros Hlt Hmod.
    rewrite !weight_epsilon_at_spec by lia.
    replace ((k + 1 - 1) / 10) with ((k - 1) / 10); [reflexivity|].
    pose proof (Z.div_mod (k - 1) 10 ltac:(lia)) as H1.
    pose proof (Z.mod_pos_bound (k - 1) 10 ltac:(lia)) as H2.
    pose proof (Z.div_mod k 10 ltac:(lia)) as H3.
    pose proof (Z.mod_pos_bound k 10 ltac:(lia)) as H4.
    replace (k + 1 - 1) with k by lia.
    nia.
Qed.

(** C6: an iteration that starts with the flag down raises it exactly when
    at least [sparsity_check_range] measures exist and the last
    [sparsity_check_range] of them all equal the most recent one.  In
    particular, when the history ends in a plateau of [j] equal measures
    (after a different measure, or after none), the flag is raised exactly
    when [j] has reached [sparsity_check_range]: at the iteration that
    completes the plateau and at none before. *)
Theorem convergence_is_declared_on_a_complete_plateau (V : Mat)
    (sparsity_check_range : Z) (st st' : LoopState) :
  0 <= sparsity_check_range < 2 ^ 32 ->
  sparsity_converged st = false ->
  step V sparsity_check_range st = Ret st' ->
  (sparsity_converged st' = true <->
   sparsity_check_range <= Z.of_nat (length (sparsity_measures st')) /\
   Forall (fun m => m = default 0 (last (sparsity_measures st')))
          (take (Z.to_nat sparsity_check_range) (reverse (sparsity_measures st')))) /\
  (forall pre v j,
     sparsity_measures st' = pre ++ replicate j v ->
     last pre <> Some v -> (0 < j)%nat ->
     (sparsity_converged st' = true <-> sparsity_check_range <= Z.of_nat j)).
Proof.
  intros Hrange Hflag Hstep.
  apply iteration_inv in Hstep as (_ & _ & _ & _ & Hconv & _).
  rewrite Hflag in Hconv. rewrite Hconv. split.
  - apply terminal_condition_iff. exact Hrange.
  - intros pre v j -> Hpre Hj. apply terminal_condition_plateau; assumption.
Qed.

(** X1: the loop always ends.  When every entry of V has been written, it
    returns after at least one and at most 201 iterations, either with the
    flag raised or with the counter at 201. *)
Theorem relaxation_loop_returns_within_201_iterations (V : Mat)
    (sparsity_check_range : Z) (number_of_candidates fuel : nat) :
  mat_written V ->
  (201 <= fuel)%nat ->
  exists st,
    loop fuel V sparsity_check_range (initial_state number_of_candidates) = Ret st /\
    1 <= number_of_iterations st <= 201 /\
    Z.of_nat (length (sparsity_measures st)) = number_of_iterations st /\
    length (C st) = number_of_candidates /\
    (sparsity_converged st = true \/ number_of_iterations st = 201).
Proof.
  intros Hw Hfuel.
  destruct (relaxation_loop_spec std_exp std_pow QSopt_solution V sparsity_check_range Hw
              fuel (initial_state number_of_candidates))
    as (st & Hst & Hn & HlenC & _ & Hmeasures & _ & Hend).
  - unfold initial_state. cbn [C W]. rewrite !length_replicate. reflexivity.
  - cbn. lia.
  - reflexivity.
  - cbn. lia.
  - cbn in Hn, Hmeasures. exists st.
    split; [exact Hst|]. split; [lia|]. split; [lia|].
    split; [|exact Hend].
    rewrite HlenC. unfold initial_state. cbn [C]. rewrite !length_replicate. reflexivity.
Qed.

End LoopClaims.

(** ** The theorems at concrete inputs *)

(** Room A: the final integer solution selects two poses, and [path] is
    still empty. *)
Lemma getExplorationPath_leaves_path_untouched_witness :
  Scenario.run_two_cells [] = Ret Scenario.two_cells_result /\
  res_C_reduced Scenario.two_cells_result = [1; 1] /\
  res_path Scenario.two_cells_result = [].
Proof.
  assert (Hrun : Scenario.run_two_cells [] = Ret Scenario.two_cells_result)
    by (vm_compute; reflexivity).
  split; [exact Hrun|]. split; [reflexivity|].
  exact (getExplorationPath_leaves_path_untouched Scenario.PI Scenario.sin Scenario.cos
           Scenario.acos Scenario.exp Scenario.pow Scenario.pointPolygonTest
           Scenario.LineIterator Scenario.QSopt_solution 300 Scenario.two_cells []
           Scenario.f_one (mkPoint 0 0) (mkPoint2d d_zero d_zero) 1 Scenario.PI
           (Scenario.bounds 1) Scenario.footprint (mkVec2f Scenario.f_one Scenario.f_zero)
           (D.lit 32 1) d_zero d_one 2 Scenario.two_cells_result Hrun).
Defined.

(** Room A with [sparsity_check_range = 1000]. *)
Lemma relaxation_loop_runs_201_iterations_witness :
  exists st,
    relaxation_loop Scenario.exp Scenario.pow Scenario.QSopt_solution (201 + 0)
      Scenario.two_cells_V 1000 (initial_state 4) = Ret st /\
    number_of_iterations st = 201 /\
    length (sparsity_measures st) = 201%nat /\
    sparsity_converged st = false.
Proof.
  apply (relaxation_loop_runs_201_iterations Scenario.exp Scenario.pow
           Scenario.QSopt_solution Scenario.two_cells_V 4 0).
  apply mat_writtenb_spec. vm_compute. reflexivity.
Defined.

(** The whole function on room A with [sparsity_check_range = 1000]: the
    solver is called 201 times by the loop. *)
Lemma two_cells_run_makes_201_iterations :
  number_of_iterations (res_loop (Scenario.result_of (Scenario.run_two_cells_long []))) = 201 /\
  length (sparsity_measures (res_loop (Scenario.result_of (Scenario.run_two_cells_long []))))
  = 201%nat.
Proof. vm_compute. split; reflexivity. Qed.

(** C3 fails on the code: the exponents of iterations 1 and 2 are both the
    integer 1, so both iterations use the same epsilon, and the exponent of
    iteration 2 is not the specification's 1.1. *)
Lemma exponent_is_truncated_counterexample :
  exponent_of 1 = Ret 1 /\
  exponent_of 2 = Ret 1 /\
  feq (D.of_Z 1) (spec_exponent 2) = false /\
  weight_epsilon_at Scenario.exp Scenario.pow 2 = weight_epsilon_at Scenario.exp Scenario.pow 1.
Proof. vm_compute. repeat split; reflexivity. Qed.

(** iteration 11 is the first one with exponent 2 *)
Lemma weight_epsilon_has_an_integer_exponent_witness :
  weight_epsilon_at Scenario.exp Scenario.pow 11 =
    Ret (Scenario.pow (D.div (D.of_Z 1) (D.sub (Scenario.exp d_one) (D.of_Z 1))) (D.of_Z 2)) /\
  weight_epsilon_at Scenario.exp Scenario.pow 12 = weight_epsilon_at Scenario.exp Scenario.pow 11.
Proof.
  destruct (weight_epsilon_has_an_integer_exponent Scenario.exp Scenario.pow 11) as [H1 H2];
    [lia|].
  split; [exact H1|]. apply H2; [lia|]. vm_compute. discriminate.
Defined.

(** C4, evaluated on the code: in room B the only cell is seen from no
    candidate pose (it is nearer than the smallest radius), its row of V is
    all zero, and the function runs to its end all the same: it hands the
    solver a row without variables and returns. *)
Theorem unobservable_cell_is_not_reported :
  Scenario.run_one_cell [] = Ret Scenario.one_cell_result /\
  res_cell_centers Scenario.one_cell_result = [mkPoint 0 0] /\
  mat_data (res_V Scenario.one_cell_result) = [[Some 0; Some 0]] /\
  map row_indices (qs_rows (res_final_problem Scenario.one_cell_result)) = [[]] /\
  res_C_reduced Scenario.one_cell_result = [0; 0].
Proof. vm_compute. repeat split; reflexivity. Qed.

(** C5 fails on the code: room C has no free cell, and the run returns
    after two iterations of the loop on the empty problem. *)
Lemma empty_region_counterexample :
  Scenario.run_no_cell [] = Ret Scenario.no_cell_result /\
  res_cell_centers Scenario.no_cell_result = [] /\
  number_of_iterations (res_loop Scenario.no_cell_result) = 2 /\
  res_C_reduced Scenario.no_cell_result = [].
Proof. vm_compute. repeat split; reflexivity. Qed.

Lemma empty_region_is_planned_not_refused_witness :
  exists r,
    Scenario.run_no_cell [] = Ret r /\
    res_cell_centers r = [] /\
    res_candidate_sensing_poses r = [] /\
    res_V r = Mat_new 0 0 /\
    1 <= number_of_iterations (res_loop r) <= 201 /\
    C (res_loop r) = [] /\
    qs_cols (res_final_problem r) = [] /\
    qs_rows (res_final_problem r) = [] /\
    res_C_reduced r = [] /\
    res_path r = [].
Proof.
  apply (empty_region_is_planned_not_refused Scenario.PI Scenario.sin Scenario.cos
           Scenario.acos Scenario.exp Scenario.pow Scenario.pointPolygonTest
           Scenario.LineIterator Scenario.QSopt_solution 300 Scenario.no_cell []
           Scenario.f_one (mkPoint 0 0) (mkPoint2d d_zero d_zero) 1 Scenario.PI
           (Scenario.bounds 1) Scenario.footprint (mkVec2f Scenario.f_one Scenario.f_zero)
           (D.lit 32 1) d_zero d_one 2).
  - vm_compute. reflexivity.
  - lia.
Defined.

(** Room A, second iteration, [sparsity_check_range = 2]: the history is
    [2; 2] and the flag is raised. *)
Lemma convergence_is_declared_on_a_complete_plateau_witness :
  let st' := res_loop Scenario.two_cells_result in
  (sparsity_converged st' = true <->
   2 <= Z.of_nat (length (sparsity_measures st')) /\
   Forall (fun m => m = default 0 (last (sparsity_measures st')))
          (take (Z.to_nat 2) (reverse (sparsity_measures st')))) /\
  (forall pre v j,
     sparsity_measures st' = pre ++ replicate j v ->
     last pre <> Some v -> (0 < j)%nat ->
     (sparsity_converged st' = true <-> 2 <= Z.of_nat j)).
Proof.
  apply (convergence_is_declared_on_a_complete_plateau Scenario.exp Scenario.pow
           Scenario.QSopt_solution Scenario.two_cells_V 2 Scenario.two_cells_state1).
  - lia.
  - reflexivity.
  - vm_compute. reflexivity.
Defined.


(** Room A: the matrix of the two cells and four poses. *)
Lemma build_V_writes_every_entry_witness :
  let cell_centers := res_cell_centers Scenario.two_cells_result in
  let poses := res_candidate_sensing_poses Scenario.two_cells_result in
  let V := Scenario.two_cells_V in
  mat_rows V = length cell_centers /\
  mat_cols V = length poses /\
  length (mat_data V) = length cell_centers /\
  Forall (fun row => length row = length poses) (mat_data V) /\
  forall i j neighbor pose,
    cell_centers !! i = Some neighbor ->
    poses !! j = Some pose ->
    exists fow b,
      transformed_fow_points_of Scenario.sin Scenario.cos Scenario.two_cells Scenario.f_one
        (mkPoint2d d_zero d_zero) Scenario.footprint pose = Ret fow /\
      check_neighbor Scenario.acos Scenario.pointPolygonTest Scenario.LineIterator
        Scenario.two_cells Scenario.f_one (D.lit 32 1) d_zero d_one fow
        (transformed_middlepoint_of Scenario.sin Scenario.cos
           (mkVec2f Scenario.f_one Scenario.f_zero) pose) pose neighbor = Ret b /\
      mat_get V i j = Some (written_value b) /\
      (written_value b = 0 \/ written_value b = 1).
Proof.
  apply (build_V_writes_every_entry Scenario.sin Scenario.cos Scenario.acos
           Scenario.pointPolygonTest Scenario.LineIterator Scenario.two_cells
           Scenario.f_one (D.lit 32 1) d_zero d_one (mkPoint2d d_zero d_zero)
           Scenario.footprint (mkVec2f Scenario.f_one Scenario.f_zero)).
  vm_compute. reflexivity.
Defined.

(** Room A with [sparsity_check_range = 2]. *)
Lemma relaxation_loop_returns_within_201_iterations_witness :
  exists st,
    relaxation_loop Scenario.exp Scenario.pow Scenario.QSopt_solution 201
      Scenario.two_cells_V 2 (initial_state 4) = Ret st /\
    1 <= number_of_iterations st <= 201 /\
    Z.of_nat (length (sparsity_measures st)) = number_of_iterations st /\
    length (C st) = 4%nat /\
    (sparsity_converged st = true \/ number_of_iterations st = 201).
Proof.
  apply (relaxation_loop_returns_within_201_iterations Scenario.exp Scenario.pow
           Scenario.QSopt_solution Scenario.two_cells_V 2 4 201).
  - apply mat_writtenb_spec. vm_compute. reflexivity.
  - lia.
Defined.

(** * Further properties of the code *)

(** ** The discretisation *)

Section CellFacts.
Variable room_map : Mat.
Variable cell_size : Z.

(** a cell centre is a pixel of the map with value 255 *)
Local Abbreviation free c :=
  (0 <= pt_x c /\ 0 <= pt_y c /\
   mat_get room_map (Z.to_nat (pt_y c)) (Z.to_nat (pt_x c)) = Some 255).

Lemma mat_at_Ret M r c v :
  mat_at M r c = Ret v -> 0 <= r /\ 0 <= c /\ mat_get M (Z.to_nat r) (Z.to_nat c) = Some v.
Proof.
  unfold mat_at.
  destruct (Z.leb_spec 0 r), (Z.leb_spec 0 c); cbn; try discriminate.
  destruct (mat_get M (Z.to_nat r) (Z.to_nat c)); cbn; [|discriminate].
  intros [= ->]. auto.
Qed.

Lemma cells_of_line_spec max_x y :
  forall fuel x cell_centers res,
    cells_of_line fuel room_map cell_size max_x y x cell_centers = Ret res ->
    exists new, res = cell_centers ++ new /\ Forall (fun c => free c) new.
Proof.
  induction fuel as [|fuel IH]; intros x acc res H; cbn [cells_of_line] in H; [discriminate|].
  destruct (fle (F.of_Z x) max_x).
  - exec_split H as v Hv.
    apply IH in H as (new & -> & Hnew).
    destruct (Z.eqb_spec v 255) as [->|_].
    + exists (mkPoint (wrap_int x) (wrap_int y) :: new).
      rewrite <- app_assoc. split; [reflexivity|].
      constructor; [|exact Hnew].
      apply mat_at_Ret in Hv as (Hy & Hx & Hget). cbn. auto.
    + exists new. split; [reflexivity|exact Hnew].
  - injection H as <-. exists []. rewrite app_nil_r. split; [reflexivity|constructor].
Qed.

Lemma cells_of_lines_spec min_x max_x max_y :
  forall fuel y cell_centers res,
    cells_of_lines fuel room_map cell_size min_x max_x max_y y cell_centers = Ret res ->
    exists new, res = cell_centers ++ new /\ Forall (fun c => free c) new.
Proof.
  induction fuel as [|fuel IH]; intros y acc res H; cbn [cells_of_lines] in H; [discriminate|].
  destruct (fle (F.of_Z y) max_y).
  - exec_split H as x Hx. exec_split H as acc' Hacc'.
    apply cells_of_line_spec in Hacc' as (new1 & -> & Hnew1).
    apply IH in H as (new2 & -> & Hnew2).
    exists (new1 ++ new2). rewrite app_assoc. split; [reflexivity|].
    apply Forall_app. split; assumption.
  - injection H as <-. exists []. rewrite app_nil_r. split; [reflexivity|constructor].
Qed.

(** X2: every cell centre that the discretisation returns is a pixel
    inside the map whose value is 255; no other pixel becomes a cell. *)
Theorem cell_centers_are_free_pixels (fuel : nat) (room_min_max_coordinates : list Point32)
    (cell_centers : list Point) :
  get_cell_centers fuel room_map cell_size room_min_max_coordinates = Ret cell_centers ->
  forall c, c ∈ cell_centers ->
    0 <= pt_x c /\ 0 <= pt_y c /\
    mat_get room_map (Z.to_nat (pt_y c)) (Z.to_nat (pt_x c)) = Some 255.
Proof.
  unfold get_cell_centers. intros H c Hc.
  exec_split H as p0 Hp0. exec_split H as y Hy. exec_split H as p1 Hp1.
  apply cells_of_lines_spec in H as (new & -> & Hnew).
  rewrite Forall_forall in Hnew. apply Hnew. exact Hc.
Qed.

End CellFacts.

Lemma flat_map_product_length {A B C} (f : A -> B -> C) (l : list B) (xs : list A) :
  length (flat_map (fun a => map (f a) l) xs) = (length xs * length l)%nat.
Proof.
  induction xs as [|a xs IH]; cbn [flat_map length]; [reflexivity|].
  rewrite length_app, length_map, IH. lia.
Qed.

Lemma flat_map_product_lookup {A B C} (f : A -> B -> C) (l : list B) (xs : list A) :
  forall i h a b,
    xs !! i = Some a -> l !! h = Some b ->
    flat_map (fun a => map (f a) l) xs !! (i * length l + h)%nat = Some (f a b).
Proof.
  induction xs as [|x xs IH]; intros i h a b Hi Hh; [rewrite lookup_nil in Hi; discriminate|].
  cbn [flat_map]. destruct i as [|i]; cbn in Hi.
  - injection Hi as ->. cbn [Nat.mul Nat.add].
    rewrite lookup_app_l by (rewrite length_map; eapply lookup_lt_Some, Hh).
    rewrite list_lookup_fmap, Hh. reflexivity.
  - rewrite lookup_app_r by (rewrite length_map; lia).
    rewrite length_map.
    replace (S i * length l + h - length l)%nat with (i * length l + h)%nat by lia.
    apply IH; assumption.
Qed.

Section PoseFacts.
Variable PI : double.

Local Abbreviation pose_at c := (mkPose2D (D.of_Z (pt_x c)) (D.of_Z (pt_y c))).
Local Abbreviation full_turn := (D.mul (D.of_Z 2) PI).

Lemma poses_of_center_spec (delta_theta : double) :
  forall fuel center angle poses res,
    poses_of_center PI fuel delta_theta center angle poses = Ret res ->
    exists headings,
      heading_chain PI delta_theta angle headings /\
      forall center' poses',
        poses_of_center PI fuel delta_theta center' angle poses' =
          Ret (poses' ++ map (pose_at center') headings).
Proof.
  induction fuel as [|fuel IH]; intros center angle poses res H;
    cbn [poses_of_center] in H; [discriminate|].
  destruct (flt angle full_turn) eqn:Hlt.
  - apply IH in H as (headings & (Hall & Hfirst & Hstep & Hne) & Hany).
    exists (angle :: headings). split.
    + split; [constructor; assumption|]. split; [intros h [= <-]; reflexivity|].
      split; [|intros _; discriminate].
      intros [|k] h h' Hk Hk'; cbn in Hk, Hk'.
      * injection Hk as <-. apply Hfirst. exact Hk'.
      * eapply Hstep; eassumption.
    + intros center' poses'. cbn [poses_of_center]. rewrite Hlt, Hany.
      rewrite <- app_assoc. reflexivity.
  - exists []. split.
    + split; [constructor|]. split; [intros h Hh; rewrite lookup_nil in Hh; discriminate|].
      split; [intros k h h' Hk; rewrite lookup_nil in Hk; discriminate|].
      intros Habs. congruence.
    + intros center' poses'. cbn [poses_of_center]. rewrite Hlt, app_nil_r. reflexivity.
Qed.

Lemma get_candidate_poses_spec (delta_theta : double) (fuel : nat) (headings : list double) :
  (forall center poses,
     poses_of_center PI fuel delta_theta center d_zero poses =
       Ret (poses ++ map (pose_at center) headings)) ->
  forall cell_centers poses,
    get_candidate_poses PI fuel delta_theta cell_centers poses =
      Ret (poses ++ flat_map (fun c => map (pose_at c) headings) cell_centers).
Proof.
  intros Hany. induction cell_centers as [|c cs IH]; intros poses;
    cbn [get_candidate_poses flat_map].
  - rewrite app_nil_r. reflexivity.
  - rewrite Hany. cbn [mbind exec_bind]. rewrite IH, <- app_assoc. reflexivity.
Qed.

(** X3: the candidate poses are the cell centres in their order, each with
    the same list of headings: the headings start at 0, each is the one
    before plus [delta_theta] (accumulated in floating point), and all are
    below [2.0*PI].  So there are (cells x headings) candidates, and the pose
    of cell [i] with heading number [h] is candidate [i * headings + h]. *)
Theorem candidate_poses_are_cells_times_headings (fuel : nat) (delta_theta : double)
    (c : Point) (cell_centers : list Point) (poses : list Pose2D) :
  get_candidate_poses PI fuel delta_theta (c :: cell_centers) [] = Ret poses ->
  exists headings,
    heading_chain PI delta_theta d_zero headings /\
    poses = flat_map (fun c => map (pose_at c) headings) (c :: cell_centers) /\
    length poses = (length (c :: cell_centers) * length headings)%nat /\
    forall i h center heading,
      (c :: cell_centers) !! i = Some center -> headings !! h = Some heading ->
      poses !! (i * length headings + h)%nat = Some (pose_at center heading).
Proof.
  intros H. pose proof H as Hfirst. cbn [get_candidate_poses] in Hfirst.
  exec_split Hfirst as poses1 Hposes1.
  apply poses_of_center_spec in Hposes1 as (headings & Hchain & Hany).
  rewrite (get_candidate_poses_spec delta_theta fuel headings Hany) in H.
  cbn [app] in H. injection H as <-.
  exists headings. split; [exact Hchain|]. split; [reflexivity|].
  split; [exact (flat_map_product_length (fun c => pose_at c) headings (c :: cell_centers))|].
  intros i h center heading.
  exact (flat_map_product_lookup (fun c => pose_at c) headings (c :: cell_centers)
           i h center heading).
Qed.

(** With [delta_theta = 0] the angle stays 0, below [2.0*PI], and poses are
    added without end. *)
Lemma zero_delta_theta_loops (s : bool) (fuel : nat) (c : Point)
    (cell_centers : list Point) (poses : list Pose2D) :
  flt d_zero full_turn = true ->
  get_candidate_poses PI fuel (S754_zero s) (c :: cell_centers) poses = Diverge.
Proof.
  intros Hlt. cbn [get_candidate_poses].
  assert (Hloop : forall fuel' acc,
             poses_of_center PI fuel' (S754_zero s) c d_zero acc = Diverge).
  { induction fuel' as [|fuel' IH]; intros acc; cbn [poses_of_center]; [reflexivity|].
    rewrite Hlt.
    replace (D.add d_zero (S754_zero s)) with d_zero by (destruct s; reflexivity).
    apply IH. }
  rewrite Hloop. reflexivity.
Qed.

End PoseFacts.

Section DegenerateSteps.
Variable PI : double.
Variable std_sin std_cos : double -> double.
Variable std_acos : float -> float.
Variable std_exp : double -> double.
Variable std_pow : double -> double -> double.
Variable pointPolygonTest : list Point -> Point -> double.
Variable LineIterator : Mat -> Point -> Point -> list Point.
Variable QSopt_solution : QSprob -> nat -> double.

Local Abbreviation plan := (getExplorationPath PI std_sin std_cos std_acos std_exp std_pow
  pointPolygonTest LineIterator QSopt_solution).

Lemma to_size_t_range x z : to_size_t x = Ret z -> 0 <= z < 2 ^ 64.
Proof.
  unfold to_size_t, in_size_t. destruct (ftrunc x) as [z'|]; [|discriminate].
  destruct (Z.leb_spec 0 z'), (Z.ltb_spec z' (2 ^ 64)); cbn; try discriminate.
  intros [= <-]. lia.
Qed.

Lemma zero_cell_size_loops room_map min_x max_x max_y :
  forall fuel y cell_centers res,
    0 <= y < 2 ^ 64 ->
    fle (F.of_Z y) max_y = true ->
    cells_of_lines fuel room_map 0 min_x max_x max_y y cell_centers <> Ret res.
Proof.
  induction fuel as [|fuel IH]; intros y acc res Hy Hle H; cbn [cells_of_lines] in H;
    [discriminate|].
  rewrite Hle in H. exec_split H as x Hx. exec_split H as acc' Hacc'.
  rewrite Z.add_0_r in H. unfold wrap_size_t in H. rewrite Z.mod_small in H by exact Hy.
  exact (IH y acc' res Hy Hle H).
Qed.

(** X4: degenerate steps are not refused.  With [delta_theta = 0] and at
    least one cell the run does not return, whatever the loop budget: the
    angle loop never ends.  With [cell_size = 0] the discretisation returns
    only when the first grid line is already beyond the bounds, and then
    with no cell; otherwise the loop over the lines never advances. *)
Theorem zero_steps_never_return (fuel : nat) (room_map : Mat) (path : list Pose2D)
    (map_resolution : float) (starting_position : Point) (map_origin : Point2d)
    (cell_size : Z) (s : bool) (room_min_max_coordinates : list Point32)
    (footprint : list Point32) (robot_to_fow_middlepoint_vector : Vec2f)
    (max_fow_angle smallest_robot_to_fow_distance largest_robot_to_fow_distance : double)
    (sparsity_check_range : Z) :
  (forall c cell_centers,
     flt d_zero (D.mul (D.of_Z 2) PI) = true ->
     get_cell_centers fuel room_map cell_size room_min_max_coordinates
       = Ret (c :: cell_centers) ->
     plan fuel room_map path map_resolution starting_position map_origin cell_size
       (S754_zero s) room_min_max_coordinates footprint robot_to_fow_middlepoint_vector
       max_fow_angle smallest_robot_to_fow_distance largest_robot_to_fow_distance
       sparsity_check_range = Diverge) /\
  (forall cell_centers,
     get_cell_centers fuel room_map 0 room_min_max_coordinates = Ret cell_centers ->
     cell_centers = []).
Proof.
  split.
  - intros c cell_centers Hlt Hcells. unfold getExplorationPath.
    rewrite Hcells. cbn [mbind exec_bind].
    rewrite zero_delta_theta_loops by exact Hlt. reflexivity.
  - intros cell_centers H. unfold get_cell_centers in H.
    exec_split H as p0 Hp0. exec_split H as y Hy. exec_split H as p1 Hp1.
    apply to_size_t_range in Hy.
    destruct fuel as [|fuel']; cbn [cells_of_lines] in H; [discriminate|].
    destruct (fle (F.of_Z y) (p32_y p1)) eqn:Hle.
    + exfalso.
      apply (zero_cell_size_loops room_map (p32_x p0) (p32_x p1) (p32_y p1)
               (S fuel') y [] cell_centers Hy Hle).
      cbn [cells_of_lines]. rewrite Hle. exact H.
    + injection H as <-. reflexivity.
Qed.

End DegenerateSteps.

(** ** The visibility test *)

Lemma line_hits_obstacle_spec (room_map : Mat) (border_line : list Point) :
  forall hit_obstacle b,
    line_hits_obstacle room_map border_line hit_obstacle = Ret b ->
    exists values,
      Forall2 (fun pos v => mat_at room_map (pt_y pos) (pt_x pos) = Ret v) border_line values /\
      b = hit_obstacle || existsb (fun v => v =? 0) values.
Proof.
  induction border_line as [|pos rest IH]; intros hit b H; cbn [line_hits_obstacle] in H.
  - injection H as <-. exists []. split; [constructor|]. cbn. rewrite orb_false_r. reflexivity.
  - exec_split H as v Hv. apply IH in H as (values & Hall & ->).
    exists (v :: values). split; [constructor; assumption|].
    cbn [existsb]. destruct (v =? 0), hit; reflexivity.
Qed.

Lemma line_hits_obstacle_Ret (room_map : Mat) (border_line : list Point) (values : list Z) :
  Forall2 (fun pos v => mat_at room_map (pt_y pos) (pt_x pos) = Ret v) border_line values ->
  forall hit_obstacle,
    line_hits_obstacle room_map border_line hit_obstacle =
      Ret (hit_obstacle || existsb (fun v => v =? 0) values).
Proof.
  induction 1 as [|pos v rest values Hv _ IH]; intros hit; cbn [line_hits_obstacle existsb].
  - rewrite orb_false_r. reflexivity.
  - rewrite Hv. cbn [mbind exec_bind]. rewrite IH.
    destruct (v =? 0), hit; reflexivity.
Qed.

Section VisibilityFacts.
Variable std_sin std_cos : double -> double.
Variable std_acos : float -> float.
Variable pointPolygonTest : list Point -> Point -> double.
Variable LineIterator : Mat -> Point -> Point -> list Point.
Variable room_map : Mat.
Variable map_resolution : float.
Variable max_fow_angle smallest_robot_to_fow_distance largest_robot_to_fow_distance : double.
Variable map_origin : Point2d.
Variable footprint : list Point32.
Variable robot_to_fow_middlepoint_vector : Vec2f.

Local Abbreviation check := (check_neighbor std_acos pointPolygonTest LineIterator room_map
  map_resolution max_fow_angle smallest_robot_to_fow_distance largest_robot_to_fow_distance).
Local Abbreviation fow_of := (transformed_fow_points_of std_sin std_cos room_map
  map_resolution map_origin footprint).
Local Abbreviation build := (build_V std_sin std_cos std_acos pointPolygonTest LineIterator
  room_map map_resolution max_fow_angle smallest_robot_to_fow_distance
  largest_robot_to_fow_distance map_origin footprint robot_to_fow_middlepoint_vector).

(** X5: the test of a cell from a pose ends in the branch that writes 1
    exactly when the cell passes the range gate, the angle gate and the
    polygon test ([>= 0], so a cell on the border of the footprint counts as
    inside), and none of the pixels that the line iterator visits between
    pose and cell, both ends included, is 0.  Every pixel of the line is
    read, also after an obstacle was found. *)
Theorem observable_iff_all_tests_pass (fow : list Point) (mv : Vec2f) (pose : Pose2D)
    (neighbor : Point) :
  check fow mv pose neighbor = Ret Observable <->
  range_gate (D.round (vec_norm (pose_to_neighbor pose neighbor)))
    smallest_robot_to_fow_distance largest_robot_to_fow_distance map_resolution = true /\
  angle_gate (angle_of std_acos mv (pose_to_neighbor pose neighbor)) max_fow_angle = true /\
  fge (pointPolygonTest fow neighbor) d_zero = true /\
  exists x y values,
    to_int (pose_x pose) = Ret x /\ to_int (pose_y pose) = Ret y /\
    Forall2 (fun pos v => mat_at room_map (pt_y pos) (pt_x pos) = Ret v)
            (LineIterator room_map (mkPoint x y) neighbor) values /\
    Forall (fun v => v <> 0) values.
Proof.
  unfold check_neighbor. split.
  - intros H.
    destruct (range_gate _ _ _ _); [|discriminate].
    destruct (angle_gate _ _); [|discriminate].
    destruct (fge _ _); [|discriminate].
    exec_split H as x Hx. exec_split H as y Hy. exec_split H as hit Hhit.
    apply line_hits_obstacle_spec in Hhit as (values & Hread & ->).
    repeat split; try reflexivity.
    exists x, y, values. repeat split; try assumption.
    cbn [orb] in H. apply Forall_forall. intros v Hv ->.
    assert (Hex : existsb (fun v => v =? 0) values = true).
    { apply existsb_exists. exists 0. split; [apply list_elem_of_In; exact Hv|reflexivity]. }
    rewrite Hex in H. discriminate.
  - intros (-> & -> & -> & x & y & values & -> & -> & Hread & Hfree).
    cbn [mbind exec_bind].
    rewrite (line_hits_obstacle_Ret _ _ _ Hread). cbn [mbind exec_bind orb].
    assert (Hex : existsb (fun v => v =? 0) values = false).
    { apply not_true_is_false. intros Hex. apply existsb_exists in Hex as (v & Hv & Hz).
      apply Z.eqb_eq in Hz. rewrite Forall_forall in Hfree.
      apply (Hfree v); [apply list_elem_of_In; exact Hv|exact Hz]. }
    rewrite Hex. reflexivity.
Qed.

Lemma transform_fow_point_clamped R pose_m corner p :
  transform_fow_point room_map map_resolution map_origin R pose_m corner = Ret p ->
  0 <= pt_x p <= Z.of_nat (mat_cols room_map) /\
  0 <= pt_y p <= Z.of_nat (mat_rows room_map).
Proof.
  unfold transform_fow_point. intros H.
  exec_split H as x Hx. exec_split H as y Hy. injection H as <-.
  cbn [pt_x pt_y]. lia.
Qed.

(** X6: the corners of the transformed footprint stay on the map: the
    polygon has one corner per footprint point, in the order of the
    footprint, and every corner has [0 <= x <= room_map.cols] and
    [0 <= y <= room_map.rows] (the upper bounds are the sizes themselves,
    one past the last pixel). *)
Theorem transformed_footprint_is_clamped (pose : Pose2D) (fow : list Point) :
  fow_of pose = Ret fow ->
  length fow = length footprint /\
  Forall (fun p => 0 <= pt_x p <= Z.of_nat (mat_cols room_map) /\
                   0 <= pt_y p <= Z.of_nat (mat_rows room_map)) fow.
Proof.
  unfold transformed_fow_points_of.
  generalize footprint as corners. intros corners. revert fow.
  induction corners as [|corner rest IH]; intros fow H; cbn [mapM] in H.
  - injection H as <-. split; [reflexivity|constructor].
  - exec_split H as p Hp. exec_split H as ps Hps. injection H as <-.
    destruct (IH ps Hps) as [Hlen Hall].
    split; [cbn; congruence|].
    constructor; [eapply transform_fow_point_clamped; exact Hp|exact Hall].
Qed.

End VisibilityFacts.

Lemma quotient_of_same_cell (mv : Vec2f) (center : Point) (theta : double) :
  clamp_quotient
    (quotient_of mv (pose_to_neighbor
                       (mkPose2D (D.of_Z (pt_x center)) (D.of_Z (pt_y center)) theta) center))
  = S754_nan.
Proof.
  destruct (pose_to_neighbor_same_cell center theta) as [H0 H1].
  match goal with |- clamp_quotient ?q = _ => assert (Hq : q = S754_nan) end.
  { unfold quotient_of, vec_norm, vec_dot.
    apply div_zero_or_nan.
    - apply add_zero_or_nan; apply mul_zero_or_nan_r; assumption.
    - apply mul_zero_or_nan_r, sqrt_zero_or_nan, add_zero_or_nan;
        apply mul_zero_or_nan_both; assumption. }
  rewrite Hq. reflexivity.
Qed.

Section OwnCell.
Variable std_sin std_cos : double -> double.
Variable std_acos : float -> float.
Variable pointPolygonTest : list Point -> Point -> double.
Variable LineIterator : Mat -> Point -> Point -> list Point.
Variable room_map : Mat.
Variable map_resolution : float.
Variable max_fow_angle smallest_robot_to_fow_distance largest_robot_to_fow_distance : double.
Variable map_origin : Point2d.
Variable footprint : list Point32.
Variable robot_to_fow_middlepoint_vector : Vec2f.

(** [std::acos] of a NaN is a NaN (C standard, annex F) *)
Hypothesis acos_nan : std_acos S754_nan = S754_nan.

Lemma own_cell_branch fow mv (center : Point) (theta : double) b :
  check_neighbor std_acos pointPolygonTest LineIterator room_map map_resolution
    max_fow_angle smallest_robot_to_fow_distance largest_robot_to_fow_distance fow mv
    (mkPose2D (D.of_Z (pt_x center)) (D.of_Z (pt_y center)) theta) center = Ret b ->
  b = OutOfRange \/ b = AngleTooBig.
Proof.
  unfold check_neighbor, angle_of. rewrite quotient_of_same_cell, acos_nan.
  change (angle_gate S754_nan max_fow_angle) with false.
  destruct (range_gate _ _ _ _); intros [= <-]; auto.
Qed.

(** X7: no candidate pose is recorded as seeing the cell it stands on.  The
    angle to that cell is the NaN of 0/0, which fails [angle <= max_fow_angle]
    whatever the footprint and the half-angle: the entry of V for a cell and a
    pose at that cell's centre is 0, for every heading. *)
Theorem pose_never_sees_its_own_cell (cell_centers : list Point)
    (candidate_sensing_poses : list Pose2D) (V : Mat) (i j : nat) (center : Point)
    (theta : double) :
  build_V std_sin std_cos std_acos pointPolygonTest LineIterator room_map map_resolution
    max_fow_angle smallest_robot_to_fow_distance largest_robot_to_fow_distance
    map_origin footprint robot_to_fow_middlepoint_vector
    cell_centers candidate_sensing_poses = Ret V ->
  cell_centers !! i = Some center ->
  candidate_sensing_poses !! j =
    Some (mkPose2D (D.of_Z (pt_x center)) (D.of_Z (pt_y center)) theta) ->
  mat_get V i j = Some 0.
Proof.
  intros HV Hi Hj.
  apply build_V_spec in HV as (_ & _ & _ & Hall).
  destruct (Hall i j _ _ Hi Hj) as (fow & b & _ & Hb & Hget & _).
  rewrite Hget. apply own_cell_branch in Hb as [-> | ->]; reflexivity.
Qed.

End OwnCell.

(** ** solveOptimizationProblem *)

Lemma mapM_exec_Forall2 {A B} (f : A -> exec B) (l : list A) (bs : list B) :
  mapM f l = Ret bs -> Forall2 (fun a b => f a = Ret b) l bs.
Proof.
  revert bs. induction l as [|a l IH]; intros bs H; cbn [mapM] in H.
  - injection H as <-. constructor.
  - exec_split H as b Hb. exec_split H as bs' Hbs'.
    injection H as <-. constructor; [exact Hb|]. apply IH. exact Hbs'.
Qed.

Lemma variable_indices_of_spec (V : Mat) (row : nat) (cols : list nat) :
  forall indices,
    variable_indices_of V row cols = Ret indices ->
    indices = map (fun col => wrap_int (Z.of_nat col))
                  (filter (fun col => mat_get V row col = Some 1) cols).
Proof.
  induction cols as [|col rest IH]; intros indices H; cbn [variable_indices_of] in H.
  - injection H as <-. reflexivity.
  - exec_split H as v Hv. exec_split H as indices' Hindices'. injection H as <-.
    rewrite (IH _ Hindices'). unfold of_option in Hv.
    destruct (mat_get V row col) as [v'|] eqn:Hget; [|discriminate].
    injection Hv as ->.
    destruct (Z.eqb_spec v 1) as [->|Hne].
    + rewrite filter_cons_True by exact Hget. reflexivity.
    + rewrite filter_cons_False by (rewrite Hget; congruence). reflexivity.
Qed.

(** X8: the problem that [solveOptimizationProblem] builds is the covering
    program of V.  It has one variable per entry of C, each with bounds
    [0, 1] and with cost [W[i]] (1.0 without weights); it has one row per row
    of V, [sum >= 1.0] with coefficients 1.0 over exactly the columns where V
    holds a 1, in increasing order; and the variables are declared integer
    only when no weights are given. *)
Theorem solver_problem_is_the_covering_program (n : nat) (V : Mat)
    (weights : option (list double)) (problem : QSprob) :
  build_problem n V weights = Ret problem ->
  qs_integer problem = match weights with None => seq 1 n | Some _ => [] end /\
  length (qs_cols problem) = n /\
  (forall i, (i < n)%nat ->
     exists obj,
       match weights with Some w => w !! i | None => Some d_one end = Some obj /\
       qs_cols problem !! i = Some (mkQScol obj d_zero d_one)) /\
  length (qs_rows problem) = mat_rows V /\
  (forall row, (row < mat_rows V)%nat ->
     let indices := map (fun col => wrap_int (Z.of_nat col))
                        (filter (fun col => mat_get V row col = Some 1)
                                (seq 0 (mat_cols V))) in
     qs_rows problem !! row =
       Some (mkQSrow indices (replicate (length indices) d_one) d_one QS_G)).
Proof.
  unfold build_problem. intros H.
  exec_split H as cols Hcols. exec_split H as rows Hrows. injection H as <-.
  cbn [qs_integer qs_cols qs_rows].
  apply mapM_exec_Forall2 in Hcols. apply mapM_exec_Forall2 in Hrows.
  split; [reflexivity|].
  split; [rewrite <- (Forall2_length _ _ _ Hcols); apply length_seq|].
  split.
  - intros i Hi.
    destruct (Forall2_lookup_l _ _ _ i i Hcols) as (col & Hcol & Hf);
      [apply lookup_seq; lia|].
    destruct weights as [w|].
    + exec_split Hf as obj Hobj. injection Hf as <-.
      exists obj. split; [|exact Hcol].
      unfold of_option in Hobj. destruct (w !! i); [congruence|discriminate].
    + injection Hf as <-. exists d_one. split; [reflexivity|exact Hcol].
  - split; [rewrite <- (Forall2_length _ _ _ Hrows); apply length_seq|].
    intros row Hrow. cbv zeta.
    destruct (Forall2_lookup_l _ _ _ row row Hrows) as (r & Hr & Hf);
      [apply lookup_seq; lia|].
    unfold covering_row in Hf. exec_split Hf as indices' Hindices'. injection Hf as <-.
    apply variable_indices_of_spec in Hindices'. subst indices'. exact Hr.
Qed.

Lemma store_solution_spec {T} (convert : double -> exec T) (result : nat -> double) :
  forall count start C0 C',
    store_solution convert result (seq start count) C0 = Ret C' ->
    length C' = length C0 /\
    (forall i, (start <= i < start + count)%nat ->
       exists x, convert (result i) = Ret x /\ C' !! i = Some x) /\
    (forall i, (i < start)%nat -> C' !! i = C0 !! i).
Proof.
  induction count as [|count IH]; intros start C0 C' H; cbn [seq store_solution] in H.
  - injection H as <-. split; [reflexivity|]. split; [lia|reflexivity].
  - exec_split H as x Hx.
    destruct (decide (start < length C0)%nat) as [Hlt|]; [|discriminate].
    apply IH in H as (Hlen & Hnew & Hold).
    rewrite length_insert in Hlen.
    split; [exact Hlen|]. split.
    + intros i Hi. destruct (decide (i = start)) as [->|Hne].
      * exists x. split; [exact Hx|].
        rewrite Hold by lia. apply list_lookup_insert_eq. exact Hlt.
      * apply Hnew. lia.
    + intros i Hi. rewrite Hold by lia. apply list_lookup_insert_ne. lia.
Qed.

(** Storing [count] values from index 0 in a vector of that length gives
    the vector of the converted values. *)
Lemma store_solution_total {T} (convert : double -> exec T) (result : nat -> double)
    (count : nat) (C1 C' : list T) :
  length C1 = count -> length C' = count ->
  (forall i, (i < count)%nat -> exists x, convert (result i) = Ret x /\ C' !! i = Some x) ->
  exists C1', store_solution convert result (seq 0 count) C1 = Ret C1' /\ C1' = C'.
Proof.
  intros HC1 HC' Hall.
  assert (Hgen : forall k start C2,
             (start + k = count)%nat -> length C2 = count ->
             (forall i, (i < start)%nat -> C2 !! i = C' !! i) ->
             store_solution convert result (seq start k) C2 = Ret C').
  { induction k as [|k IH]; intros start C2 Hsum HC2 Hold; cbn [seq store_solution].
    - f_equal. apply list_eq. intros i.
      destruct (decide (i < count)%nat) as [Hi|Hi]; [apply Hold; lia|].
      rewrite !lookup_ge_None_2 by lia. reflexivity.
    - destruct (Hall start) as (x & Hx & HCx); [lia|].
      rewrite Hx. cbn [mbind exec_bind].
      rewrite decide_True by lia.
      apply IH; [lia|rewrite length_insert; exact HC2|].
      intros i Hi. destruct (decide (i = start)) as [->|Hne].
      + rewrite list_lookup_insert_eq by lia. symmetry. exact HCx.
      + rewrite list_lookup_insert_ne by lia. apply Hold. lia. }
  exists C'. split; [|reflexivity].
  apply Hgen; [lia|exact HC1|]. intros i Hi. lia.
Qed.

Section SolveFacts.
Variable QSopt_solution : QSprob -> nat -> double.

Lemma solveOptimizationProblem_inv {T} (convert : double -> exec T) (C0 : list T) (V : Mat)
    (weights : option (list double)) (problem : QSprob) (C' : list T) :
  solveOptimizationProblem QSopt_solution convert C0 V weights = Ret (problem, C') ->
  build_problem (length C0) V weights = Ret problem /\
  length C' = length C0 /\
  forall i, (i < length C0)%nat ->
    exists x, convert (QSopt_solution problem i) = Ret x /\ C' !! i = Some x.
Proof.
  unfold solveOptimizationProblem. intros H.
  exec_split H as problem' Hproblem. exec_split H as C'' HC''. injection H as <- <-.
  split; [exact Hproblem|].
  unfold build_problem in Hproblem.
  exec_split Hproblem as cols Hcols. exec_split Hproblem as rows Hrows.
  injection Hproblem as <-. cbn [qs_cols] in HC''.
  apply mapM_exec_Forall2, Forall2_length in Hcols. rewrite length_seq in Hcols.
  rewrite <- Hcols in HC''.
  apply store_solution_spec in HC'' as (Hlen & Hnew & _).
  split; [exact Hlen|]. intros i Hi. apply Hnew. lia.
Qed.

(** X9: after [solveOptimizationProblem] the vector C has its length and
    holds, at every index, the solver's value for that variable of the
    problem just built, converted to the element type of C: nothing of the
    previous content of C is left, so the result does not depend on it. *)
Theorem solution_overwrites_C {T} (convert : double -> exec T) (C0 : list T) (V : Mat)
    (weights : option (list double)) (problem : QSprob) (C' : list T) :
  solveOptimizationProblem QSopt_solution convert C0 V weights = Ret (problem, C') ->
  build_problem (length C0) V weights = Ret problem /\
  length C' = length C0 /\
  (forall i, (i < length C0)%nat ->
     exists x, convert (QSopt_solution problem i) = Ret x /\ C' !! i = Some x) /\
  (forall C1 : list T, length C1 = length C0 ->
     solveOptimizationProblem QSopt_solution convert C1 V weights = Ret (problem, C')).
Proof.
  intros H. pose proof (solveOptimizationProblem_inv _ _ _ _ _ _ H) as (Hp & Hlen & Hall).
  split; [exact Hp|]. split; [exact Hlen|]. split; [exact Hall|].
  intros C1 HC1. unfold solveOptimizationProblem. rewrite HC1, Hp. cbn [mbind exec_bind].
  assert (Hcols : length (qs_cols problem) = length C0).
  { unfold build_problem in Hp.
    exec_split Hp as cols Hcols. exec_split Hp as rows Hrows. injection Hp as <-.
    apply mapM_exec_Forall2, Forall2_length in Hcols. rewrite length_seq in Hcols.
    cbn [qs_cols]. congruence. }
  rewrite Hcols.
  destruct (store_solution_total convert (QSopt_solution problem) (length C0) C1 C')
    as (C1' & HC1' & Heq); [exact HC1|congruence|exact Hall|].
  rewrite HC1'. cbn [mbind exec_bind]. rewrite Heq. reflexivity.
Qed.

End SolveFacts.

(** ** The conversion of the final solution to [int] *)

Lemma digits2_pos_bound (m : positive) : Z.pos m < 2 ^ Z.pos (digits2_pos m).
Proof.
  induction m as [m IH|m IH|]; cbn [digits2_pos].
  - rewrite Pos2Z.inj_succ, Z.pow_succ_r by lia. lia.
  - rewrite Pos2Z.inj_succ, Z.pow_succ_r by lia. lia.
  - reflexivity.
Qed.

(** A canonical double of magnitude below 1.0 is converted to the int 0. *)
Lemma to_int_below_one (x : double) :
  valid_binary D.prec D.emax x = true ->
  flt (SFabs x) d_one = true ->
  to_int x = Ret 0.
Proof.
  destruct x as [s|s| |s m e]; cbn [SFabs]; intros Hvalid Hlt.
  1-3: try reflexivity; try (vm_compute in Hlt; discriminate).
  assert (Hcanon : fexp D.prec D.emax (Z.pos (digits2_pos m) + e) = e).
  { cbn [valid_binary] in Hvalid. unfold bounded in Hvalid.
    apply andb_true_iff in Hvalid as [Hcanon _].
    apply Z.eqb_eq. exact Hcanon. }
  unfold fexp, emin, D.prec, D.emax in Hcanon.
  pose proof (digits2_pos_bound m) as Hdigits.
  assert (Hone : d_one = S754_finite false 4503599627370496 (-52))
    by (vm_compute; reflexivity).
  rewrite Hone in Hlt. unfold flt, SFltb, SFcompare in Hlt.
  assert (Hm : e < 0 /\ Z.pos m < 2 ^ (- e)).
  { destruct (Z.compare_spec e (-52)) as [He|He|He]; try discriminate.
    - subst e. split; [lia|].
      destruct (PosDef.Pos.compare_cont Eq m 4503599627370496%positive) eqn:Hcmp;
        try discriminate.
      apply Pos.compare_lt_iff in Hcmp. apply Pos2Z.pos_lt_pos in Hcmp. exact Hcmp.
    - split; [lia|].
      eapply Z.lt_le_trans; [exact Hdigits|]. apply Z.pow_le_mono_r; lia. }
  destruct Hm as [He Hm].
  unfold to_int, ftrunc.
  assert (Hz : Z.shiftl (Z.pos m) e = 0).
  { replace e with (- (- e)) by lia.
    change (Z.shiftl (Z.pos m) (- - e)) with (Z.shiftr (Z.pos m) (- e)).
    rewrite Z.shiftr_div_pow2 by lia. apply Z.div_small. lia. }
  rewrite Hz. destruct s; reflexivity.
Qed.

(** ** The sparsity measure *)

Lemma l0_eps_measure_from (C0 : list double) :
  forall acc, 0 <= acc -> acc + Z.of_nat (length C0) < 2 ^ 32 ->
    foldl (fun sparsity_measure c =>
             if fle c (D.lit 1 2) then wrap_uint (sparsity_measure + 1)
             else sparsity_measure) acc C0 =
    acc + Z.of_nat (length (filter (fun c => fle c (D.lit 1 2) = true) C0)).
Proof.
  induction C0 as [|c C0 IH]; intros acc Hacc Hbound; cbn [foldl length] in *.
  - cbn. lia.
  - destruct (fle c (D.lit 1 2)) eqn:Hc.
    + rewrite filter_cons_True by exact Hc. cbn [length].
      rewrite wrap_uint_small by lia. rewrite IH by lia. lia.
    + rewrite filter_cons_False by congruence. apply IH; lia.
Qed.

(** X10: the sparsity measure of one iteration is the number of entries of
    C that compare [<= 0.01]: negative entries are counted, an entry that is
    not a number is not, and the measure is the number of variables exactly
    when every entry compares [<= 0.01]. *)
Theorem l0_eps_measure_counts_small_entries (C0 : list double) :
  Z.of_nat (length C0) < 2 ^ 32 ->
  l0_eps_measure C0 =
    Z.of_nat (length (filter (fun c => fle c (D.lit 1 2) = true) C0)) /\
  0 <= l0_eps_measure C0 <= Z.of_nat (length C0) /\
  (l0_eps_measure C0 = Z.of_nat (length C0) <->
   Forall (fun c => fle c (D.lit 1 2) = true) C0) /\
  (forall pre post, C0 = pre ++ S754_nan :: post ->
     l0_eps_measure C0 = l0_eps_measure (pre ++ post)) /\
  (forall pre post m e, C0 = pre ++ S754_finite true m e :: post ->
     l0_eps_measure C0 = l0_eps_measure (pre ++ post) + 1).
Proof.
  intros Hlen.
  assert (Hcount : forall C1 : list double, Z.of_nat (length C1) < 2 ^ 32 ->
            l0_eps_measure C1 =
            Z.of_nat (length (filter (fun c => fle c (D.lit 1 2) = true) C1))).
  { intros C1 H1. unfold l0_eps_measure. rewrite l0_eps_measure_from by lia. lia. }
  rewrite (Hcount C0 Hlen).
  pose proof (length_filter (fun c => fle c (D.lit 1 2) = true) C0) as Hle.
  split; [reflexivity|]. split; [lia|]. split; [|split].
  - split.
    + intros Heq. apply Nat2Z.inj in Heq.
      apply Forall_forall. intros c Hc.
      assert (Hall : filter (fun c => fle c (D.lit 1 2) = true) C0 = C0).
      { clear -Heq. induction C0 as [|a l IH]; [reflexivity|].
        pose proof (length_filter (fun c => fle c (D.lit 1 2) = true) l) as Hl.
        destruct (decide (fle a (D.lit 1 2) = true)) as [Ha|Ha].
        - rewrite filter_cons_True in * by exact Ha. cbn [length] in Heq.
          f_equal. apply IH. lia.
        - rewrite filter_cons_False in Heq by exact Ha. cbn [length] in Heq. lia. }
      rewrite <- Hall in Hc. apply list_elem_of_filter in Hc as [Hc _]. exact Hc.
    + intros Hall. f_equal. f_equal.
      clear -Hall. induction Hall as [|a l Ha Hl IH]; [reflexivity|].
      rewrite filter_cons_True by exact Ha. f_equal. exact IH.
  - intros pre post ->. rewrite length_app in Hlen. cbn [length] in Hlen.
    rewrite Hcount by (rewrite length_app; lia).
    rewrite !filter_app, filter_cons_False by (vm_compute; discriminate).
    reflexivity.
  - intros pre post m e ->. rewrite length_app in Hlen. cbn [length] in Hlen.
    rewrite Hcount by (rewrite length_app; lia).
    rewrite !filter_app, filter_cons_True by reflexivity.
    rewrite !length_app. cbn [length]. lia.
Qed.

(** ** One iteration of the re-weighting loop *)

Lemma objective_columns_weighted_inv (n : nat) (w : list double) (cols : list QScol) :
  objective_columns n (Some w) = Ret cols ->
  (n <= length w)%nat /\ map col_obj cols = take n w.
Proof.
  unfold objective_columns. intros H. apply mapM_exec_Forall2 in H.
  pose proof (Forall2_length _ _ _ H) as Hlen. rewrite length_seq in Hlen.
  assert (Hall : forall i, (i < n)%nat ->
            exists obj, w !! i = Some obj /\ cols !! i = Some (mkQScol obj d_zero d_one)).
  { intros i Hi.
    destruct (Forall2_lookup_l _ _ _ i i H) as (col & Hcol & Hf); [apply lookup_seq; lia|].
    exec_split Hf as obj Hobj. injection Hf as <-.
    exists obj. split; [|exact Hcol].
    unfold of_option in Hobj. destruct (w !! i); [congruence|discriminate]. }
  assert (Hn : (n <= length w)%nat).
  { destruct n as [|n]; [lia|].
    destruct (Hall n) as (obj & Hobj & _); [lia|].
    apply lookup_lt_Some in Hobj. lia. }
  split; [exact Hn|].
  apply list_eq. intros i. rewrite list_lookup_fmap.
  destruct (decide (i < n)%nat) as [Hi|Hi].
  - destruct (Hall i Hi) as (obj & Hobj & Hcol).
    rewrite Hcol, lookup_take_lt by lia. cbn. symmetry. exact Hobj.
  - rewrite lookup_take_ge by lia. rewrite lookup_ge_None_2 by lia. reflexivity.
Qed.

Lemma update_weights_spec (epsilon : double) (C0 : list double) :
  forall count start W0 W',
    update_weights epsilon C0 (seq start count) W0 = Ret W' ->
    (0 < count -> start + count <= length C0)%nat /\
    length W' = length W0 /\
    (forall i, (start <= i < start + count)%nat -> (i < length W0)%nat ->
       exists c, C0 !! i = Some c /\ W' !! i = Some (D.div epsilon (D.add epsilon c))) /\
    (forall i, (i < start)%nat -> W' !! i = W0 !! i).
Proof.
  induction count as [|count IH]; intros start W0 W' H; cbn [seq update_weights] in H.
  - injection H as <-. split; [lia|]. split; [reflexivity|]. split; [lia|reflexivity].
  - exec_split H as c Hc. unfold of_option in Hc.
    destruct (C0 !! start) as [c'|] eqn:Hstart; [|discriminate]. injection Hc as ->.
    apply IH in H as (Hbound & Hlen & Hnew & Hold).
    rewrite length_insert in Hlen.
    split.
    { intros _. apply lookup_lt_Some in Hstart. destruct count; lia. }
    split; [exact Hlen|]. split.
    + intros i Hi HiW. destruct (decide (i = start)) as [->|Hne].
      * exists c. split; [exact Hstart|].
        rewrite Hold by lia. apply list_lookup_insert_eq. exact HiW.
      * apply Hnew; [lia|rewrite length_insert; exact HiW].
    + intros i Hi. rewrite Hold by lia. apply list_lookup_insert_ne. lia.
Qed.

Section IterationFacts.
Variable std_exp : double -> double.
Variable std_pow : double -> double -> double.
Variable QSopt_solution : QSprob -> nat -> double.

Local Abbreviation step := (iteration std_exp std_pow QSopt_solution).
Local Abbreviation loop := (relaxation_loop std_exp std_pow QSopt_solution).

(** X11: what one iteration of the do-while loop computes.  When it
    returns, C and W had one length; the problem solved has the old weights
    as costs; the new C is the solver's solution of that problem, all of it;
    and every new weight is [epsilon/(epsilon + C[i])] for the new C and the
    epsilon of this iteration: no old weight and no old value of C is left. *)
Theorem iteration_solves_then_reweights (V : Mat) (sparsity_check_range : Z)
    (st st' : LoopState) :
  step V sparsity_check_range st = Ret st' ->
  length (W st) = length (C st) /\
  exists problem,
    build_problem (length (C st)) V (Some (W st)) = Ret problem /\
    map col_obj (qs_cols problem) = W st /\
    qs_integer problem = [] /\
    C st' = map (QSopt_solution problem) (seq 0 (length (C st))) /\
    W st' = map (fun c => D.div (weight_epsilon st') (D.add (weight_epsilon st') c))
                (C st') /\
    sparsity_measures st' = sparsity_measures st ++ [l0_eps_measure (C st')].
Proof.
  unfold iteration. intros H.
  exec_split H as pc Hpc. destruct pc as [problem C'].
  exec_split H as epsilon Hepsilon. exec_split H as W' HW'.
  injection H as <-. cbn [C W weight_epsilon sparsity_measures].
  apply solveOptimizationProblem_inv in Hpc as (Hp & HlenC & Hsol).
  apply update_weights_spec in HW' as (Hbound & HlenW & Hnew & _).
  assert (Hcols : (length (C st) <= length (W st))%nat /\
                  map col_obj (qs_cols problem) = take (length (C st)) (W st)).
  { unfold build_problem in Hp. exec_split Hp as cols Hcols. exec_split Hp as rows Hrows.
    injection Hp as <-. cbn [qs_cols].
    apply objective_columns_weighted_inv in Hcols. exact Hcols. }
  destruct Hcols as [Hle Hobj].
  assert (Heq : length (W st) = length (C st)).
  { destruct (length (W st)) as [|k] eqn:Hk; [lia|].
    rewrite <- Hk in *. specialize (Hbound ltac:(lia)). lia. }
  split; [exact Heq|].
  exists problem. split; [exact Hp|].
  split; [rewrite Hobj, <- Heq; apply take_ge; lia|].
  split.
  { unfold build_problem in Hp. exec_split Hp as cols Hcols. exec_split Hp as rows Hrows.
    injection Hp as <-. reflexivity. }
  split.
  { apply list_eq. intros i. rewrite list_lookup_fmap.
    destruct (decide (i < length (C st))%nat) as [Hi|Hi].
    - destruct (Hsol i Hi) as (x & Hx & HC'). injection Hx as <-.
      rewrite HC', lookup_seq_lt by lia. reflexivity.
    - rewrite lookup_ge_None_2 by lia.
      rewrite lookup_ge_None_2 by (rewrite length_seq; lia). reflexivity. }
  split; [|reflexivity].
  apply list_eq. intros i. rewrite list_lookup_fmap.
  destruct (decide (i < length (W st))%nat) as [Hi|Hi].
  - destruct (Hnew i) as (c & Hc & HW'); [lia|lia|].
    rewrite HW', Hc. reflexivity.
  - rewrite lookup_ge_None_2 by lia.
    rewrite lookup_ge_None_2 by lia. reflexivity.
Qed.

(** X12: how many iterations the loop makes, by [sparsity_check_range].
    The loop never stops before [min(sparsity_check_range, 201)] iterations;
    with a range of 0 or 1 it stops after the first iteration with the flag
    raised, whatever the solver returns; with a range above 201 it always
    makes all 201 iterations and leaves the flag down. *)
Theorem iterations_by_sparsity_check_range (V : Mat) (sparsity_check_range : Z)
    (fuel number_of_candidates : nat) :
  mat_written V ->
  (201 <= fuel)%nat ->
  0 <= sparsity_check_range < 2 ^ 32 ->
  exists st,
    loop fuel V sparsity_check_range (initial_state number_of_candidates) = Ret st /\
    Z.min sparsity_check_range 201 <= number_of_iterations st /\
    (sparsity_check_range <= 1 ->
     number_of_iterations st = 1 /\ sparsity_converged st = true) /\
    (201 < sparsity_check_range ->
     number_of_iterations st = 201 /\ sparsity_converged st = false).
Proof.
  intros Hw Hfuel Hrange.
  assert (Hinit : length (C (initial_state number_of_candidates)) =
                  length (W (initial_state number_of_candidates))).
  { cbn. rewrite !length_replicate. reflexivity. }
  destruct (Z.le_gt_cases sparsity_check_range 1) as [Hsmall|Hbig].
  - destruct fuel as [|fuel]; [lia|]. cbn [relaxation_loop].
    destruct (iteration_Ret std_exp std_pow QSopt_solution V sparsity_check_range
                (initial_state number_of_candidates) Hw Hinit) as (st1 & Hst1 & Hn1);
      [cbn; lia|].
    rewrite Hst1. cbn [mbind exec_bind].
    destruct (iteration_inv _ _ _ _ _ _ _ Hst1) as (_ & _ & _ & Hmeasures & Hconv & _).
    cbn [initial_state sparsity_measures sparsity_converged app] in Hmeasures, Hconv.
    assert (Hflag : sparsity_converged st1 = true).
    { rewrite Hconv, Hmeasures. apply terminal_condition_iff; [exact Hrange|].
      split; [cbn; lia|].
      destruct (decide (sparsity_check_range = 0)) as [->|Hne].
      - constructor.
      - replace sparsity_check_range with 1 by lia. repeat constructor. }
    rewrite Hflag. cbn [negb andb].
    exists st1. split; [reflexivity|]. cbn in Hn1.
    split; [lia|]. split; [intros _; split; [lia|exact Hflag]|lia].
  - destruct (relaxation_loop_spec std_exp std_pow QSopt_solution V sparsity_check_range Hw
                fuel (initial_state number_of_candidates))
      as (st & Hst & Hn & _ & _ & Hm & Hconv & Hend);
      [exact Hinit|cbn; lia|reflexivity|cbn; lia|].
    cbn [initial_state number_of_iterations sparsity_measures length] in Hn, Hm.
    exists st. split; [exact Hst|].
    assert (Hflag : sparsity_converged st = true ->
                    sparsity_check_range <= number_of_iterations st).
    { intros Hflag. rewrite Hflag in Hconv. symmetry in Hconv.
      apply terminal_condition_iff in Hconv as [Hle _]; [|exact Hrange].
      cbn in Hm. lia. }
    split; [destruct Hend as [Hend|Hend]; [apply Hflag in Hend|]; lia|].
    split; [lia|].
    intros Habove. destruct (sparsity_converged st) eqn:E.
    + specialize (Hflag eq_refl). lia.
    + destruct Hend as [Hend|Hend]; [discriminate|]. split; [exact Hend|reflexivity].
Qed.

End IterationFacts.

(** ** The final problem and the final solution *)

Lemma store_solution_converts {T} (convert : double -> exec T) (result : nat -> double)
    (variables : list nat) :
  (forall variable, exists x, convert (result variable) = Ret x) ->
  forall C0,
    (forall variable, variable ∈ variables -> (variable < length C0)%nat) ->
    exists C', store_solution convert result variables C0 = Ret C'.
Proof.
  intros Hconvert.
  induction variables as [|variable rest IH]; intros C0 Hin; cbn [store_solution].
  - eauto.
  - destruct (Hconvert variable) as [x Hx]. rewrite Hx. cbn [mbind exec_bind].
    rewrite decide_True by (apply Hin; left).
    apply IH. intros v Hv. rewrite length_insert. apply Hin. right. exact Hv.
Qed.

Section FinalStage.
Variable PI : double.
Variable std_sin std_cos : double -> double.
Variable std_acos : float -> float.
Variable std_exp : double -> double.
Variable std_pow : double -> double -> double.
Variable pointPolygonTest : list Point -> Point -> double.
Variable LineIterator : Mat -> Point -> Point -> list Point.
Variable QSopt_solution : QSprob -> nat -> double.
Variable fuel : nat.
Variable room_map : Mat.
Variable path : list Pose2D.
Variable map_resolution : float.
Variable starting_position : Point.
Variable map_origin : Point2d.
Variable cell_size : Z.
Variable delta_theta : double.
Variable room_min_max_coordinates : list Point32.
Variable footprint : list Point32.
Variable robot_to_fow_middlepoint_vector : Vec2f.
Variable max_fow_angle smallest_robot_to_fow_distance largest_robot_to_fow_distance : double.
Variable sparsity_check_range : Z.

Local Abbreviation run := (getExplorationPath PI std_sin std_cos std_acos std_exp std_pow
  pointPolygonTest LineIterator QSopt_solution fuel room_map path map_resolution
  starting_position map_origin cell_size delta_theta room_min_max_coordinates footprint
  robot_to_fow_middlepoint_vector max_fow_angle smallest_robot_to_fow_distance
  largest_robot_to_fow_distance sparsity_check_range).

(** The last two stages of a run that returns. *)
Lemma getExplorationPath_final_stage (r : Result) :
  run = Ret r ->
  let V := res_V r in
  let kept := spec_kept_columns (C (res_loop r)) in
  let n := Z.to_nat (Z.of_nat (length kept) mod 2 ^ 32) in
  mat_wf V /\
  mat_rows V = length (res_cell_centers r) /\
  (length (C (res_loop r)) <= mat_cols V)%nat /\
  res_V_reduced r =
    mkMat (mat_rows V) (length kept) (map (select_columns kept) (mat_data V)) /\
  build_problem n (res_V_reduced r) None = Ret (res_final_problem r) /\
  length (res_C_reduced r) = n /\
  forall i, (i < n)%nat ->
    exists x, to_int (QSopt_solution (res_final_problem r) i) = Ret x /\
              res_C_reduced r !! i = Some x.
Proof.
  intros H. apply getExplorationPath_inv in H.
  destruct H as (cell_centers & poses & V & st & n & V_reduced & problem & C_reduced & H).
  destruct H as (_ & _ & HV & Hst & Hreduce & Hsolve & ->).
  cbn [res_V res_V_reduced res_loop res_cell_centers res_final_problem res_C_reduced].
  apply build_V_spec in HV as (Hwf & Hrows & Hcols & _).
  apply relaxation_loop_length in Hst.
  assert (HlenC : (length (C st) <= mat_cols V)%nat).
  { rewrite Hst, Hcols. unfold initial_state. cbn [C].
    rewrite !length_replicate. lia. }
  rewrite <- Hrows, (reduce_problem_spec V Hwf (C st) HlenC) in Hreduce.
  injection Hreduce as <- <-.
  apply solveOptimizationProblem_inv in Hsolve as (Hp & Hlen & Hsol).
  rewrite length_replicate in Hp, Hlen, Hsol.
  split; [exact Hwf|]. split; [exact Hrows|]. split; [exact HlenC|].
  split; [reflexivity|]. split; [exact Hp|]. split; [exact Hlen|exact Hsol].
Qed.

Lemma to_int_Ret (x : double) (z : Z) :
  to_int x = Ret z -> ftrunc x = Some z /\ in_int z = true.
Proof.
  unfold to_int. destruct (ftrunc x) as [z'|]; [|discriminate].
  destruct (in_int z') eqn:Hz; [|discriminate]. intros [= <-]. auto.
Qed.

(** What the final solve stores, for a conversion to [int] that truncates
    the values that fit and does anything with the others. *)
Lemma truncating_solve (convert : double -> exec Z) (C0 : list Z) (V : Mat)
    (problem : QSprob) (C' : list Z) :
  (forall x z, ftrunc x = Some z -> in_int z = true -> convert x = Ret z) ->
  solveOptimizationProblem QSopt_solution convert C0 V None = Ret (problem, C') ->
  length C' = length C0 /\
  forall i, (i < length C0)%nat ->
    (forall z, ftrunc (QSopt_solution problem i) = Some z -> in_int z = true ->
               C' !! i = Some z) /\
    (valid_binary D.prec D.emax (QSopt_solution problem i) = true ->
     flt (SFabs (QSopt_solution problem i)) d_one = true ->
     C' !! i = Some 0).
Proof.
  intros Hconvert H.
  apply solveOptimizationProblem_inv in H as (_ & Hlen & Hsol).
  split; [exact Hlen|]. intros i Hi.
  destruct (Hsol i Hi) as (x & Hx & HC).
  assert (Hfits : forall z, ftrunc (QSopt_solution problem i) = Some z ->
                            in_int z = true -> C' !! i = Some z).
  { intros z Hz Hin. rewrite (Hconvert _ _ Hz Hin) in Hx. injection Hx as <-. exact HC. }
  split; [exact Hfits|].
  intros Hvalid Hlt.
  destruct (to_int_Ret _ _ (to_int_below_one _ Hvalid Hlt)) as [Hz Hin].
  exact (Hfits 0 Hz Hin).
Qed.

(** X13: the final solution is stored in a vector of [int].  Whatever the
    conversion does with a value outside the range of [int] (the language
    leaves it undefined), the final solve leaves C at its length, and an
    entry whose solver value, truncated toward zero, lies in the range of
    [int] holds that truncated value; so a value of magnitude below 1.0 is
    stored as 0, however close to 1.0.  For a run that returns, these are
    the entries of the final vector, one per kept column. *)
Theorem final_solution_is_truncated (r : Result) :
  (forall (convert : double -> exec Z) (C0 : list Z) (V : Mat) (problem : QSprob)
          (C' : list Z),
     (forall x z, ftrunc x = Some z -> in_int z = true -> convert x = Ret z) ->
     solveOptimizationProblem QSopt_solution convert C0 V None = Ret (problem, C') ->
     length C' = length C0 /\
     forall i, (i < length C0)%nat ->
       (forall z, ftrunc (QSopt_solution problem i) = Some z -> in_int z = true ->
                  C' !! i = Some z) /\
       (valid_binary D.prec D.emax (QSopt_solution problem i) = true ->
        flt (SFabs (QSopt_solution problem i)) d_one = true ->
        C' !! i = Some 0)) /\
  (run = Ret r ->
   let solution := QSopt_solution (res_final_problem r) in
   length (res_C_reduced r) =
     Z.to_nat (Z.of_nat (length (spec_kept_columns (C (res_loop r)))) mod 2 ^ 32) /\
   forall i, (i < length (res_C_reduced r))%nat ->
     (forall z, ftrunc (solution i) = Some z -> in_int z = true ->
                res_C_reduced r !! i = Some z) /\
     (valid_binary D.prec D.emax (solution i) = true ->
      flt (SFabs (solution i)) d_one = true ->
      res_C_reduced r !! i = Some 0)).
Proof.
  split; [exact truncating_solve|].
  intros H. apply getExplorationPath_final_stage in H.
  destruct H as (_ & _ & _ & _ & _ & Hlen & Hsol). cbv zeta.
  split; [exact Hlen|]. intros i Hi. rewrite Hlen in Hi.
  destruct (Hsol i Hi) as (x & Hx & HC).
  assert (Hfits : forall z, ftrunc (QSopt_solution (res_final_problem r) i) = Some z ->
                            in_int z = true -> res_C_reduced r !! i = Some z).
  { intros z Hz Hin. unfold to_int in Hx. rewrite Hz, Hin in Hx.
    injection Hx as <-. exact HC. }
  split; [exact Hfits|].
  intros Hvalid Hlt.
  destruct (to_int_Ret _ _ (to_int_below_one _ Hvalid Hlt)) as [Hz Hin].
  exact (Hfits 0 Hz Hin).
Qed.



(** X15: once the visibility matrix is built, nothing but the conversion
    of the final solution to [int] can keep the function from returning.
    With a plateau length that fits a [uint] and a solver whose values all
    convert to [int], the re-weighting loop, the reduction (the column
    extraction and the concatenations on matrices of matching height) and
    the final solve all run through, on the cells, poses and V found before. *)
Theorem run_returns_once_V_is_built (cell_centers : list Point) (poses : list Pose2D)
    (V : Mat) :
  get_cell_centers fuel room_map cell_size room_min_max_coordinates = Ret cell_centers ->
  get_candidate_poses PI fuel delta_theta cell_centers [] = Ret poses ->
  build_V std_sin std_cos std_acos pointPolygonTest LineIterator room_map map_resolution
    max_fow_angle smallest_robot_to_fow_distance largest_robot_to_fow_distance
    map_origin footprint robot_to_fow_middlepoint_vector cell_centers poses = Ret V ->
  (201 <= fuel)%nat ->
  0 <= sparsity_check_range < 2 ^ 32 ->
  (forall problem i, exists z, to_int (QSopt_solution problem i) = Ret z) ->
  exists r,
    run = Ret r /\
    res_cell_centers r = cell_centers /\
    res_candidate_sensing_poses r = poses /\
    res_V r = V /\
    res_path r = path.
Proof.
  intros Hcells Hposes HV Hfuel Hrange Hconvert.
  unfold getExplorationPath. rewrite Hcells. cbn [mbind exec_bind].
  rewrite Hposes. cbn [mbind exec_bind]. rewrite HV. cbn [mbind exec_bind].
  pose proof (build_V_written _ _ _ _ _ _ _ _ _ _ _ _ _ _ _ _ HV) as Hw.
  apply build_V_spec in HV as (Hwf & Hrows & Hcols & _).
  destruct (relaxation_loop_spec std_exp std_pow QSopt_solution V sparsity_check_range Hw
              fuel (initial_state (length poses)))
    as (st & Hst & _ & HlenC & _); [|cbn; lia|reflexivity|cbn; lia|].
  { cbn. rewrite !length_replicate. reflexivity. }
  rewrite Hst. cbn [mbind exec_bind].
  assert (Hlen : (length (C st) <= mat_cols V)%nat).
  { rewrite HlenC, Hcols. cbn. rewrite !length_replicate. lia. }
  rewrite <- Hrows, (reduce_problem_spec V Hwf (C st) Hlen). cbn [mbind exec_bind].
  set (kept := spec_kept_columns (C st)).
  set (V_reduced := mkMat (mat_rows V) (length kept) (map (select_columns kept) (mat_data V))).
  assert (Hwr : mat_written V_reduced).
  { intros i k Hi Hk. cbn [V_reduced mat_rows mat_cols] in Hi, Hk.
    destruct (lookup_lt_is_Some_2 kept k Hk) as [j Hj].
    unfold V_reduced, kept. rewrite (reduced_entry V Hwf (C st) i k j Hlen Hj).
    apply Hw; [exact Hi|].
    apply list_elem_of_lookup_2 in Hj. unfold kept in Hj.
    rewrite <- zero_positions_kept in Hj. apply zero_positions_bounds in Hj. lia. }
  unfold solveOptimizationProblem, build_problem.
  rewrite objective_columns_unweighted. cbn [mbind exec_bind].
  destruct (covering_rows_Ret V_reduced Hwr) as [rows Hrs].
  rewrite Hrs. cbn [mbind exec_bind qs_cols].
  rewrite !length_replicate.
  destruct (store_solution_converts to_int
              (QSopt_solution
                 (mkQSprob
                    (replicate (Z.to_nat (Z.of_nat (length kept) mod 2 ^ 32))
                               (mkQScol d_one d_zero d_one))
                    rows (seq 1 (Z.to_nat (Z.of_nat (length kept) mod 2 ^ 32)))))
              (seq 0 (Z.to_nat (Z.of_nat (length kept) mod 2 ^ 32))))
    with (C0 := replicate (Z.to_nat (Z.of_nat (length kept) mod 2 ^ 32)) 0)
    as [C' HC'].
  { intros variable. apply Hconvert. }
  { intros v Hv. apply elem_of_seq in Hv. rewrite length_replicate. lia. }
  rewrite HC'. cbn [mbind exec_bind].
  eexists. split; [reflexivity|]. cbn. repeat split; reflexivity.
Qed.

End FinalStage.

(** ** Steps of a full turn and more *)

Section WideSteps.
Variable PI : double.

(** X16: a step that is not below [2.0*PI] (a full turn or more, an
    infinity, or a NaN) is not refused either: every cell gets exactly one
    candidate pose, with heading 0. *)
Theorem full_turn_step_gives_one_heading (fuel : nat) (delta_theta : double)
    (cell_centers : list Point) :
  flt d_zero (D.mul (D.of_Z 2) PI) = true ->
  flt delta_theta (D.mul (D.of_Z 2) PI) = false ->
  (2 <= fuel)%nat ->
  get_candidate_poses PI fuel delta_theta cell_centers [] =
    Ret (map (fun c => mkPose2D (D.of_Z (pt_x c)) (D.of_Z (pt_y c)) d_zero) cell_centers).
Proof.
  intros Hzero Hdelta Hfuel.
  assert (Hadd : D.add d_zero delta_theta = delta_theta).
  { destruct delta_theta as [s|s| |s m e]; try reflexivity.
    exfalso.
    assert (Hz : flt (S754_zero s) (D.mul (D.of_Z 2) PI) =
                 flt d_zero (D.mul (D.of_Z 2) PI)).
    { unfold flt, SFltb, SFcompare.
      change d_zero with (S754_zero false). reflexivity. }
    congruence. }
  assert (Hone : forall center poses,
             poses_of_center PI fuel delta_theta center d_zero poses =
               Ret (poses ++ map (mkPose2D (D.of_Z (pt_x center)) (D.of_Z (pt_y center)))
                                 [d_zero])).
  { intros center poses. destruct fuel as [|[|fuel']]; [lia|lia|].
    cbn [poses_of_center]. rewrite Hzero, Hadd, Hdelta. reflexivity. }
  rewrite (get_candidate_poses_spec PI delta_theta fuel [d_zero] Hone). cbn [app].
  apply f_equal. induction cell_centers as [|c cs IH]; [reflexivity|].
  cbn [flat_map map app]. apply f_equal. exact IH.
Qed.

End WideSteps.

(** ** The blocks of V of a cell and its own poses *)

Section OwnBlocks.
Variable PI : double.
Variable std_sin std_cos : double -> double.
Variable std_acos : float -> float.
Variable pointPolygonTest : list Point -> Point -> double.
Variable LineIterator : Mat -> Point -> Point -> list Point.
Variable room_map : Mat.
Variable map_resolution : float.
Variable max_fow_angle smallest_robot_to_fow_distance largest_robot_to_fow_distance : double.
Variable map_origin : Point2d.
Variable footprint : list Point32.
Variable robot_to_fow_middlepoint_vector : Vec2f.

(** [std::acos] of a NaN is a NaN (C standard, annex F) *)
Hypothesis acos_nan : std_acos S754_nan = S754_nan.

(** X17: the candidate poses and the visibility test together.  The columns
    of V come in blocks of one width, the number of headings, one block per
    cell, and the block of a cell in that cell's own row is all 0: a cell
    is never covered by a pose standing on it.  So in a room with a single
    cell the whole matrix is 0, whatever the sensor. *)
Theorem own_blocks_of_V_are_zero (fuel : nat) (delta_theta : double) (c : Point)
    (cell_centers : list Point) (poses : list Pose2D) (V : Mat) :
  get_candidate_poses PI fuel delta_theta (c :: cell_centers) [] = Ret poses ->
  build_V std_sin std_cos std_acos pointPolygonTest LineIterator room_map map_resolution
    max_fow_angle smallest_robot_to_fow_distance largest_robot_to_fow_distance
    map_origin footprint robot_to_fow_middlepoint_vector (c :: cell_centers) poses = Ret V ->
  exists headings : nat,
    mat_rows V = length (c :: cell_centers) /\
    mat_cols V = (length (c :: cell_centers) * headings)%nat /\
    (forall i h, (i < length (c :: cell_centers))%nat -> (h < headings)%nat ->
       mat_get V i (i * headings + h) = Some 0) /\
    (cell_centers = [] -> forall j, (j < mat_cols V)%nat -> mat_get V 0 j = Some 0).
Proof.
  intros Hposes HV. pose proof Hposes as Hfirst. cbn [get_candidate_poses] in Hfirst.
  exec_split Hfirst as poses1 Hposes1.
  apply poses_of_center_spec in Hposes1 as (headings & _ & Hany).
  rewrite (get_candidate_poses_spec PI delta_theta fuel headings Hany) in Hposes.
  cbn [app] in Hposes. injection Hposes as <-.
  apply build_V_spec in HV as (_ & Hrows & Hcols & Hall).
  assert (Hwidth : mat_cols V = (length (c :: cell_centers) * length headings)%nat).
  { rewrite Hcols.
    exact (flat_map_product_length
             (fun c => mkPose2D (D.of_Z (pt_x c)) (D.of_Z (pt_y c))) headings
             (c :: cell_centers)). }
  assert (Hblock : forall i h, (i < length (c :: cell_centers))%nat ->
             (h < length headings)%nat ->
             mat_get V i (i * length headings + h) = Some 0).
  { intros i h Hi Hh.
    destruct (lookup_lt_is_Some_2 (c :: cell_centers) i Hi) as [center Hcenter].
    destruct (lookup_lt_is_Some_2 headings h Hh) as [heading Hheading].
    pose proof (flat_map_product_lookup
                  (fun c => mkPose2D (D.of_Z (pt_x c)) (D.of_Z (pt_y c))) headings
                  (c :: cell_centers) i h center heading Hcenter Hheading) as Hpose.
    destruct (Hall i (i * length headings + h)%nat center _ Hcenter Hpose)
      as (fow & b & _ & Hb & Hget & _).
    rewrite Hget.
    eapply own_cell_branch in Hb as [-> | ->]; [reflexivity|reflexivity|exact acos_nan]. }
  exists (length headings).
  split; [exact Hrows|]. split; [exact Hwidth|]. split; [exact Hblock|].
  intros -> j Hj. rewrite Hwidth in Hj. cbn [length] in Hj.
  replace j with (0 * length headings + j)%nat by lia.
  apply Hblock; cbn [length]; lia.
Qed.

End OwnBlocks.

(** ** A map resolution of zero *)

(** A quotient by a zero is an infinity or a NaN. *)
Lemma div_zero_not_finite (a : double) (s : bool) :
  let q := D.div a (D.round (S754_zero s)) in
  ((exists sign, q = S754_infinity sign) \/ q = S754_nan) /\ ftrunc q = None.
Proof.
  destruct a as [sa|sa| |sa m e]; cbn; split; try reflexivity; eauto.
Qed.

Lemma to_int_div_zero (a : double) (s : bool) :
  to_int (D.div a (D.round (S754_zero s))) = Undef.
Proof. destruct a as [sa|sa| |sa m e]; reflexivity. Qed.

Section ZeroResolution.
Variable std_sin std_cos : double -> double.
Variable std_acos : float -> float.
Variable pointPolygonTest : list Point -> Point -> double.
Variable LineIterator : Mat -> Point -> Point -> list Point.
Variable room_map : Mat.
Variable max_fow_angle smallest_robot_to_fow_distance largest_robot_to_fow_distance : double.
Variable map_origin : Point2d.
Variable robot_to_fow_middlepoint_vector : Vec2f.

(** X18: a map resolution of 0 is not refused, and it takes the code out
    of the defined behaviour of C++.  A pixel coordinate of a transformed
    footprint point is a quotient by the resolution: with resolution 0.0 it
    is an infinity or a NaN whatever the numerator, a value that has no
    truncation, so its conversion to the [int] of [cv::Point] is left
    undefined by the language.  The code makes this conversion for every
    footprint point of every pose: with one of each, the outcome of
    building V is [Undef], not a defined matrix.  What a given platform
    stores in the point is outside the statement. *)
Theorem zero_map_resolution_is_undefined (s : bool) (corner : Point32)
    (footprint : list Point32) (cell_centers : list Point) (pose : Pose2D)
    (poses : list Pose2D) :
  (forall numerator : double,
     let coordinate := D.div numerator (D.round (S754_zero s)) in
     ((exists sign, coordinate = S754_infinity sign) \/ coordinate = S754_nan) /\
     ftrunc coordinate = None /\
     to_int coordinate = Undef) /\
  (forall R pose_m,
     transform_fow_point room_map (S754_zero s) map_origin R pose_m corner = Undef) /\
  build_V std_sin std_cos std_acos pointPolygonTest LineIterator room_map (S754_zero s)
    max_fow_angle smallest_robot_to_fow_distance largest_robot_to_fow_distance
    map_origin (corner :: footprint) robot_to_fow_middlepoint_vector
    cell_centers (pose :: poses) = Undef.
Proof.
  assert (Hcorner : forall R pose_m,
            transform_fow_point room_map (S754_zero s) map_origin R pose_m corner = Undef).
  { intros R pose_m. unfold transform_fow_point. cbv zeta.
    rewrite !to_int_div_zero. reflexivity. }
  split; [|split; [exact Hcorner|]].
  - intros numerator. cbv zeta.
    destruct (div_zero_not_finite numerator s) as [Hq Htrunc].
    split; [exact Hq|]. split; [exact Htrunc|apply to_int_div_zero].
  - unfold build_V. cbn [check_poses].
    unfold transformed_fow_points_of. cbn [mapM]. rewrite Hcorner. reflexivity.
Qed.

End ZeroResolution.

(** ** The grid of the discretisation *)

Lemma wrap_int_nonneg (z : Z) :
  0 <= z < 2 ^ 32 -> 0 <= wrap_int z -> z < 2 ^ 31 /\ wrap_int z = z.
Proof.
  unfold wrap_int. intros Hz Hw.
  destruct (Z.lt_ge_cases z (2 ^ 31)) as [Hlt|Hge].
  - split; [exact Hlt|]. rewrite Z.mod_small by lia. lia.
  - exfalso.
    replace (z + 2 ^ 31) with (z - 2 ^ 31 + 1 * 2 ^ 32) in Hw by lia.
    rewrite Z.mod_add, Z.mod_small in Hw by lia. lia.
Qed.

Lemma flat_map_seq_S {A} (f : nat -> list A) (k : nat) :
  flat_map f (seq 1 k) = flat_map (fun i => f (S i)) (seq 0 k).
Proof.
  generalize 0%nat. induction k as [|k IH]; intros start; cbn [seq flat_map]; [reflexivity|].
  f_equal. apply IH.
Qed.

Section GridFacts.
Variable room_map : Mat.
Variable cell_size : Z.
Hypothesis cell_size_int : 0 < cell_size < 2 ^ 31.

(** what one grid point adds to the cells *)
Local Abbreviation cell_at x y :=
  (match mat_at room_map y x with Ret 255 => [mkPoint x y] | _ => [] end).

Lemma cells_of_line_closed (max_x : float) (y : Z) :
  forall fuel x cell_centers res,
    0 <= x < 2 ^ 32 ->
    cells_of_line fuel room_map cell_size max_x y x cell_centers = Ret res ->
    exists k : nat,
      (forall i, (i < k)%nat ->
         fle (F.of_Z (x + Z.of_nat i * cell_size)) max_x = true /\
         0 <= wrap_int y /\
         x + Z.of_nat i * cell_size < 2 ^ 31 /\
         exists v, mat_at room_map (wrap_int y) (x + Z.of_nat i * cell_size) = Ret v) /\
      fle (F.of_Z (x + Z.of_nat k * cell_size)) max_x = false /\
      res = cell_centers ++
            flat_map (fun i => cell_at (x + Z.of_nat i * cell_size) (wrap_int y)) (seq 0 k).
Proof.
  induction fuel as [|fuel IH]; intros x acc res Hx H; cbn [cells_of_line] in H;
    [discriminate|].
  destruct (fle (F.of_Z x) max_x) eqn:Htest.
  - exec_split H as v Hv.
    pose proof (mat_at_Ret _ _ _ _ Hv) as (Hy & Hxw & _).
    destruct (wrap_int_nonneg x Hx Hxw) as [Hsmall Hwrap]. rewrite Hwrap in Hv, H.
    assert (Hnext : wrap_size_t (x + cell_size) = x + cell_size).
    { unfold wrap_size_t. apply Z.mod_small. lia. }
    rewrite Hnext in H.
    apply IH in H as (k & Hall & Hstop & ->); [|lia].
    exists (S k). split; [|split].
    + intros [|i] Hi.
      * rewrite Z.mul_0_l, Z.add_0_r. eauto.
      * destruct (Hall i) as (Hi1 & Hi2 & Hi3 & Hi4); [lia|].
        replace (x + Z.of_nat (S i) * cell_size)
          with (x + cell_size + Z.of_nat i * cell_size) by lia.
        auto.
    + replace (x + Z.of_nat (S k) * cell_size)
        with (x + cell_size + Z.of_nat k * cell_size) by lia.
      exact Hstop.
    + cbn [seq flat_map]. rewrite flat_map_seq_S.
      rewrite Z.mul_0_l, Z.add_0_r, Hv.
      assert (Hfirst : (if v =? 255 then acc ++ [mkPoint x (wrap_int y)] else acc) =
                       acc ++ match v with 255 => [mkPoint x (wrap_int y)] | _ => [] end).
      { destruct (Z.eqb_spec v 255) as [->|Hne]; [reflexivity|].
        rewrite <- (app_nil_r acc) at 1. f_equal.
        destruct v as [|p|p]; try reflexivity.
        do 8 (destruct p as [p|p|]; try reflexivity). congruence. }
      rewrite Hfirst, <- app_assoc. f_equal. f_equal.
      apply flat_map_ext. intros i.
      replace (x + cell_size + Z.of_nat i * cell_size)
        with (x + Z.of_nat (S i) * cell_size) by lia.
      reflexivity.
  - injection H as <-. exists 0%nat. split; [intros i Hi; lia|].
    split; [rewrite Z.mul_0_l, Z.add_0_r; exact Htest|].
    cbn. rewrite app_nil_r. reflexivity.
Qed.

Lemma cells_of_lines_closed (min_x max_x max_y : float) (x0 : Z) (kx : nat) :
  grid_start min_x cell_size = Ret x0 ->
  0 <= x0 < 2 ^ 32 ->
  (0 < kx)%nat ->
  (forall i, (i < kx)%nat -> fle (F.of_Z (x0 + Z.of_nat i * cell_size)) max_x = true) ->
  fle (F.of_Z (x0 + Z.of_nat kx * cell_size)) max_x = false ->
  forall fuel y cell_centers res,
    0 <= y < 2 ^ 32 ->
    cells_of_lines fuel room_map cell_size min_x max_x max_y y cell_centers = Ret res ->
    exists ky : nat,
      (forall j, (j < ky)%nat ->
         fle (F.of_Z (y + Z.of_nat j * cell_size)) max_y = true /\
         y + Z.of_nat j * cell_size < 2 ^ 31 /\
         forall i, (i < kx)%nat ->
           x0 + Z.of_nat i * cell_size < 2 ^ 31 /\
           exists v, mat_at room_map (y + Z.of_nat j * cell_size)
                       (x0 + Z.of_nat i * cell_size) = Ret v) /\
      fle (F.of_Z (y + Z.of_nat ky * cell_size)) max_y = false /\
      res = cell_centers ++ grid_cells room_map cell_size x0 y kx ky.
Proof.
  intros Hstart Hx0 Hkx Hpass Hstop.
  induction fuel as [|fuel IH]; intros y acc res Hy H; cbn [cells_of_lines] in H;
    [discriminate|].
  destruct (fle (F.of_Z y) max_y) eqn:Htest.
  - rewrite Hstart in H. cbn [mbind exec_bind] in H.
    exec_split H as acc' Hline.
    apply cells_of_line_closed in Hline as (k & Hall & Hk & ->); [|exact Hx0].
    assert (Heq : k = kx).
    { destruct (Nat.lt_trichotomy k kx) as [Hlt|[Heq|Hgt]]; [|exact Heq|].
      - rewrite (Hpass k Hlt) in Hk. discriminate.
      - destruct (Hall kx Hgt) as (Hp & _). congruence. }
    subst k.
    destruct (Hall 0%nat Hkx) as (_ & Hyw & _).
    destruct (wrap_int_nonneg y Hy Hyw) as [Hsmall Hwrap]. rewrite Hwrap in *.
    assert (Hnext : wrap_size_t (y + cell_size) = y + cell_size).
    { unfold wrap_size_t. apply Z.mod_small. lia. }
    rewrite Hnext in H.
    apply IH in H as (ky & Hlines & Hend & ->); [|lia].
    exists (S ky). split; [|split].
    + intros [|j] Hj.
      * rewrite Z.mul_0_l, Z.add_0_r. split; [exact Htest|]. split; [exact Hsmall|].
        intros i Hi. destruct (Hall i Hi) as (_ & _ & Hi3 & Hi4). auto.
      * destruct (Hlines j) as (Hj1 & Hj2 & Hj3); [lia|].
        replace (y + Z.of_nat (S j) * cell_size)
          with (y + cell_size + Z.of_nat j * cell_size) by lia.
        auto.
    + replace (y + Z.of_nat (S ky) * cell_size)
        with (y + cell_size + Z.of_nat ky * cell_size) by lia.
      exact Hend.
    + unfold grid_cells. cbn [seq flat_map]. rewrite flat_map_seq_S.
      rewrite <- app_assoc. f_equal. f_equal.
      * apply flat_map_ext. intros i. cbv zeta.
        rewrite Z.mul_0_l, Z.add_0_r. reflexivity.
      * apply flat_map_ext. intros j. apply flat_map_ext. intros i. cbv zeta.
        replace (y + cell_size + Z.of_nat j * cell_size)
          with (y + Z.of_nat (S j) * cell_size) by lia.
        reflexivity.
  - injection H as <-. exists 0%nat. split; [intros j Hj; lia|].
    split; [rewrite Z.mul_0_l, Z.add_0_r; exact Htest|].
    cbn. rewrite app_nil_r. reflexivity.
Qed.

(** X20: the discretisation in closed form.  With a positive cell size and
    a grid that starts inside the bounds, at coordinates that fit an [int],
    the two loops return exactly the grid points
    [(x0 + i*cell_size, y0 + j*cell_size)] whose pixel is 255, line by line
    and from left to right in each line: [i < kx] and [j < ky], where [kx]
    and [ky] are the first indices whose coordinate fails the test against
    the upper bound.  Every grid point in that range was read and lies
    inside the map: a run whose bounds reach beyond the map does not
    return. *)
Theorem cell_centers_are_the_free_grid_pixels (fuel : nat) (p0 p1 : Point32)
    (others : list Point32) (x0 y0 : Z) (cell_centers : list Point) :
  grid_start (p32_x p0) cell_size = Ret x0 ->
  grid_start (p32_y p0) cell_size = Ret y0 ->
  x0 < 2 ^ 31 -> y0 < 2 ^ 31 ->
  fle (F.of_Z x0) (p32_x p1) = true ->
  fle (F.of_Z y0) (p32_y p1) = true ->
  get_cell_centers fuel room_map cell_size (p0 :: p1 :: others) = Ret cell_centers ->
  exists kx ky : nat,
    (0 < kx)%nat /\ (0 < ky)%nat /\
    (forall i, (i < kx)%nat ->
       fle (F.of_Z (x0 + Z.of_nat i * cell_size)) (p32_x p1) = true) /\
    fle (F.of_Z (x0 + Z.of_nat kx * cell_size)) (p32_x p1) = false /\
    (forall j, (j < ky)%nat ->
       fle (F.of_Z (y0 + Z.of_nat j * cell_size)) (p32_y p1) = true) /\
    fle (F.of_Z (y0 + Z.of_nat ky * cell_size)) (p32_y p1) = false /\
    (forall i j, (i < kx)%nat -> (j < ky)%nat ->
       is_Some (mat_get room_map (Z.to_nat (y0 + Z.of_nat j * cell_size))
                        (Z.to_nat (x0 + Z.of_nat i * cell_size)))) /\
    cell_centers = grid_cells room_map cell_size x0 y0 kx ky.
Proof.
  intros Hx0 Hy0 Hxs Hys Hxt Hyt H.
  pose proof (to_size_t_range _ _ Hx0) as Hxr.
  pose proof (to_size_t_range _ _ Hy0) as Hyr.
  unfold get_cell_centers in H. cbn [lookup list_lookup of_option mbind exec_bind] in H.
  rewrite Hy0 in H. cbn [mbind exec_bind] in H.
  (* the first line gives [kx] *)
  assert (Hkx : exists kx : nat,
             (0 < kx)%nat /\
             (forall i, (i < kx)%nat ->
                fle (F.of_Z (x0 + Z.of_nat i * cell_size)) (p32_x p1) = true) /\
             fle (F.of_Z (x0 + Z.of_nat kx * cell_size)) (p32_x p1) = false).
  { destruct fuel as [|fuel']; cbn [cells_of_lines] in H; [discriminate|].
    rewrite Hyt, Hx0 in H. cbn [mbind exec_bind] in H.
    exec_split H as line Hline.
    apply cells_of_line_closed in Hline as (k & Hall & Hk & _); [|lia].
    exists k. split; [|split; [|exact Hk]].
    - destruct k as [|k]; [|lia].
      rewrite Z.mul_0_l, Z.add_0_r in Hk. congruence.
    - intros i Hi. apply Hall. exact Hi. }
  destruct Hkx as (kx & Hkx & Hpass & Hstop).
  apply (cells_of_lines_closed (p32_x p0) (p32_x p1) (p32_y p1) x0 kx Hx0) in H;
    [|lia|exact Hkx|exact Hpass|exact Hstop|lia].
  destruct H as (ky & Hlines & Hend & Hres).
  exists kx, ky. split; [exact Hkx|]. split.
  { destruct ky as [|ky]; [|lia].
    rewrite Z.mul_0_l, Z.add_0_r in Hend. congruence. }
  split; [exact Hpass|]. split; [exact Hstop|].
  split; [intros j Hj; apply Hlines; exact Hj|]. split; [exact Hend|].
  split; [|exact Hres].
  intros i j Hi Hj. destruct (Hlines j Hj) as (_ & _ & Hread).
  destruct (Hread i Hi) as (_ & v & Hv).
  apply mat_at_Ret in Hv as (_ & _ & Hget). rewrite Hget. eauto.
Qed.

End GridFacts.

(** ** A negative heading step *)

Lemma shr_1_nonneg (mrs : shr_record) : 0 <= shr_m mrs -> 0 <= shr_m (shr_1 mrs).
Proof.
  destruct mrs as [m r s]. cbn [shr_m]. intros Hm.
  destruct m as [|[p|p|]|p]; cbn; lia.
Qed.

Lemma iter_pos_shr_1_nonneg (p : positive) :
  forall mrs, 0 <= shr_m mrs -> 0 <= shr_m (SpecFloat.iter_pos shr_1 p mrs).
Proof.
  induction p as [p IH|p IH|]; intros mrs Hm; cbn [SpecFloat.iter_pos].
  - apply IH, IH, shr_1_nonneg, Hm.
  - apply IH, IH, Hm.
  - apply shr_1_nonneg, Hm.
Qed.

Lemma shr_fexp_nonneg (prec emax m e : Z) (l : location) :
  0 <= m -> 0 <= shr_m (fst (shr_fexp prec emax m e l)).
Proof.
  intros Hm. unfold shr_fexp, shr.
  assert (Hrec : 0 <= shr_m (shr_record_of_loc m l)) by (destruct l as [|[]]; exact Hm).
  destruct (fexp prec emax (Zdigits2 m + e) - e) as [|p|p]; cbn [fst]; try exact Hrec.
  apply iter_pos_shr_1_nonneg, Hrec.
Qed.

Lemma round_nearest_even_nonneg (m : Z) (l : location) :
  0 <= m -> 0 <= round_nearest_even m l.
Proof.
  intros Hm. destruct l as [|[]]; cbn [round_nearest_even]; try lia.
  destruct (Z.even m); lia.
Qed.

(** Rounding a non-negative mantissa keeps the sign and gives no NaN. *)
Lemma binary_round_aux_sign (prec emax : Z) (sx : bool) (mx ex : Z) (lx : location) :
  0 <= mx ->
  match binary_round_aux prec emax sx mx ex lx with
  | S754_zero s | S754_infinity s | S754_finite s _ _ => s = sx
  | S754_nan => False
  end.
Proof.
  intros Hm. unfold binary_round_aux.
  pose proof (shr_fexp_nonneg prec emax mx ex lx Hm) as H1.
  destruct (shr_fexp prec emax mx ex lx) as [mrs' e']. cbn [fst] in H1.
  pose proof (shr_fexp_nonneg prec emax
                (round_nearest_even (shr_m mrs') (loc_of_shr_record mrs')) e' loc_Exact
                (round_nearest_even_nonneg _ _ H1)) as H2.
  destruct (shr_fexp prec emax _ e' loc_Exact) as [mrs'' e'']. cbn [fst] in H2.
  destruct (shr_m mrs'') as [|m|m]; [reflexivity| |lia].
  destruct (e'' <=? emax - prec); reflexivity.
Qed.

Lemma add_below_zero (a delta : double) :
  non_positive a -> negative delta -> non_positive (D.add a delta).
Proof.
  destruct a as [sa|[|]| |[|] ma ea]; cbn [non_positive]; try contradiction; intros _;
    destruct delta as [sd|[|]| |[|] md ed]; cbn [negative]; try contradiction; intros _;
    try exact I.
  unfold D.add, SFadd. cbn [cond_Zopp].
  match goal with
  | |- non_positive (binary_normalize _ _ (- Z.pos ?a + - Z.pos ?b) _ _) =>
      change (- Z.pos a + - Z.pos b) with (Z.neg (a + b))
  end.
  cbn [binary_normalize]. unfold binary_round.
  destruct (shl_align _ _ _) as [mz ez].
  pose proof (binary_round_aux_sign D.prec D.emax true (Z.pos mz) ez loc_Exact) as Hsign.
  specialize (Hsign ltac:(lia)).
  destruct (binary_round_aux D.prec D.emax true (Z.pos mz) ez loc_Exact) as [s|s| |s m e];
    cbn [non_positive]; try subst s; try exact I.
  exact Hsign.
Qed.

Lemma below_zero_is_below_positive (a bound : double) :
  flt d_zero bound = true -> non_positive a -> flt a bound = true.
Proof.
  unfold flt, SFltb. change d_zero with (S754_zero false).
  destruct bound as [sb|[|]| |[|] mb eb]; cbn; try discriminate; intros _;
    destruct a as [sa|[|]| |[|] ma ea]; cbn; try contradiction; reflexivity.
Qed.

Section NegativeStep.
Variable PI : double.
Variable std_sin std_cos : double -> double.
Variable std_acos : float -> float.
Variable std_exp : double -> double.
Variable std_pow : double -> double -> double.
Variable pointPolygonTest : list Point -> Point -> double.
Variable LineIterator : Mat -> Point -> Point -> list Point.
Variable QSopt_solution : QSprob -> nat -> double.

Lemma negative_step_loops (delta_theta : double) (center : Point) :
  flt d_zero (D.mul (D.of_Z 2) PI) = true ->
  negative delta_theta ->
  forall fuel angle poses,
    non_positive angle ->
    poses_of_center PI fuel delta_theta center angle poses = Diverge.
Proof.
  intros Hpi Hdelta.
  induction fuel as [|fuel IH]; intros angle poses Hangle; cbn [poses_of_center];
    [reflexivity|].
  rewrite (below_zero_is_below_positive _ _ Hpi Hangle).
  apply IH, add_below_zero; assumption.
Qed.

(** X21: a negative heading step is not refused.  With [delta_theta] below
    zero (a negative number or minus infinity) and at least one cell, the
    angle only goes down from 0 and stays below [2.0*PI]: the loop over the
    headings never ends and the run does not return, whatever the loop
    budget. *)
Theorem negative_step_never_returns (fuel : nat) (room_map : Mat) (path : list Pose2D)
    (map_resolution : float) (starting_position : Point) (map_origin : Point2d)
    (cell_size : Z) (delta_theta : double) (room_min_max_coordinates : list Point32)
    (footprint : list Point32) (robot_to_fow_middlepoint_vector : Vec2f)
    (max_fow_angle smallest_robot_to_fow_distance largest_robot_to_fow_distance : double)
    (sparsity_check_range : Z) (c : Point) (cell_centers : list Point) :
  negative delta_theta ->
  flt d_zero (D.mul (D.of_Z 2) PI) = true ->
  get_cell_centers fuel room_map cell_size room_min_max_coordinates
    = Ret (c :: cell_centers) ->
  getExplorationPath PI std_sin std_cos std_acos std_exp std_pow pointPolygonTest
    LineIterator QSopt_solution fuel room_map path map_resolution starting_position
    map_origin cell_size delta_theta room_min_max_coordinates footprint
    robot_to_fow_middlepoint_vector max_fow_angle smallest_robot_to_fow_distance
    largest_robot_to_fow_distance sparsity_check_range = Diverge.
Proof.
  intros Hdelta Hpi Hcells. unfold getExplorationPath.
  rewrite Hcells. cbn [mbind exec_bind get_candidate_poses].
  rewrite (negative_step_loops delta_theta c Hpi Hdelta fuel d_zero []); [reflexivity|].
  exact I.
Qed.

End NegativeStep.

(** ** The LP file with the integer section *)

Lemma getlines_from_no_endl (content : list ascii) :
  forall line, endl ∉ line -> Forall (fun l => endl ∉ l) (getlines_from line content).
Proof.
  induction content as [|c rest IH]; intros line Hline; cbn [getlines_from].
  - destruct line; [constructor|]. constructor; [exact Hline|constructor].
  - destruct (decide (c = endl)) as [->|Hne].
    + constructor; [exact Hline|]. apply IH. apply not_elem_of_nil.
    + apply IH. rewrite elem_of_app, list_elem_of_singleton. intros [H|H]; [exact (Hline H)|congruence].
Qed.

Lemma getlines_from_app (l : list ascii) :
  endl ∉ l ->
  forall line content, getlines_from line (l ++ content) = getlines_from (line ++ l) content.
Proof.
  induction l as [|c l IH]; intros Hl line content; cbn [app getlines_from].
  - rewrite app_nil_r. reflexivity.
  - apply not_elem_of_cons in Hl as [Hc Hl].
    rewrite decide_False by congruence.
    rewrite IH by exact Hl. rewrite <- app_assoc. reflexivity.
Qed.

Lemma getlines_from_line (l : list ascii) (rest line : list ascii) :
  endl ∉ l ->
  getlines_from line (l ++ endl :: rest) = (line ++ l) :: getlines_from [] rest.
Proof.
  intros Hl. rewrite getlines_from_app by exact Hl. cbn [getlines_from].
  rewrite decide_True by reflexivity. reflexivity.
Qed.

Lemma getlines_from_lines (ls : list (list ascii)) (rest : list ascii) :
  Forall (fun l => endl ∉ l) ls ->
  getlines_from [] (concat (map (fun l => l ++ [endl]) ls) ++ rest) =
    ls ++ getlines_from [] rest.
Proof.
  induction 1 as [|l ls Hl _ IH]; cbn [map concat app]; [reflexivity|].
  rewrite <- !app_assoc. cbn [app].
  rewrite getlines_from_line by exact Hl. rewrite IH. reflexivity.
Qed.

Lemma copy_lines_spec (lines : list (list ascii)) :
  forall new_problem,
    copy_lines lines new_problem =
      new_problem ++
      concat (map (fun l => l ++ [endl]) (filter (fun line => line <> text "End") lines)).
Proof.
  unfold copy_lines.
  induction lines as [|line lines IH]; intros out; cbn [foldl].
  - cbn. rewrite app_nil_r. reflexivity.
  - rewrite IH. destruct (decide (line <> text "End")) as [Hne|Heq].
    + rewrite filter_cons_True by exact Hne. cbn [map concat].
      rewrite <- !app_assoc. reflexivity.
    + rewrite filter_cons_False by exact Heq. reflexivity.
Qed.

Lemma write_integer_names_app (variables : list nat) :
  forall new_problem,
    write_integer_names variables new_problem =
      new_problem ++ write_integer_names variables [].
Proof.
  induction variables as [|variable rest IH]; intros out; cbn [write_integer_names].
  - rewrite app_nil_r. reflexivity.
  - cbv zeta. rewrite IH. rewrite (IH (if (variable mod 5 =? 0)%nat then _ else _)).
    destruct (variable mod 5 =? 0)%nat; cbn [app]; rewrite <- ?app_assoc; reflexivity.
Qed.

Lemma digits_no_endl (d : Decimal.uint) :
  endl ∉ text (DecimalString.NilEmpty.string_of_uint d).
Proof.
  induction d as [|d IH|d IH|d IH|d IH|d IH|d IH|d IH|d IH|d IH|d IH];
    cbn [DecimalString.NilEmpty.string_of_uint text String.list_ascii_of_string];
    [apply not_elem_of_nil|..];
    (apply not_elem_of_cons; split; [discriminate|exact IH]).
Qed.

Lemma written_name_no_endl (variable : nat) : endl ∉ text " x" ++ decimal variable.
Proof.
  rewrite elem_of_app. intros [H|H].
  - cbn in H. apply elem_of_cons in H as [H|H]; [discriminate|].
    apply elem_of_cons in H as [H|H]; [discriminate|].
    apply elem_of_nil in H. exact H.
  - exact (digits_no_endl _ H).
Qed.

Lemma integer_names_lines (variables : list nat) :
  forall line,
    endl ∉ line ->
    exists name_lines,
      getlines_from line (write_integer_names variables [] ++ endl :: text "End") =
        name_lines ++ [text "End"] /\
      concat name_lines =
        line ++ concat (map (fun k => text " x" ++ decimal k) variables) /\
      length name_lines =
        S (length (filter (fun k => (k mod 5 = 0)%nat) variables)) /\
      Forall (fun l => endl ∉ l) name_lines.
Proof.
  induction variables as [|variable rest IH]; intros line Hline.
  - exists [line]. cbn [write_integer_names app getlines_from].
    rewrite decide_True by reflexivity.
    split; [reflexivity|]. split; [cbn; rewrite !app_nil_r; reflexivity|].
    split; [reflexivity|]. constructor; [exact Hline|constructor].
  - cbn [write_integer_names]. cbv zeta. rewrite write_integer_names_app.
    cbn [app map concat].
    pose proof (written_name_no_endl variable) as Hname.
    destruct (Nat.eqb_spec (variable mod 5) 0) as [Hfive|Hfive].
    + rewrite filter_cons_True by exact Hfive.
      destruct (IH []) as (name_lines & Hlines & Hconcat & Hlen & Hall);
        [apply not_elem_of_nil|].
      exists ((line ++ text " x" ++ decimal variable) :: name_lines).
      split.
      { rewrite <- ?app_assoc. cbn [app].
        change (String.String " " (String.String "x" String.EmptyString))
          with " x"%string.
        rewrite (app_assoc (text " x") (decimal variable)).
        rewrite getlines_from_line by exact Hname.
        rewrite Hlines. reflexivity. }
      split; [cbn [concat]; rewrite Hconcat; cbn [app]; rewrite <- ?app_assoc; reflexivity|].
      split; [cbn [length]; rewrite Hlen; reflexivity|].
      constructor; [|exact Hall].
      rewrite elem_of_app. intros [H|H]; [exact (Hline H)|exact (Hname H)].
    + rewrite filter_cons_False by exact Hfive.
      destruct (IH (line ++ text " x" ++ decimal variable))
        as (name_lines & Hlines & Hconcat & Hlen & Hall).
      { rewrite elem_of_app. intros [H|H]; [exact (Hline H)|exact (Hname H)]. }
      exists name_lines. split.
      { rewrite <- Hlines, <- ?app_assoc.
        rewrite (app_assoc (text " x") (decimal variable)).
        rewrite getlines_from_app by exact Hname. rewrite <- ?app_assoc. reflexivity. }
      split; [rewrite Hconcat, <- ?app_assoc; reflexivity|].
      split; [exact Hlen|exact Hall].
Qed.

Lemma multiples_of_five (n : nat) :
  length (filter (fun k => (k mod 5 = 0)%nat) (seq 1 n)) = (n / 5)%nat.
Proof.
  induction n as [|n IH]; [reflexivity|].
  rewrite seq_S, filter_app, length_app, IH. cbn [Nat.add].
  pose proof (Nat.div_mod_eq n 5) as Hn.
  pose proof (Nat.div_mod_eq (S n) 5) as HSn.
  pose proof (Nat.mod_upper_bound n 5) as Hr.
  pose proof (Nat.mod_upper_bound (S n) 5) as HSr.
  destruct (decide (S n mod 5 = 0)%nat) as [Hfive|Hfive].
  - rewrite filter_cons_True by exact Hfive. rewrite filter_nil. cbn [length]. lia.
  - rewrite filter_cons_False by exact Hfive. rewrite filter_nil. cbn [length]. lia.
Qed.

(** X19: what a reader of [int_lin_prog.lp] gets, line by line: the lines of
    [lin_prog.lp] in their order without those that are exactly [End]; the
    line [Integer]; the lines of the integer section, which together hold
    the names [ x1 ... xn] in increasing order and nothing else, on
    [n/5 + 1] lines (the last one is empty when [n] is a multiple of 5);
    and the line [End], which is the last one. *)
Theorem integer_section_is_read_back (original_problem : list ascii) (n : nat) :
  exists name_lines,
    getlines (int_lin_prog original_problem n) =
      filter (fun line => line <> text "End") (getlines original_problem)
      ++ [text "Integer"] ++ name_lines ++ [text "End"] /\
    concat name_lines = concat (map (fun k => text " x" ++ decimal k) (seq 1 n)) /\
    length name_lines = S (n / 5) /\
    Forall (fun line => endl ∉ line) name_lines.
Proof.
  destruct (integer_names_lines (seq 1 n) []) as (name_lines & Hlines & Hconcat & Hlen & Hall);
    [apply not_elem_of_nil|].
  exists name_lines.
  split; [|split; [exact Hconcat|split; [rewrite Hlen, multiples_of_five; reflexivity|exact Hall]]].
  unfold getlines, int_lin_prog. cbv zeta.
  rewrite write_integer_names_app, copy_lines_spec. cbn [app].
  rewrite <- !app_assoc.
  rewrite getlines_from_lines.
  - f_equal. cbn [app].
    assert (Hinteger : endl ∉ text "Integer").
    { intros H. repeat (apply elem_of_cons in H as [H|H]; [discriminate|]).
      apply elem_of_nil in H. exact H. }
    rewrite (getlines_from_line (text "Integer") _ [] Hinteger). cbn [app].
    f_equal. exact Hlines.
  - apply Forall_forall. intros l Hl. apply list_elem_of_filter in Hl as [_ Hl].
    pose proof (getlines_from_no_endl original_problem [] (not_elem_of_nil _)) as Hno.
    rewrite Forall_forall in Hno. apply Hno. exact Hl.
Qed.

(** A file of two lines and six variables. *)
Example int_lin_prog_of_six_variables :
  int_lin_prog (text "Minimize" ++ [endl] ++ text "End" ++ [endl]) 6 =
    text "Minimize" ++ [endl] ++ text "Integer" ++ [endl] ++
    text " x1 x2 x3 x4 x5" ++ [endl] ++ text " x6" ++ [endl] ++ text "End".
Proof. vm_compute. reflexivity. Qed.

(** ** The further properties at concrete inputs *)

(** Room A: the right cell is a pixel of value 255. *)
Lemma cell_centers_are_free_pixels_witness :
  get_cell_centers 300 Scenario.two_cells 1 (Scenario.bounds 1) =
    Ret [mkPoint 0 0; mkPoint 1 0] /\
  mat_get Scenario.two_cells (Z.to_nat (pt_y (mkPoint 1 0))) (Z.to_nat (pt_x (mkPoint 1 0)))
    = Some 255.
Proof.
  assert (Hcells : get_cell_centers 300 Scenario.two_cells 1 (Scenario.bounds 1) =
                   Ret [mkPoint 0 0; mkPoint 1 0]) by (vm_compute; reflexivity).
  split; [exact Hcells|].
  apply (cell_centers_are_free_pixels Scenario.two_cells 1 300 (Scenario.bounds 1)
           [mkPoint 0 0; mkPoint 1 0] Hcells (mkPoint 1 0)).
  right. left.
Defined.

(** Room A with [delta_theta = PI]: two cells, two headings each. *)
Lemma candidate_poses_are_cells_times_headings_witness :
  let poses := res_candidate_sensing_poses Scenario.two_cells_result in
  get_candidate_poses Scenario.PI 300 Scenario.PI [mkPoint 0 0; mkPoint 1 0] [] = Ret poses /\
  exists headings,
    heading_chain Scenario.PI Scenario.PI d_zero headings /\
    length poses = (2 * length headings)%nat /\
    poses = flat_map (fun c => map (mkPose2D (D.of_Z (pt_x c)) (D.of_Z (pt_y c))) headings)
                     [mkPoint 0 0; mkPoint 1 0].
Proof.
  assert (Hposes : get_candidate_poses Scenario.PI 300 Scenario.PI
                     [mkPoint 0 0; mkPoint 1 0] [] =
                   Ret (res_candidate_sensing_poses Scenario.two_cells_result))
    by (vm_compute; reflexivity).
  split; [exact Hposes|].
  destruct (candidate_poses_are_cells_times_headings Scenario.PI 300 Scenario.PI
              (mkPoint 0 0) [mkPoint 1 0]
              (res_candidate_sensing_poses Scenario.two_cells_result) Hposes)
    as (headings & Hchain & Heq & Hlen & _).
  exists headings. split; [exact Hchain|]. split; [exact Hlen|exact Heq].
Defined.

(** Room A with [delta_theta = 0] does not return; with [cell_size = 0] and
    bounds whose lower edge lies above the upper one there is no cell. *)
Lemma zero_steps_never_return_witness :
  Scenario.run 300 Scenario.two_cells [] Scenario.f_one (mkPoint 0 0)
    (mkPoint2d d_zero d_zero) 1 (S754_zero false) (Scenario.bounds 1) Scenario.footprint
    (mkVec2f Scenario.f_one Scenario.f_zero) (D.lit 32 1) d_zero d_one 2 = Diverge /\
  get_cell_centers 300 Scenario.two_cells 0
    [mkPoint32 Scenario.f_zero Scenario.f_one Scenario.f_zero;
     mkPoint32 Scenario.f_one Scenario.f_zero Scenario.f_zero] = Ret [].
Proof.
  split.
  - apply (proj1 (zero_steps_never_return Scenario.PI Scenario.sin Scenario.cos
                    Scenario.acos Scenario.exp Scenario.pow Scenario.pointPolygonTest
                    Scenario.LineIterator Scenario.QSopt_solution 300 Scenario.two_cells []
                    Scenario.f_one (mkPoint 0 0) (mkPoint2d d_zero d_zero) 1 false
                    (Scenario.bounds 1) Scenario.footprint
                    (mkVec2f Scenario.f_one Scenario.f_zero) (D.lit 32 1) d_zero d_one 2)
             (mkPoint 0 0) [mkPoint 1 0]).
    + vm_compute. reflexivity.
    + vm_compute. reflexivity.
  - vm_compute. reflexivity.
Defined.

(** Room A, the pose at the left cell with heading 0: the footprint
    reaches three pixels to every side and is cut down to the 2 x 1 map. *)
Lemma transformed_footprint_is_clamped_witness :
  exists fow,
    transformed_fow_points_of Scenario.sin Scenario.cos Scenario.two_cells Scenario.f_one
      (mkPoint2d d_zero d_zero) Scenario.footprint (mkPose2D d_zero d_zero d_zero) = Ret fow /\
    fow = [mkPoint 0 0; mkPoint 2 0; mkPoint 2 1; mkPoint 0 1] /\
    length fow = length Scenario.footprint /\
    Forall (fun p => 0 <= pt_x p <= Z.of_nat (mat_cols Scenario.two_cells) /\
                     0 <= pt_y p <= Z.of_nat (mat_rows Scenario.two_cells)) fow.
Proof.
  assert (Hfow : transformed_fow_points_of Scenario.sin Scenario.cos Scenario.two_cells
                   Scenario.f_one (mkPoint2d d_zero d_zero) Scenario.footprint
                   (mkPose2D d_zero d_zero d_zero) =
                 Ret [mkPoint 0 0; mkPoint 2 0; mkPoint 2 1; mkPoint 0 1])
    by (vm_compute; reflexivity).
  exists [mkPoint 0 0; mkPoint 2 0; mkPoint 2 1; mkPoint 0 1].
  split; [exact Hfow|]. split; [reflexivity|].
  exact (transformed_footprint_is_clamped Scenario.sin Scenario.cos Scenario.two_cells
           Scenario.f_one (mkPoint2d d_zero d_zero) Scenario.footprint
           (mkPose2D d_zero d_zero d_zero)
           [mkPoint 0 0; mkPoint 2 0; mkPoint 2 1; mkPoint 0 1] Hfow).
Defined.

(** Room A: the pose with heading 0 at the right cell (candidate 2) does
    not see the right cell (cell 1), although the sensor sees all around
    from distance 0 on. *)
Lemma pose_never_sees_its_own_cell_witness :
  res_cell_centers Scenario.two_cells_result !! 1%nat = Some (mkPoint 1 0) /\
  res_candidate_sensing_poses Scenario.two_cells_result !! 2%nat =
    Some (mkPose2D (D.of_Z 1) (D.of_Z 0) d_zero) /\
  mat_get Scenario.two_cells_V 1 2 = Some 0.
Proof.
  split; [reflexivity|]. split; [reflexivity|].
  apply (pose_never_sees_its_own_cell Scenario.sin Scenario.cos Scenario.acos
           Scenario.pointPolygonTest Scenario.LineIterator Scenario.two_cells Scenario.f_one
           (D.lit 32 1) d_zero d_one (mkPoint2d d_zero d_zero) Scenario.footprint
           (mkVec2f Scenario.f_one Scenario.f_zero) eq_refl
           (res_cell_centers Scenario.two_cells_result)
           (res_candidate_sensing_poses Scenario.two_cells_result)
           Scenario.two_cells_V 1 2 (mkPoint 1 0) d_zero).
  - vm_compute. reflexivity.
  - reflexivity.
  - reflexivity.
Defined.

(** Room A, the final problem: both rows have one variable. *)
Lemma solver_problem_is_the_covering_program_witness :
  let V_reduced := res_V_reduced Scenario.two_cells_result in
  let problem := res_final_problem Scenario.two_cells_result in
  build_problem 2 V_reduced None = Ret problem /\
  qs_integer problem = [1; 2]%nat /\
  length (qs_cols problem) = 2%nat /\
  length (qs_rows problem) = mat_rows V_reduced /\
  qs_rows problem !! 0%nat = Some (mkQSrow [1] [d_one] d_one QS_G) /\
  qs_rows problem !! 1%nat = Some (mkQSrow [0] [d_one] d_one QS_G).
Proof.
  assert (Hp : build_problem 2 (res_V_reduced Scenario.two_cells_result) None =
               Ret (res_final_problem Scenario.two_cells_result))
    by (vm_compute; reflexivity).
  destruct (solver_problem_is_the_covering_program 2
              (res_V_reduced Scenario.two_cells_result) None
              (res_final_problem Scenario.two_cells_result) Hp)
    as (Hint & Hcols & _ & Hrows & Hrow).
  split; [exact Hp|]. split; [exact Hint|]. split; [exact Hcols|]. split; [exact Hrows|].
  split.
  - apply (Hrow 0%nat). vm_compute. lia.
  - apply (Hrow 1%nat). vm_compute. lia.
Defined.

(** Room A, the final solve: the vector [0, 0] becomes [1, 1], and so does
    the vector [7, 7]. *)
Lemma solution_overwrites_C_witness :
  let V_reduced := res_V_reduced Scenario.two_cells_result in
  let problem := res_final_problem Scenario.two_cells_result in
  solveOptimizationProblem Scenario.QSopt_solution to_int [0; 0] V_reduced None =
    Ret (problem, [1; 1]) /\
  solveOptimizationProblem Scenario.QSopt_solution to_int [7; 7] V_reduced None =
    Ret (problem, [1; 1]).
Proof.
  assert (Hsolve : solveOptimizationProblem Scenario.QSopt_solution to_int [0; 0]
                     (res_V_reduced Scenario.two_cells_result) None =
                   Ret (res_final_problem Scenario.two_cells_result, [1; 1]))
    by (vm_compute; reflexivity).
  split; [exact Hsolve|].
  destruct (solution_overwrites_C Scenario.QSopt_solution (T := Z) to_int [0; 0]
              (res_V_reduced Scenario.two_cells_result) None
              (res_final_problem Scenario.two_cells_result) [1; 1] Hsolve)
    as (_ & _ & _ & Hany).
  apply (Hany [7; 7]). reflexivity.
Defined.

(** A vector with a zero, a one, a NaN and a negative value: the zero and
    the negative value are counted. *)
Lemma l0_eps_measure_counts_small_entries_witness :
  let C0 := [d_zero; d_one; S754_nan; D.of_Z (-1)] in
  l0_eps_measure C0 = Z.of_nat (length (filter (fun c => fle c (D.lit 1 2) = true) C0)) /\
  0 <= l0_eps_measure C0 <= Z.of_nat (length C0) /\
  l0_eps_measure C0 = 2.
Proof.
  destruct (l0_eps_measure_counts_small_entries [d_zero; d_one; S754_nan; D.of_Z (-1)])
    as (Hcount & Hbounds & _).
  - vm_compute. reflexivity.
  - split; [exact Hcount|]. split; [exact Hbounds|]. vm_compute. reflexivity.
Defined.

(** Room A, the first iteration. *)
Lemma iteration_solves_then_reweights_witness :
  let st := initial_state 4 in
  let st' := Scenario.two_cells_state1 in
  iteration Scenario.exp Scenario.pow Scenario.QSopt_solution Scenario.two_cells_V 2 st =
    Ret st' /\
  exists problem,
    build_problem 4 Scenario.two_cells_V (Some (W st)) = Ret problem /\
    map col_obj (qs_cols problem) = W st /\
    C st' = map (Scenario.QSopt_solution problem) (seq 0 4) /\
    W st' = map (fun c => D.div (weight_epsilon st') (D.add (weight_epsilon st') c)) (C st').
Proof.
  assert (Hstep : iteration Scenario.exp Scenario.pow Scenario.QSopt_solution
                    Scenario.two_cells_V 2 (initial_state 4) = Ret Scenario.two_cells_state1)
    by (vm_compute; reflexivity).
  split; [exact Hstep|].
  destruct (iteration_solves_then_reweights Scenario.exp Scenario.pow
              Scenario.QSopt_solution Scenario.two_cells_V 2 (initial_state 4)
              Scenario.two_cells_state1 Hstep)
    as (_ & problem & Hp & Hobj & _ & HC & HW & _).
  exists problem. split; [exact Hp|]. split; [exact Hobj|]. split; [exact HC|exact HW].
Defined.

(** Room A with [sparsity_check_range = 1]: one iteration. *)
Lemma iterations_by_sparsity_check_range_witness :
  exists st,
    relaxation_loop Scenario.exp Scenario.pow Scenario.QSopt_solution 201
      Scenario.two_cells_V 1 (initial_state 4) = Ret st /\
    number_of_iterations st = 1 /\ sparsity_converged st = true.
Proof.
  destruct (iterations_by_sparsity_check_range Scenario.exp Scenario.pow
              Scenario.QSopt_solution Scenario.two_cells_V 1 201 4)
    as (st & Hst & _ & Hone & _).
  - apply mat_writtenb_spec. vm_compute. reflexivity.
  - lia.
  - lia.
  - exists st. split; [exact Hst|]. apply Hone. lia.
Defined.

(** Room A: the final solution has two entries, both the truncated value
    of the solver.  And a solve of two variables with the values 3e9 and
    0.5, under a conversion that gives [INT_MIN] for what does not fit: the
    second entry is 0. *)
Lemma final_solution_is_truncated_witness :
  let r := Scenario.two_cells_result in
  let solver := fun (_ : QSprob) (i : nat) =>
                  if (i =? 0)%nat then D.of_Z 3000000000 else D.lit 5 1 in
  let convert := fun x => match to_int x with Ret z => Ret z | _ => Ret (- 2 ^ 31) end in
  Scenario.run_two_cells [] = Ret r /\
  length (res_C_reduced r) = 2%nat /\
  res_C_reduced r !! 0%nat = Some 1 /\
  exists problem,
    solveOptimizationProblem solver convert [0; 0] (Mat_new 0 2) None =
      Ret (problem, [- 2 ^ 31; 0]) /\
    [- 2 ^ 31; 0] !! 1%nat = Some 0.
Proof.
  assert (Hrun : Scenario.run_two_cells [] = Ret Scenario.two_cells_result)
    by (vm_compute; reflexivity).
  split; [exact Hrun|].
  destruct (final_solution_is_truncated Scenario.PI Scenario.sin Scenario.cos
           Scenario.acos Scenario.exp Scenario.pow Scenario.pointPolygonTest
           Scenario.LineIterator Scenario.QSopt_solution 300 Scenario.two_cells []
           Scenario.f_one (mkPoint 0 0) (mkPoint2d d_zero d_zero) 1 Scenario.PI
           (Scenario.bounds 1) Scenario.footprint (mkVec2f Scenario.f_one Scenario.f_zero)
           (D.lit 32 1) d_zero d_one 2 Scenario.two_cells_result)
    as (_ & Hreturned).
  destruct (Hreturned Hrun) as (_ & Hall).
  split; [reflexivity|].
  split; [apply (Hall 0%nat); [vm_compute; lia|vm_compute; reflexivity|reflexivity]|].
  destruct (final_solution_is_truncated Scenario.PI Scenario.sin Scenario.cos
           Scenario.acos Scenario.exp Scenario.pow Scenario.pointPolygonTest
           Scenario.LineIterator
           (fun (_ : QSprob) (i : nat) =>
              if (i =? 0)%nat then D.of_Z 3000000000 else D.lit 5 1)
           300 Scenario.two_cells []
           Scenario.f_one (mkPoint 0 0) (mkPoint2d d_zero d_zero) 1 Scenario.PI
           (Scenario.bounds 1) Scenario.footprint (mkVec2f Scenario.f_one Scenario.f_zero)
           (D.lit 32 1) d_zero d_one 2 Scenario.two_cells_result)
    as (Hany & _).
  eexists. split; [vm_compute; reflexivity|].
  eapply (Hany (fun x => match to_int x with Ret z => Ret z | _ => Ret (- 2 ^ 31) end)
               [0; 0] (Mat_new 0 2) _ [- 2 ^ 31; 0]).
  - intros x z Hz Hin. unfold to_int. rewrite Hz, Hin. reflexivity.
  - vm_compute. reflexivity.
  - cbn. lia.
  - vm_compute. reflexivity.
  - vm_compute. reflexivity.
Defined.


(** The reference solver returns 0.0 or 1.0, which convert to [int]. *)
Lemma reference_solver_converts (problem : QSprob) (i : nat) :
  exists z, to_int (Scenario.QSopt_solution problem i) = Ret z.
Proof.
  unfold Scenario.QSopt_solution.
  destruct (Scenario.cheapest problem) as [a|]; [destruct (nth i a false)|];
    eexists; vm_compute; reflexivity.
Qed.

(** Room A: the run returns on the matrix built from its cells and poses. *)
Lemma run_returns_once_V_is_built_witness :
  exists r,
    Scenario.run_two_cells [] = Ret r /\
    res_cell_centers r = [mkPoint 0 0; mkPoint 1 0] /\
    res_V r = Scenario.two_cells_V.
Proof.
  destruct (run_returns_once_V_is_built Scenario.PI Scenario.sin Scenario.cos
           Scenario.acos Scenario.exp Scenario.pow Scenario.pointPolygonTest
           Scenario.LineIterator Scenario.QSopt_solution 300 Scenario.two_cells []
           Scenario.f_one (mkPoint 0 0) (mkPoint2d d_zero d_zero) 1 Scenario.PI
           (Scenario.bounds 1) Scenario.footprint (mkVec2f Scenario.f_one Scenario.f_zero)
           (D.lit 32 1) d_zero d_one 2
           [mkPoint 0 0; mkPoint 1 0]
           (res_candidate_sensing_poses Scenario.two_cells_result)
           Scenario.two_cells_V)
    as (r & Hrun & Hcells & _ & HV & _).
  - vm_compute. reflexivity.
  - vm_compute. reflexivity.
  - vm_compute. reflexivity.
  - lia.
  - lia.
  - exact reference_solver_converts.
  - exists r. split; [exact Hrun|]. split; [exact Hcells|exact HV].
Defined.

(** Room A with [delta_theta = 7]: one pose per cell. *)
Lemma full_turn_step_gives_one_heading_witness :
  get_candidate_poses Scenario.PI 2 (D.of_Z 7) [mkPoint 0 0; mkPoint 1 0] [] =
    Ret [mkPose2D (D.of_Z 0) (D.of_Z 0) d_zero; mkPose2D (D.of_Z 1) (D.of_Z 0) d_zero].
Proof.
  apply (full_turn_step_gives_one_heading Scenario.PI 2 (D.of_Z 7) [mkPoint 0 0; mkPoint 1 0]).
  - vm_compute. reflexivity.
  - vm_compute. reflexivity.
  - lia.
Defined.

(** Room B: one cell, two headings, and a matrix of zeros. *)
Lemma own_blocks_of_V_are_zero_witness :
  let r := Scenario.one_cell_result in
  res_cell_centers r = [mkPoint 0 0] /\
  exists headings : nat,
    mat_cols (res_V r) = (1 * headings)%nat /\
    forall j, (j < mat_cols (res_V r))%nat -> mat_get (res_V r) 0 j = Some 0.
Proof.
  split; [reflexivity|].
  destruct (own_blocks_of_V_are_zero Scenario.PI Scenario.sin Scenario.cos Scenario.acos
              Scenario.pointPolygonTest Scenario.LineIterator Scenario.one_cell
              Scenario.f_one (D.lit 32 1) (D.lit 5 1) (D.of_Z 2) (mkPoint2d d_zero d_zero)
              Scenario.footprint (mkVec2f Scenario.f_one Scenario.f_zero) eq_refl
              300 Scenario.PI (mkPoint 0 0) []
              (res_candidate_sensing_poses Scenario.one_cell_result)
              (res_V Scenario.one_cell_result))
    as (headings & _ & Hcols & _ & Hall).
  - vm_compute. reflexivity.
  - vm_compute. reflexivity.
  - exists headings. split; [exact Hcols|]. apply Hall. reflexivity.
Defined.

(** Room A: a grid of two points in one line, both free. *)
Lemma cell_centers_are_the_free_grid_pixels_witness :
  get_cell_centers 300 Scenario.two_cells 1 (Scenario.bounds 1) =
    Ret [mkPoint 0 0; mkPoint 1 0] /\
  exists kx ky : nat,
    (0 < kx)%nat /\ (0 < ky)%nat /\
    [mkPoint 0 0; mkPoint 1 0] = grid_cells Scenario.two_cells 1 0 0 kx ky.
Proof.
  assert (Hcells : get_cell_centers 300 Scenario.two_cells 1 (Scenario.bounds 1) =
                   Ret [mkPoint 0 0; mkPoint 1 0]) by (vm_compute; reflexivity).
  split; [exact Hcells|].
  destruct (cell_centers_are_the_free_grid_pixels Scenario.two_cells 1 ltac:(lia) 300
              (mkPoint32 Scenario.f_zero Scenario.f_zero Scenario.f_zero)
              (mkPoint32 (F.of_Z 1) Scenario.f_zero Scenario.f_zero) [] 0 0
              [mkPoint 0 0; mkPoint 1 0])
    as (kx & ky & Hkx & Hky & _ & _ & _ & _ & _ & Hgrid).
  - vm_compute. reflexivity.
  - vm_compute. reflexivity.
  - lia.
  - lia.
  - vm_compute. reflexivity.
  - vm_compute. reflexivity.
  - exact Hcells.
  - exists kx, ky. split; [exact Hkx|]. split; [exact Hky|exact Hgrid].
Defined.

(** Room A with [delta_theta = -1]. *)
Lemma negative_step_never_returns_witness :
  Scenario.run 300 Scenario.two_cells [] Scenario.f_one (mkPoint 0 0)
    (mkPoint2d d_zero d_zero) 1 (D.of_Z (-1)) (Scenario.bounds 1) Scenario.footprint
    (mkVec2f Scenario.f_one Scenario.f_zero) (D.lit 32 1) d_zero d_one 2 = Diverge.
Proof.
  apply (negative_step_never_returns Scenario.PI Scenario.sin Scenario.cos
           Scenario.acos Scenario.exp Scenario.pow Scenario.pointPolygonTest
           Scenario.LineIterator Scenario.QSopt_solution 300 Scenario.two_cells []
           Scenario.f_one (mkPoint 0 0) (mkPoint2d d_zero d_zero) 1 (D.of_Z (-1))
           (Scenario.bounds 1) Scenario.footprint (mkVec2f Scenario.f_one Scenario.f_zero)
           (D.lit 32 1) d_zero d_one 2 (mkPoint 0 0) [mkPoint 1 0]).
  - vm_compute. exact I.
  - vm_compute. reflexivity.
  - vm_compute. reflexivity.
Defined.
